(** * go-mdfmt: the rule engine and the renderer

    A shallow embedding of the formatting core of go-mdfmt:
    [pkg/parser/ast.go] (tree model and walker), the [formatter] package
    (rule engine and built-in rules), [pkg/renderer/renderer.go] (the
    serializer) and [formatMarkdownContent] of the command, followed by the
    properties of the specification that they decide.

    Conventions.
    - A Go [string] is a sequence of bytes: [gostring := list ascii];
      [len s] is its byte length as a Go [int], modelled in [Z].
    - A Go function that mutates the node it is handed returns the node's
      new value; the renderer's receiver is threaded explicitly.
    - A Go [error] is its message; [nil] is [None].
    - A call that panics ([strings.Repeat] with a negative count) yields
      [Panicked]. *)

From Stdlib Require Import List ZArith NArith Lia Ascii Bool Arith Sorted.
From Stdlib Require DecimalString Decimal.
From Stdlib Require String.
Import ListNotations.

Local Open Scope Z_scope.
Local Open Scope list_scope.

(* ================================================================== *)
(** ** Go strings *)

Definition gostring := list ascii.

Inductive gostring_literal : Set :=
| LitNil
| LitCons (a : ascii) (r : gostring_literal).

Fixpoint literal_of_bytes (l : list Byte.byte) : gostring_literal :=
  match l with
  | [] => LitNil
  | b :: r => LitCons (ascii_of_byte b) (literal_of_bytes r)
  end.

Fixpoint bytes_of_literal (l : gostring_literal) : list Byte.byte :=
  match l with
  | LitNil => []
  | LitCons a r => byte_of_ascii a :: bytes_of_literal r
  end.

Declare Scope gostring_scope.
Delimit Scope gostring_scope with go.
#[warning="-via-type-remapping,-via-type-mismatch"]
String Notation gostring literal_of_bytes bytes_of_literal
  (via gostring_literal mapping [[nil] => LitNil, [cons] => LitCons])
  : gostring_scope.
Local Open Scope gostring_scope.

(** The bytes the sources write as escapes. *)
Definition TAB : ascii := "009"%char.
Definition NL : ascii := "010"%char.
Definition SP : ascii := " "%char.

(** [len(s)] *)
Definition len (s : gostring) : Z := Z.of_nat (length s).

(** [a == b] on strings *)
Fixpoint streq (a b : gostring) : bool :=
  match a, b with
  | [], [] => true
  | x :: a', y :: b' => Ascii.eqb x y && streq a' b'
  | _, _ => false
  end.

(** The result of a call that may panic. *)
Inductive outcome (A : Type) : Type :=
| Returned (a : A)
| Panicked (msg : gostring).
Arguments Returned {A} a.
Arguments Panicked {A} msg.

(** Go's [error]: the message; [nil] is [None]. *)
Definition error := gostring.

(* ------------------------------------------------------------------ *)
(** *** Package [strings]

    [unicode.IsSpace] holds of the six ASCII blanks, of U+0085 and U+00A0
    and of the space separators U+1680, U+2000..U+200A, U+2028, U+2029,
    U+202F, U+205F and U+3000.  Every one of them is a complete UTF-8
    sequence that starts on an ASCII or a lead byte, which Go's decoder
    never skips, so white space is recognised on the bytes directly. *)
Module strings.

Definition byteval (c : ascii) : N := N_of_ascii c.

Definition asciiSpace (c : ascii) : bool :=
  let b := byteval c in
  ((9 <=? b) && (b <=? 13) || (b =? 32))%N.

Definition isSpace2 (b0 b1 : N) : bool :=
  ((b0 =? 0xC2) && ((b1 =? 0x85) || (b1 =? 0xA0)))%N.

Definition isSpace3 (b0 b1 b2 : N) : bool :=
  ((b0 =? 0xE1) && (b1 =? 0x9A) && (b2 =? 0x80)
   || (b0 =? 0xE2) && (b1 =? 0x80)
        && ((0x80 <=? b2) && (b2 <=? 0x8A)
            || (b2 =? 0xA8) || (b2 =? 0xA9) || (b2 =? 0xAF))
   || (b0 =? 0xE2) && (b1 =? 0x81) && (b2 =? 0x9F)
   || (b0 =? 0xE3) && (b1 =? 0x80) && (b2 =? 0x80))%N.

(** Width in bytes of the white-space rune that starts [s]; 0 if the rune
    there is not white space. *)
Definition spaceWidth (s : gostring) : nat :=
  match s with
  | [] => 0%nat
  | c0 :: r0 =>
      if asciiSpace c0 then 1%nat
      else match r0 with
           | [] => 0%nat
           | c1 :: r1 =>
               if isSpace2 (byteval c0) (byteval c1) then 2%nat
               else match r1 with
                    | [] => 0%nat
                    | c2 :: _ =>
                        if isSpace3 (byteval c0) (byteval c1) (byteval c2)
                        then 3%nat else 0%nat
                    end
           end
  end.

(** The same for the rune that ends a string, on the reversed bytes. *)
Definition spaceWidthRev (rs : gostring) : nat :=
  match rs with
  | [] => 0%nat
  | c0 :: r0 =>
      if asciiSpace c0 then 1%nat
      else match r0 with
           | [] => 0%nat
           | c1 :: r1 =>
               if isSpace2 (byteval c1) (byteval c0) then 2%nat
               else match r1 with
                    | [] => 0%nat
                    | c2 :: _ =>
                        if isSpace3 (byteval c2) (byteval c1) (byteval c0)
                        then 3%nat else 0%nat
                    end
           end
  end.

(** Drop white-space runes from the front; [skip] counts the bytes of the
    current rune still to drop. *)
Fixpoint dropSpaces (width : gostring -> nat) (s : gostring) (skip : nat)
  : gostring :=
  match s with
  | [] => []
  | _ :: r =>
      match skip with
      | S k => dropSpaces width r k
      | O => match width s with
             | O => s
             | S k => dropSpaces width r k
             end
      end
  end.

(** [strings.TrimSpace]: [TrimFunc(s, unicode.IsSpace)], left then right. *)
Definition TrimSpace (s : gostring) : gostring :=
  rev (dropSpaces spaceWidthRev (rev (dropSpaces spaceWidth s 0)) 0).

Fixpoint inCutset (c : ascii) (cutset : gostring) : bool :=
  match cutset with
  | [] => false
  | d :: r => Ascii.eqb c d || inCutset c r
  end.

Fixpoint dropCutset (cutset : gostring) (s : gostring) : gostring :=
  match s with
  | [] => []
  | c :: r => if inCutset c cutset then dropCutset cutset r else s
  end.

(** [strings.TrimRight(s, cutset)] for an ASCII cutset (every call passes
    a space and a tab). *)
Definition TrimRight (s cutset : gostring) : gostring :=
  rev (dropCutset cutset (rev s)).

Definition flush (cur : gostring) : list gostring :=
  match cur with
  | [] => []
  | _ => [cur]
  end.

Fixpoint fieldsFrom (s : gostring) (skip : nat) (cur : gostring)
  : list gostring :=
  match s with
  | [] => flush cur
  | c :: r =>
      match skip with
      | S k => fieldsFrom r k cur
      | O => match spaceWidth s with
             | O => fieldsFrom r 0 (cur ++ [c])
             | S k => flush cur ++ fieldsFrom r k []
             end
      end
  end.

(** [strings.Fields]: the maximal runs of non-white-space. *)
Definition Fields (s : gostring) : list gostring := fieldsFrom s 0 [].

(** [strings.Split(s, sep)] for a one-byte separator (every call passes a
    newline): never an empty result, [Split("", sep) = [""]]. *)
Fixpoint Split (s : gostring) (sep : ascii) : list gostring :=
  match s with
  | [] => [[]]
  | c :: r =>
      if Ascii.eqb c sep then [] :: Split r sep
      else match Split r sep with
           | l :: ls => (c :: l) :: ls
           | [] => [[c]]
           end
  end.

(** [strings.Join] *)
Fixpoint Join (elems : list gostring) (sep : gostring) : gostring :=
  match elems with
  | [] => []
  | [e] => e
  | e :: rest => e ++ sep ++ Join rest sep
  end.

(** [strings.HasSuffix] *)
Definition HasSuffix (s suffix : gostring) : bool :=
  streq (skipn (length s - length suffix) s) suffix
  && (length suffix <=? length s)%nat.

(** [strings.Repeat]: panics on a negative count. *)
Definition Repeat (s : gostring) (count : Z) : outcome gostring :=
  if count <? 0 then Panicked "strings: negative Repeat count"
  else Returned (concat (repeat s (Z.to_nat count))).

(** [strings.ReplaceAll(s, old, new)] for a one-byte [old]. *)
Fixpoint ReplaceAll (s : gostring) (old : ascii) (new : gostring)
  : gostring :=
  match s with
  | [] => []
  | c :: r =>
      (if Ascii.eqb c old then new else [c]) ++ ReplaceAll r old new
  end.

End strings.

(* ------------------------------------------------------------------ *)
(** *** Package [regexp]

    The six patterns the sources compile.  In each of them every repeated
    class excludes the delimiter that follows it, so a match that starts at
    a given byte is decided by the first closing delimiter after it, and
    the leftmost-first rule of Go's engine leaves one candidate per start.
    The classes are ASCII, hence matching is byte-wise. *)
Module regexp.

Inductive Pattern : Set :=
| linkPattern
| brokenLinkPattern
| multiBreakPattern
| inlineCodePattern
| emphasisPattern
| linkSpacePattern.

(** The expression each of them stands for, as the sources write it. *)
Definition source (p : Pattern) : gostring :=
  match p with
  | linkPattern => "\[[^\]]*\]\([^)]*\)"
  | brokenLinkPattern => "\[([^\]]*)\n([^\]]*)\]\(([^)]*)\)"
  | multiBreakPattern => "\[([^\]]*(?:\n[^\]]*)*)\]\(([^)]*)\)"
  | inlineCodePattern => "`\s+([^`]+)\s+`"
  | emphasisPattern => "\b_([^_]+)_\b"
  | linkSpacePattern => "\[\s+([^\]]+)\s+\]"
  end.

(** The text before the first [d] and the text after it. *)
Fixpoint cut (d : ascii) (s : gostring) : option (gostring * gostring) :=
  match s with
  | [] => None
  | c :: r =>
      if Ascii.eqb c d then Some ([], r)
      else match cut d r with
           | Some (a, b) => Some (c :: a, b)
           | None => None
           end
  end.

(** The text before the last [d] and the text after it. *)
Definition cutLast (d : ascii) (s : gostring) : option (gostring * gostring) :=
  match cut d (rev s) with
  | Some (a, b) => Some (rev b, rev a)
  | None => None
  end.

(** [\s] is [[\t\n\f\r ]]. *)
Definition classSpace (c : ascii) : bool :=
  let b := N_of_ascii c in
  ((b =? 9) || (b =? 10) || (b =? 12) || (b =? 13) || (b =? 32))%N.

(** [\w] is [[0-9A-Za-z_]]. *)
Definition classWord (c : ascii) : bool :=
  let b := N_of_ascii c in
  ((48 <=? b) && (b <=? 57) || (65 <=? b) && (b <=? 90)
   || (97 <=? b) && (b <=? 122) || (b =? 95))%N.

Fixpoint spaceRun (s : gostring) : nat :=
  match s with
  | c :: r => if classSpace c then S (spaceRun r) else 0%nat
  | [] => 0%nat
  end.

(** [label] and [url] of a link that starts [s]. *)
Definition linkAt (s : gostring) : option (gostring * gostring) :=
  match s with
  | c :: t =>
      if Ascii.eqb c "[" then
        match cut "]" t with
        | Some (label, c2 :: t3) =>
            if Ascii.eqb c2 "(" then
              match cut ")" t3 with
              | Some (url, _) => Some (label, url)
              | None => None
              end
            else None
        | _ => None
        end
      else None
  | [] => None
  end.

Definition linkText (label url : gostring) : gostring :=
  "[" ++ label ++ "](" ++ url ++ ")".

(** The group of [open \s+ (group) \s+ close] inside [body], the text
    between the delimiters: the first [\s+] takes the leading blanks but
    leaves two bytes, the last [\s+] takes the final byte only. *)
Definition paddedGroup (body : gostring) : option gostring :=
  let n := length body in
  if (3 <=? n)%nat && (1 <=? spaceRun body)%nat
     && (1 <=? spaceRun (rev body))%nat
  then let k := Nat.min (spaceRun body) (n - 2) in
       Some (firstn (n - 1 - k) (skipn k body))
  else None.

Definition paddedAt (open close : ascii) (s : gostring)
  : option (list gostring) :=
  match s with
  | c :: t =>
      if Ascii.eqb c open then
        match cut close t with
        | Some (body, _) =>
            match paddedGroup body with
            | Some g => Some [[open] ++ body ++ [close]; g]
            | None => None
            end
        | None => None
        end
      else None
  | [] => None
  end.

Definition boundaryBefore (prev : option ascii) : bool :=
  match prev with
  | None => true
  | Some p => negb (classWord p)
  end.

Definition boundaryAfter (rest : gostring) : bool :=
  match rest with
  | [] => true
  | c :: _ => negb (classWord c)
  end.

(** The match of a pattern that starts [s], as the list of its
    submatches (the whole match first); [prev] is the byte before [s]. *)
Definition matchAt (p : Pattern) (prev : option ascii) (s : gostring)
  : option (list gostring) :=
  match p with
  | linkPattern =>
      match linkAt s with
      | Some (label, url) => Some [linkText label url]
      | None => None
      end
  | brokenLinkPattern =>
      match linkAt s with
      | Some (label, url) =>
          match cutLast NL label with
          | Some (g1, g2) => Some [linkText label url; g1; g2; url]
          | None => None
          end
      | None => None
      end
  | multiBreakPattern =>
      match linkAt s with
      | Some (label, url) => Some [linkText label url; label; url]
      | None => None
      end
  | inlineCodePattern => paddedAt "`" "`" s
  | linkSpacePattern => paddedAt "[" "]" s
  | emphasisPattern =>
      match s with
      | c :: t =>
          if Ascii.eqb c "_" && boundaryBefore prev then
            match cut "_" t with
            | Some (g, rest) =>
                match g with
                | [] => None
                | _ => if boundaryAfter rest
                       then Some [["_"%char] ++ g ++ ["_"%char]; g]
                       else None
                end
            | None => None
            end
          else None
      | [] => None
      end
  end.

(** A compiled expression. *)
Record Regexp : Set := MustCompile { expr : Pattern }.

Definition wholeLength (m : list gostring) : nat :=
  match m with
  | w :: _ => length w
  | [] => 0%nat
  end.

(** Scan for the successive leftmost matches: [pos] is the offset of [s]
    in the source, [skip] the bytes of the last match still to pass. *)
Fixpoint findAllFrom (re : Regexp) (prev : option ascii) (s : gostring)
  (pos : Z) (skip : nat) : list (Z * Z) :=
  match s with
  | [] => []
  | c :: r =>
      match skip with
      | S k => findAllFrom re (Some c) r (pos + 1) k
      | O =>
          match matchAt (expr re) prev s with
          | Some m =>
              (pos, pos + Z.of_nat (wholeLength m))
                :: findAllFrom re (Some c) r (pos + 1) (wholeLength m - 1)
          | None => findAllFrom re (Some c) r (pos + 1) 0
          end
      end
  end.

(** [re.FindAllStringIndex(s, -1)] *)
Definition FindAllStringIndex (re : Regexp) (s : gostring) : list (Z * Z) :=
  findAllFrom re None s 0 0.

Fixpoint findFirstFrom (re : Regexp) (prev : option ascii) (s : gostring)
  : option (list gostring) :=
  match s with
  | [] => None
  | c :: r =>
      match matchAt (expr re) prev s with
      | Some m => Some m
      | None => findFirstFrom re (Some c) r
      end
  end.

(** [re.FindStringSubmatch(s)]: [nil] when nothing matches. *)
Definition FindStringSubmatch (re : Regexp) (s : gostring) : list gostring :=
  match findFirstFrom re None s with
  | Some m => m
  | None => []
  end.

(** [regexp.MatchString(pattern, s)] *)
Definition MatchString (p : Pattern) (s : gostring) : bool :=
  match findFirstFrom (MustCompile p) None s with
  | Some _ => true
  | None => false
  end.

Fixpoint replaceFrom (re : Regexp) (repl : list gostring -> gostring)
  (prev : option ascii) (s : gostring) (skip : nat) : gostring :=
  match s with
  | [] => []
  | c :: r =>
      match skip with
      | S k => replaceFrom re repl (Some c) r k
      | O =>
          match matchAt (expr re) prev s with
          | Some m =>
              repl m ++ replaceFrom re repl (Some c) r (wholeLength m - 1)
          | None => c :: replaceFrom re repl (Some c) r 0
          end
      end
  end.

(** [re.ReplaceAllStringFunc(src, repl)]: [repl] receives the matched
    text. *)
Definition ReplaceAllStringFunc (re : Regexp) (src : gostring)
  (repl : gostring -> gostring) : gostring :=
  replaceFrom re (fun m => repl (hd [] m)) None src 0.

(** A replacement template: literal text and [$n] references. *)
Inductive Piece : Set :=
| Lit (s : gostring)
| Group (n : nat).

Definition expand (template : list Piece) (m : list gostring) : gostring :=
  concat (map (fun p => match p with
                        | Lit s => s
                        | Group n => nth n m []
                        end) template).

(** [re.ReplaceAllString(src, template)] *)
Definition ReplaceAllString (re : Regexp) (src : gostring)
  (template : list Piece) : gostring :=
  replaceFrom re (expand template) None src 0.

End regexp.

(* ================================================================== *)
(** ** Package [config] *)
Module config.

Record HeadingConfig : Set := {
  Heading_Style : gostring;
  NormalizeLevels : bool
}.

Record ListConfig : Set := {
  BulletStyle : gostring;
  NumberStyle : gostring;
  ConsistentIndentation : bool
}.

Record CodeConfig : Set := {
  FenceStyle : gostring;
  LanguageDetection : bool
}.

Record WhitespaceConfig : Set := {
  MaxBlankLines : Z;
  TrimTrailingSpaces : bool;
  EnsureFinalNewline : bool
}.

Record FilesConfig : Set := {
  Extensions : list gostring;
  IgnorePatterns : list gostring
}.

Record Config : Set := {
  LineWidth : Z;
  Heading : HeadingConfig;
  List : ListConfig;
  Code : CodeConfig;
  Whitespace : WhitespaceConfig;
  Files : FilesConfig
}.

Definition DefaultLineWidth : Z := 80.
Definition DefaultMaxBlankLines : Z := 2.

(** [config.Default()] *)
Definition Default : Config := {|
  LineWidth := DefaultLineWidth;
  Heading := {| Heading_Style := "atx"; NormalizeLevels := true |};
  List := {| BulletStyle := "-"; NumberStyle := ".";
             ConsistentIndentation := true |};
  Code := {| FenceStyle := "```"; LanguageDetection := true |};
  Whitespace := {| MaxBlankLines := DefaultMaxBlankLines;
                   TrimTrailingSpaces := true;
                   EnsureFinalNewline := true |};
  Files := {| Extensions := [".md"; ".markdown"; ".mdown"];
              IgnorePatterns := ["node_modules/**"; ".git/**"; "vendor/**"] |}
|}.

(** [contains] *)
Fixpoint contains (slice : list gostring) (item : gostring) : bool :=
  match slice with
  | [] => false
  | s :: rest => if streq s item then true else contains rest item
  end.

(** [Config.Validate] *)
Definition Validate (c : Config) : option error :=
  if LineWidth c <? 1 then
    Some "line_width must be greater than 0"
  else if negb (streq (Heading_Style (Heading c)) "atx")
          && negb (streq (Heading_Style (Heading c)) "setext") then
    Some "heading.style must be 'atx' or 'setext'"
  else if negb (contains ["-"; "*"; "+"] (BulletStyle (List c))) then
    Some "list.bullet_style must be '-', '*', or '+'"
  else if negb (contains ["."; ")"] (NumberStyle (List c))) then
    Some "list.number_style must be '.' or ')'"
  else if negb (contains ["```"; "~~~"] (FenceStyle (Code c))) then
    Some "code.fence_style must be '```' or '~~~'"
  else if MaxBlankLines (Whitespace c) <? 0 then
    Some "whitespace.max_blank_lines must be >= 0"
  else None.

End config.

(* ================================================================== *)
(** ** Package [parser]: the tree *)
Module parser.

Definition NodeType := Z.
Definition NodeDocument : NodeType := 0.
Definition NodeHeading : NodeType := 1.
Definition NodeParagraph : NodeType := 2.
Definition NodeList : NodeType := 3.
Definition NodeListItem : NodeType := 4.
Definition NodeCodeBlock : NodeType := 5.
Definition NodeText : NodeType := 6.

Record Heading : Set := {
  Heading_Level : Z;
  Heading_Text : gostring;
  Heading_Style : gostring
}.

Record Paragraph : Set := { Paragraph_Text : gostring }.

Record CodeBlock : Set := {
  CodeBlock_Language : gostring;
  CodeBlock_Content : gostring;
  CodeBlock_Fenced : bool;
  CodeBlock_Fence : gostring
}.

Record Text : Set := { Text_Content : gostring }.

(** A [Node] is a value of one of the seven node types, or of a type
    declared elsewhere that implements the interface ([NForeign], with
    what its [Type()] answers). *)
Inductive Node : Set :=
| NDocument (d : Document)
| NHeading (h : Heading)
| NParagraph (p : Paragraph)
| NList (l : List)
| NListItem (i : ListItem)
| NCodeBlock (c : CodeBlock)
| NText (t : Text)
| NForeign (ty : NodeType)
with Document : Set :=
| mkDocument (Children : list Node)
with List : Set :=
| mkList (Ordered : bool) (Items : list ListItem) (Marker : gostring)
with ListItem : Set :=
| mkListItem (Text_ : gostring) (Marker : gostring) (Children : list Node).

Definition Document_Children (d : Document) : list Node :=
  match d with mkDocument c => c end.

Definition List_Ordered (l : List) : bool :=
  match l with mkList o _ _ => o end.
Definition List_Items (l : List) : list ListItem :=
  match l with mkList _ i _ => i end.
Definition List_Marker (l : List) : gostring :=
  match l with mkList _ _ m => m end.

Definition ListItem_Text (i : ListItem) : gostring :=
  match i with mkListItem t _ _ => t end.
Definition ListItem_Marker (i : ListItem) : gostring :=
  match i with mkListItem _ m _ => m end.
Definition ListItem_Children (i : ListItem) : list Node :=
  match i with mkListItem _ _ c => c end.

(** The [Type()] method. *)
Definition Type_ (n : Node) : NodeType :=
  match n with
  | NDocument _ => NodeDocument
  | NHeading _ => NodeHeading
  | NParagraph _ => NodeParagraph
  | NList _ => NodeList
  | NListItem _ => NodeListItem
  | NCodeBlock _ => NodeCodeBlock
  | NText _ => NodeText
  | NForeign ty => ty
  end.

(** [Walker] *)
Record Walker : Set := { nodes : list Node; index : Z }.

(** [NewWalker]: the document, then its children. *)
Definition NewWalker (doc : Document) : Walker :=
  {| nodes := [NDocument doc] ++ Document_Children doc; index := -1 |}.

(** [Walker.Next] *)
Definition Next (w : Walker) : option Node * Walker :=
  let w' := {| nodes := nodes w; index := index w + 1 |} in
  if index w' >=? Z.of_nat (length (nodes w')) then (None, w')
  else (nth_error (nodes w') (Z.to_nat (index w')), w').

(** The nodes [Next] has yet to return. *)
Definition remaining (w : Walker) : list Node :=
  skipn (Z.to_nat (index w + 1)) (nodes w).

(** [NodeTypeString] *)
Definition NodeTypeString (t : NodeType) : gostring :=
  if t =? NodeDocument then "Document"
  else if t =? NodeHeading then "Heading"
  else if t =? NodeParagraph then "Paragraph"
  else if t =? NodeList then "List"
  else if t =? NodeListItem then "ListItem"
  else if t =? NodeCodeBlock then "CodeBlock"
  else if t =? NodeText then "Text"
  else "Unknown".

(** [Document.GetAllNodes] *)
Definition GetAllNodes (n : Document) : list Node :=
  [] ++ Document_Children n.

(** [BasicParser.Parse] *)
Definition BasicParser_Parse (content : gostring) : Document * option error :=
  (mkDocument [NParagraph {| Paragraph_Text := content |}], None).

(** The loop of [FindNodes] over the nodes the walker has yet to return. *)
Fixpoint findLoop (nodeType : NodeType) (todo found : list Node) : list Node :=
  match todo with
  | [] => found
  | node :: rest =>
      findLoop nodeType rest
        (if Type_ node =? nodeType then found ++ [node] else found)
  end.

(** [FindNodes] *)
Definition FindNodes (doc : Document) (nodeType : NodeType) : list Node :=
  findLoop nodeType (remaining (NewWalker doc)) [].

(** The loop of [FindFirstNode]; [nil] is [None]. *)
Fixpoint firstLoop (nodeType : NodeType) (todo : list Node) : option Node :=
  match todo with
  | [] => None
  | node :: rest =>
      if Type_ node =? nodeType then Some node else firstLoop nodeType rest
  end.

(** [FindFirstNode] *)
Definition FindFirstNode (doc : Document) (nodeType : NodeType) : option Node :=
  firstLoop nodeType (remaining (NewWalker doc)).

End parser.

(** [fmt.Sprintf("%d", i)] *)
Definition itoa (i : Z) : gostring :=
  String.list_ascii_of_string (DecimalString.NilZero.string_of_int (Z.to_int i)).

(* ================================================================== *)
(** ** Package [formatter]: the rule engine *)
Module formatter.

Definition HeadingFormatterPriority : Z := 100.
Definition ParagraphFormatterPriority : Z := 90.
Definition ListFormatterPriority : Z := 80.
Definition CodeFormatterPriority : Z := 70.
Definition WhitespaceFormatterPriority : Z := 10.
Definition InlineFormatterPriority : Z := 60.

Definition AtxHeadingStyle : gostring := "atx".
Definition SetextHeadingStyle : gostring := "setext".

Definition MinHeadingLevel : Z := 1.
Definition MaxHeadingLevel : Z := 6.
Definition SetextMaxLevel : Z := 2.

(** The [NodeFormatter] interface.  [Format] mutates the node it is given
    and may fail: it answers the node as it leaves it, and the error. *)
Record NodeFormatter : Type := {
  Name : gostring;
  CanFormat : parser.NodeType -> bool;
  Format : parser.Node -> config.Config -> parser.Node * option error;
  Priority : Z
}.

Record Engine : Type := { formatters : list NodeFormatter }.

Record BaseFormatter : Set := { name : gostring; priority : Z }.

(** The zero value, as in [&HeadingFormatter{}]. *)
Definition zeroBase : BaseFormatter := {| name := ""; priority := 0 |}.

(* ---------------- HeadingFormatter ---------------- *)

Definition HeadingFormatter_CanFormat (nodeType : parser.NodeType) : bool :=
  nodeType =? parser.NodeHeading.

Definition HeadingFormatter_Format (node : parser.Node) (cfg : config.Config)
  : parser.Node * option error :=
  match node with
  | parser.NHeading heading =>
      let style :=
        if streq (config.Heading_Style (config.Heading cfg)) AtxHeadingStyle
        then AtxHeadingStyle
        else if streq (config.Heading_Style (config.Heading cfg))
                      SetextHeadingStyle
        then (if parser.Heading_Level heading <=? SetextMaxLevel
              then SetextHeadingStyle else AtxHeadingStyle)
        else parser.Heading_Style heading in
      let level := parser.Heading_Level heading in
      let level :=
        if config.NormalizeLevels (config.Heading cfg) then
          let level := if level >? MaxHeadingLevel then MaxHeadingLevel
                       else level in
          if level <? MinHeadingLevel then MinHeadingLevel else level
        else level in
      (parser.NHeading
         {| parser.Heading_Level := level;
            parser.Heading_Text := strings.TrimSpace (parser.Heading_Text heading);
            parser.Heading_Style := style |}, None)
  | _ => (node, None)
  end.

(* ---------------- ParagraphFormatter ---------------- *)

Definition ParagraphFormatter_CanFormat (nodeType : parser.NodeType) : bool :=
  nodeType =? parser.NodeParagraph.

(** The loop of [wrapText]: [lines] and [currentLine] as the body leaves
    them after each word; the last word also closes the line. *)
Fixpoint wrapLoop (width : Z) (words : list gostring)
  (lines : list gostring) (currentLine : gostring) : list gostring :=
  match words with
  | [] => lines
  | word :: rest =>
      let '(lines, currentLine) :=
        if (len currentLine >? 0)
           && (len currentLine + 1 + len word >? width)
        then (lines ++ [currentLine], [])
        else (lines, currentLine) in
      let currentLine :=
        if len currentLine >? 0 then currentLine ++ " " else currentLine in
      let currentLine := currentLine ++ word in
      let lines :=
        match rest with
        | [] => lines ++ [currentLine]
        | _ => lines
        end in
      wrapLoop width rest lines currentLine
  end.

(** [ParagraphFormatter.wrapText] *)
Definition ParagraphFormatter_wrapText (text : gostring) (width : Z)
  : gostring :=
  if width <=? 0 then text
  else
    let words := strings.Fields text in
    match words with
    | [] => text
    | _ => strings.Join (wrapLoop width words [] []) [NL]
    end.

(** [normalizeWhitespace] *)
Definition normalizeWhitespace (text : gostring) : gostring :=
  let lines := strings.Split text NL in
  let lines := map (fun line => strings.Join (strings.Fields line) " ") lines in
  strings.Join lines [NL].

Definition ParagraphFormatter_Format (node : parser.Node) (cfg : config.Config)
  : parser.Node * option error :=
  match node with
  | parser.NParagraph paragraph =>
      let text := parser.Paragraph_Text paragraph in
      let text :=
        if config.LineWidth cfg >? 0
        then ParagraphFormatter_wrapText text (config.LineWidth cfg)
        else text in
      let text := strings.TrimSpace text in
      let text := normalizeWhitespace text in
      (parser.NParagraph {| parser.Paragraph_Text := text |}, None)
  | _ => (node, None)
  end.

(* ---------------- ListFormatter ---------------- *)

Definition ListFormatter_CanFormat (nodeType : parser.NodeType) : bool :=
  (nodeType =? parser.NodeList) || (nodeType =? parser.NodeListItem).

Definition setMarker (marker : gostring) (item : parser.ListItem)
  : parser.ListItem :=
  parser.mkListItem (parser.ListItem_Text item) marker
                    (parser.ListItem_Children item).

Definition setText (text : gostring) (item : parser.ListItem)
  : parser.ListItem :=
  parser.mkListItem text (parser.ListItem_Marker item)
                    (parser.ListItem_Children item).

(** [formatUnorderedList] *)
Definition formatUnorderedList (list : parser.List) (cfg : config.Config)
  : parser.List :=
  parser.mkList (parser.List_Ordered list)
    (map (setMarker (config.BulletStyle (config.List cfg)))
         (parser.List_Items list))
    (config.BulletStyle (config.List cfg)).

Fixpoint numberItems (cfg : config.Config) (i : Z)
  (items : list parser.ListItem) : list parser.ListItem :=
  match items with
  | [] => []
  | item :: rest =>
      let marker :=
        if streq (config.NumberStyle (config.List cfg)) "."
        then itoa (i + 1) ++ "."
        else if streq (config.NumberStyle (config.List cfg)) ")"
        then itoa (i + 1) ++ ")"
        else itoa (i + 1) ++ "." in
      setMarker marker item :: numberItems cfg (i + 1) rest
  end.

(** [formatOrderedList] *)
Definition formatOrderedList (list : parser.List) (cfg : config.Config)
  : parser.List :=
  parser.mkList (parser.List_Ordered list)
    (numberItems cfg 0 (parser.List_Items list))
    (parser.List_Marker list).

(** The functions below reach [ListFormatter.Format] again on the child
    lists; [again] stands for that call. *)
Section ListFormatterBody.
Variable again : parser.List -> config.Config -> parser.List * option error.

Fixpoint nestedLoop (cfg : config.Config) (children : list parser.Node)
  : list parser.Node * option error :=
  match children with
  | [] => ([], None)
  | child :: rest =>
      match child with
      | parser.NList childList =>
          match again childList cfg with
          | (childList', Some err) =>
              (parser.NList childList' :: rest, Some err)
          | (childList', None) =>
              let (rest', err) := nestedLoop cfg rest in
              (parser.NList childList' :: rest', err)
          end
      | _ =>
          let (rest', err) := nestedLoop cfg rest in
          (child :: rest', err)
      end
  end.

(** [processNestedLists] *)
Definition processNestedLists (item : parser.ListItem) (cfg : config.Config)
  : parser.ListItem * option error :=
  let (children, err) := nestedLoop cfg (parser.ListItem_Children item) in
  (parser.mkListItem (parser.ListItem_Text item)
                     (parser.ListItem_Marker item) children, err).

Fixpoint itemsLoop (cfg : config.Config) (items : list parser.ListItem)
  : list parser.ListItem * option error :=
  match items with
  | [] => ([], None)
  | item :: rest =>
      let item :=
        if config.ConsistentIndentation (config.List cfg)
        then setText (normalizeWhitespace
                        (strings.TrimSpace (parser.ListItem_Text item))) item
        else item in
      match processNestedLists item cfg with
      | (item', Some err) => (item' :: rest, Some err)
      | (item', None) =>
          let (rest', err) := itemsLoop cfg rest in
          (item' :: rest', err)
      end
  end.

(** [processListItems] *)
Definition processListItems (list : parser.List) (cfg : config.Config)
  : parser.List * option error :=
  let (items, err) := itemsLoop cfg (parser.List_Items list) in
  (parser.mkList (parser.List_Ordered list) items (parser.List_Marker list),
   err).

(** [formatList] *)
Definition formatList (list : parser.List) (cfg : config.Config)
  : parser.List * option error :=
  let list :=
    if negb (parser.List_Ordered list) then formatUnorderedList list cfg
    else formatOrderedList list cfg in
  processListItems list cfg.

(** [formatListItem] *)
Definition formatListItem (item : parser.ListItem) (cfg : config.Config)
  : parser.ListItem * option error :=
  let item :=
    setText (normalizeWhitespace
               (strings.TrimSpace (parser.ListItem_Text item))) item in
  processNestedLists item cfg.

End ListFormatterBody.

(** How deep lists nest below a node, following the children the list
    rule follows. *)
Fixpoint nestingNode (n : parser.Node) : nat :=
  match n with
  | parser.NList l => nestingList l
  | _ => 0%nat
  end
with nestingList (l : parser.List) : nat :=
  match l with
  | parser.mkList _ items _ =>
      S (fold_right (fun i acc => Nat.max (nestingItem i) acc) 0%nat items)
  end
with nestingItem (i : parser.ListItem) : nat :=
  match i with
  | parser.mkListItem _ _ children =>
      fold_right (fun c acc => Nat.max (nestingNode c) acc) 0%nat children
  end.

(** [formatList] with its recursion unrolled [depth] times. *)
Fixpoint formatListTo (depth : nat) (list : parser.List) (cfg : config.Config)
  : parser.List * option error :=
  match depth with
  | O => (list, None)
  | S d => formatList (formatListTo d) list cfg
  end.

(** [ListFormatter.Format] on a list: the recursion goes as deep as the
    lists nest. *)
Definition ListFormatter_formatList (list : parser.List) (cfg : config.Config)
  : parser.List * option error :=
  formatListTo (nestingList list) list cfg.

Definition ListFormatter_Format (node : parser.Node) (cfg : config.Config)
  : parser.Node * option error :=
  match node with
  | parser.NList n =>
      let (n', err) := ListFormatter_formatList n cfg in (parser.NList n', err)
  | parser.NListItem n =>
      let (n', err) := formatListItem ListFormatter_formatList n cfg in
      (parser.NListItem n', err)
  | _ => (node, None)
  end.

(* ---------------- CodeBlockFormatter ---------------- *)

Definition CodeBlockFormatter_CanFormat (nodeType : parser.NodeType) : bool :=
  nodeType =? parser.NodeCodeBlock.

Definition CodeBlockFormatter_Format (node : parser.Node) (cfg : config.Config)
  : parser.Node * option error :=
  match node with
  | parser.NCodeBlock code =>
      let fence :=
        if streq (config.FenceStyle (config.Code cfg)) "```" then "```"
        else if streq (config.FenceStyle (config.Code cfg)) "~~~" then "~~~"
        else parser.CodeBlock_Fence code in
      (parser.NCodeBlock
         {| parser.CodeBlock_Language := parser.CodeBlock_Language code;
            parser.CodeBlock_Content := parser.CodeBlock_Content code;
            parser.CodeBlock_Fenced := parser.CodeBlock_Fenced code;
            parser.CodeBlock_Fence := fence |}, None)
  | _ => (node, None)
  end.

(* ---------------- WhitespaceFormatter ---------------- *)

Definition WhitespaceFormatter_CanFormat (_ : parser.NodeType) : bool := true.

(** [trimTrailingSpaces] *)
Definition trimTrailingSpaces (text : gostring) : gostring :=
  let lines := strings.Split text NL in
  let lines := map (fun line => strings.TrimRight line (" " ++ [TAB])) lines in
  strings.Join lines [NL].

Definition WhitespaceFormatter_Format (node : parser.Node) (cfg : config.Config)
  : parser.Node * option error :=
  let trim := config.TrimTrailingSpaces (config.Whitespace cfg) in
  match node with
  | parser.NDocument n => (node, None)
  | parser.NParagraph n =>
      if trim then
        (parser.NParagraph
           {| parser.Paragraph_Text :=
                trimTrailingSpaces (parser.Paragraph_Text n) |}, None)
      else (node, None)
  | parser.NHeading n =>
      if trim then
        (parser.NHeading
           {| parser.Heading_Level := parser.Heading_Level n;
              parser.Heading_Text := strings.TrimSpace (parser.Heading_Text n);
              parser.Heading_Style := parser.Heading_Style n |}, None)
      else (node, None)
  | parser.NCodeBlock n =>
      if trim then
        (parser.NCodeBlock
           {| parser.CodeBlock_Language := parser.CodeBlock_Language n;
              parser.CodeBlock_Content :=
                trimTrailingSpaces (parser.CodeBlock_Content n);
              parser.CodeBlock_Fenced := parser.CodeBlock_Fenced n;
              parser.CodeBlock_Fence := parser.CodeBlock_Fence n |}, None)
      else (node, None)
  | parser.NText n =>
      if trim then
        (parser.NText
           {| parser.Text_Content :=
                trimTrailingSpaces (parser.Text_Content n) |}, None)
      else (node, None)
  | _ => (node, None)
  end.

(* ---------------- InlineFormatter ---------------- *)

Definition InlineFormatter_CanFormat (nodeType : parser.NodeType) : bool :=
  (nodeType =? parser.NodeText) || (nodeType =? parser.NodeParagraph).

(** [normalizeInlineCode] *)
Definition normalizeInlineCode (text : gostring) : gostring :=
  regexp.ReplaceAllString (regexp.MustCompile regexp.inlineCodePattern) text
    [regexp.Lit "`"; regexp.Group 1; regexp.Lit "`"].

(** [normalizeEmphasis] *)
Definition normalizeEmphasis (text : gostring) : gostring :=
  regexp.ReplaceAllString (regexp.MustCompile regexp.emphasisPattern) text
    [regexp.Lit "*"; regexp.Group 1; regexp.Lit "*"].

(** [normalizeLinks] *)
Definition normalizeLinks (text : gostring) : gostring :=
  regexp.ReplaceAllString (regexp.MustCompile regexp.linkSpacePattern) text
    [regexp.Lit "["; regexp.Group 1; regexp.Lit "]"].

(** [normalizeInlineElements] *)
Definition normalizeInlineElements (text : gostring) : gostring :=
  normalizeLinks (normalizeEmphasis (normalizeInlineCode text)).

Definition InlineFormatter_Format (node : parser.Node) (_ : config.Config)
  : parser.Node * option error :=
  match node with
  | parser.NText n =>
      (parser.NText
         {| parser.Text_Content :=
              normalizeInlineElements (parser.Text_Content n) |}, None)
  | parser.NParagraph n =>
      (parser.NParagraph
         {| parser.Paragraph_Text :=
              normalizeInlineElements (parser.Paragraph_Text n) |}, None)
  | _ => (node, None)
  end.

(* ---------------- the six rules as [NodeFormatter]s ---------------- *)

Definition HeadingFormatter (b : BaseFormatter) : NodeFormatter :=
  {| Name := name b; Priority := priority b;
     CanFormat := HeadingFormatter_CanFormat;
     Format := HeadingFormatter_Format |}.

Definition ParagraphFormatter (b : BaseFormatter) : NodeFormatter :=
  {| Name := name b; Priority := priority b;
     CanFormat := ParagraphFormatter_CanFormat;
     Format := ParagraphFormatter_Format |}.

Definition ListFormatter (b : BaseFormatter) : NodeFormatter :=
  {| Name := name b; Priority := priority b;
     CanFormat := ListFormatter_CanFormat;
     Format := ListFormatter_Format |}.

Definition CodeBlockFormatter (b : BaseFormatter) : NodeFormatter :=
  {| Name := name b; Priority := priority b;
     CanFormat := CodeBlockFormatter_CanFormat;
     Format := CodeBlockFormatter_Format |}.

Definition WhitespaceFormatter (b : BaseFormatter) : NodeFormatter :=
  {| Name := name b; Priority := priority b;
     CanFormat := WhitespaceFormatter_CanFormat;
     Format := WhitespaceFormatter_Format |}.

Definition InlineFormatter (b : BaseFormatter) : NodeFormatter :=
  {| Name := name b; Priority := priority b;
     CanFormat := InlineFormatter_CanFormat;
     Format := InlineFormatter_Format |}.

(** [NewHeadingFormatter] *)
Definition NewHeadingFormatter : NodeFormatter :=
  HeadingFormatter {| name := "heading"; priority := HeadingFormatterPriority |}.

(** [NewInlineFormatter] *)
Definition NewInlineFormatter : NodeFormatter :=
  InlineFormatter {| name := "inline"; priority := InlineFormatterPriority |}.

(* ---------------- Engine ---------------- *)

(** The loop of [Register] on the reversed slice: the new formatter moves
    towards the front while its priority is strictly higher. *)
Fixpoint bubble (formatter : NodeFormatter) (before : list NodeFormatter)
  : list NodeFormatter :=
  match before with
  | [] => [formatter]
  | g :: rest =>
      if Priority formatter >? Priority g then g :: bubble formatter rest
      else formatter :: g :: rest
  end.

(** [Engine.Register] *)
Definition Register (e : Engine) (formatter : NodeFormatter) : Engine :=
  {| formatters := rev (bubble formatter (rev (formatters e))) |}.

(** [Engine.RegisterDefaults] *)
Definition RegisterDefaults (e : Engine) : Engine :=
  let e := Register e (HeadingFormatter zeroBase) in
  let e := Register e (ParagraphFormatter zeroBase) in
  let e := Register e (ListFormatter zeroBase) in
  let e := Register e (CodeBlockFormatter zeroBase) in
  let e := Register e (InlineFormatter zeroBase) in
  Register e (WhitespaceFormatter zeroBase).

(** [formatter.New] *)
Definition New : Engine := RegisterDefaults {| formatters := [] |}.

(** One application of a rule: the walker position of the node and the
    position of the rule in [e.formatters]. *)
Definition Event : Set := (nat * nat)%type.

(** The inner loop of [Engine.Format]: the first formatter that can
    format the node formats it, then [break]. *)
Fixpoint applyFirst (fs : list NodeFormatter) (k : nat) (node : parser.Node)
  (cfg : config.Config) : option (nat * (parser.Node * option error)) :=
  match fs with
  | [] => None
  | formatter :: rest =>
      if CanFormat formatter (parser.Type_ node)
      then Some (k, Format formatter node cfg)
      else applyFirst rest (S k) node cfg
  end.

(** What a pass leaves: the walker's nodes, the error, and the rule
    applications it made, in order. *)
Record Pass : Type := {
  visited : list parser.Node;
  failure : option error;
  applied : list Event
}.

(** The outer loop of [Engine.Format] over the nodes the walker has yet
    to return; [i] is the walker position of the first of them. *)
Fixpoint formatNodes (fs : list NodeFormatter) (cfg : config.Config)
  (todo : list parser.Node) (i : nat) : Pass :=
  match todo with
  | [] => {| visited := []; failure := None; applied := [] |}
  | node :: rest =>
      match applyFirst fs 0 node cfg with
      | Some (k, (node', Some err)) =>
          {| visited := node' :: rest; failure := Some err;
             applied := [(i, k)] |}
      | Some (k, (node', None)) =>
          let p := formatNodes fs cfg rest (S i) in
          {| visited := node' :: visited p; failure := failure p;
             applied := (i, k) :: applied p |}
      | None =>
          let p := formatNodes fs cfg rest (S i) in
          {| visited := node :: visited p; failure := failure p;
             applied := applied p |}
      end
  end.

(** The pass of [Engine.Format]. *)
Definition Engine_pass (e : Engine) (doc : parser.Document)
  (cfg : config.Config) : Pass :=
  formatNodes (formatters e) cfg (parser.remaining (parser.NewWalker doc)) 0.

(** [Engine.Format]: the document as the pass leaves it, and the error.
    [parser.Document] has no field but [Children], whose elements the
    walker holds: the document after the pass is made of them. *)
Definition Engine_Format (e : Engine) (doc : parser.Document)
  (cfg : config.Config) : parser.Document * option error :=
  let p := Engine_pass e doc cfg in
  (parser.mkDocument (tl (visited p)), failure p).

End formatter.

(* ================================================================== *)
(** ** Package [renderer] *)
Module renderer.

Definition SecondHeadingLevel : Z := 2.

(** [MarkdownRenderer]: the output builder and the configuration pointer
    ([nil] until [Render] sets it). *)
Record MarkdownRenderer : Set := {
  output : gostring;
  config_ : option config.Config
}.

(** [renderer.New] *)
Definition New : MarkdownRenderer := {| output := ""; config_ := None |}.

(** A method of the renderer: it runs on the receiver and either returns
    a value and the receiver as it leaves it, or panics. *)
Definition M (A : Type) : Type :=
  MarkdownRenderer -> outcome (A * MarkdownRenderer).

Definition ret {A : Type} (a : A) : M A := fun r => Returned (a, r).

Definition bind {A B : Type} (m : M A) (k : A -> M B) : M B :=
  fun r =>
    match m r with
    | Returned (a, r') => k a r'
    | Panicked msg => Panicked msg
    end.

Notation "x <- m ;; k" := (bind m (fun x => k))
  (at level 61, m at next level, right associativity).
Notation "m ;; k" := (bind m (fun _ => k))
  (at level 61, right associativity).

(** [r.output.WriteString(s)] *)
Definition WriteString (s : gostring) : M unit :=
  fun r => Returned (tt, {| output := output r ++ s; config_ := config_ r |}).

(** [r.config], dereferenced. *)
Definition getConfig : M config.Config :=
  fun r =>
    match config_ r with
    | Some cfg => Returned (cfg, r)
    | None => Panicked "invalid memory address or nil pointer dereference"
    end.

(** A call into a library that may panic. *)
Definition call {A : Type} (o : outcome A) : M A :=
  fun r =>
    match o with
    | Returned a => Returned (a, r)
    | Panicked msg => Panicked msg
    end.

(** [for _, x := range l { if err := body(x); err != nil { return err } }] *)
Definition forRange {A : Type} (body : A -> M (option error))
  : list A -> M (option error) :=
  fix loop (l : list A) : M (option error) :=
    match l with
    | [] => ret None
    | x :: rest =>
        err <- body x ;;
        match err with
        | Some e => ret (Some e)
        | None => loop rest
        end
    end.

(** [for _, x := range l { body(x) }] *)
Definition forEach {A : Type} (body : A -> M unit) : list A -> M unit :=
  fix loop (l : list A) : M unit :=
    match l with
    | [] => ret tt
    | x :: rest => body x ;; loop rest
    end.

(** [renderHeading] *)
Definition renderHeading (heading : parser.Heading) (_ : Z)
  : M (option error) :=
  if streq (parser.Heading_Style heading) "setext"
     && (parser.Heading_Level heading <=? SecondHeadingLevel)
  then
    WriteString (parser.Heading_Text heading) ;;
    WriteString [NL] ;;
    let marker := if parser.Heading_Level heading =? SecondHeadingLevel
                  then "-" else "=" in
    let textLength := len (strings.TrimSpace (parser.Heading_Text heading)) in
    let textLength := if textLength =? 0 then 3 else textLength in
    underline <- call (strings.Repeat marker textLength) ;;
    WriteString underline ;;
    WriteString [NL; NL] ;;
    ret None
  else
    hashes <- call (strings.Repeat "#" (parser.Heading_Level heading)) ;;
    WriteString hashes ;;
    WriteString " " ;;
    WriteString (parser.Heading_Text heading) ;;
    WriteString [NL; NL] ;;
    ret None.

(** [containsMarkdownLinks] *)
Definition containsMarkdownLinks (text : gostring) : bool :=
  regexp.MatchString regexp.linkPattern text.

Definition brokenLinkPartsCount : nat := 4.
Definition multiBreakPartsCount : nat := 3.

(** [fixBrokenLinks] *)
Definition fixBrokenLinks (text : gostring) : gostring :=
  let re := regexp.MustCompile regexp.brokenLinkPattern in
  let fixed :=
    regexp.ReplaceAllStringFunc re text (fun match_ =>
      let parts := regexp.FindStringSubmatch re match_ in
      if (length parts =? brokenLinkPartsCount)%nat then
        let linkText := nth 1 parts [] ++ " " ++ nth 2 parts [] in
        let url := nth 3 parts [] in
        "[" ++ linkText ++ "](" ++ url ++ ")"
      else match_) in
  let re2 := regexp.MustCompile regexp.multiBreakPattern in
  regexp.ReplaceAllStringFunc re2 fixed (fun match_ =>
    let parts := regexp.FindStringSubmatch re2 match_ in
    if (length parts =? multiBreakPartsCount)%nat then
      let linkText := strings.ReplaceAll (nth 1 parts []) NL " " in
      let url := nth 2 parts [] in
      "[" ++ linkText ++ "](" ++ url ++ ")"
    else match_).

(** [text[lo:hi]] *)
Definition slice (text : gostring) (lo hi : Z) : gostring :=
  firstn (Z.to_nat (hi - lo)) (skipn (Z.to_nat lo) text).

(** The loop of [tokenizeWithLinks] over the matches. *)
Fixpoint tokenizeLoop (text : gostring) (matches : list (Z * Z))
  (tokens : list gostring) (lastEnd : Z) : list gostring * Z :=
  match matches with
  | [] => (tokens, lastEnd)
  | (start, end_) :: rest =>
      let tokens :=
        if start >? lastEnd
        then tokens ++ strings.Fields (slice text lastEnd start)
        else tokens in
      let tokens := tokens ++ [slice text start end_] in
      tokenizeLoop text rest tokens end_
  end.

(** [tokenizeWithLinks] *)
Definition tokenizeWithLinks (text : gostring) : list gostring :=
  let re := regexp.MustCompile regexp.linkPattern in
  let matches := regexp.FindAllStringIndex re text in
  let '(tokens, lastEnd) := tokenizeLoop text matches [] 0 in
  let tokens :=
    if lastEnd <? len text
    then tokens ++ strings.Fields (slice text lastEnd (len text))
    else tokens in
  match matches with
  | [] => strings.Fields text
  | _ => tokens
  end.

(** The loop of [wrapText]: [lines] and [currentLine] as the body leaves
    them after each token; the last token also closes the line. *)
Fixpoint wrapLoop (width : Z) (tokens : list gostring)
  (lines : list gostring) (currentLine : gostring) : list gostring :=
  match tokens with
  | [] => lines
  | token :: rest =>
      let '(lines, currentLine) :=
        if (len currentLine >? 0)
           && (len currentLine + 1 + len token >? width)
        then (lines ++ [currentLine], [])
        else (lines, currentLine) in
      let currentLine :=
        if len currentLine >? 0 then currentLine ++ " " else currentLine in
      let currentLine := currentLine ++ token in
      let lines :=
        match rest with
        | [] => lines ++ [currentLine]
        | _ => lines
        end in
      wrapLoop width rest lines currentLine
  end.

(** [wrapText] *)
Definition wrapText (text : gostring) (width : Z) : gostring :=
  if width <=? 0 then text
  else
    let tokens := tokenizeWithLinks text in
    match tokens with
    | [] => text
    | _ => strings.Join (wrapLoop width tokens [] []) [NL]
    end.

(** [renderParagraph] *)
Definition renderParagraph (para : parser.Paragraph) (_ : Z)
  : M (option error) :=
  let content := parser.Paragraph_Text para in
  let content := fixBrokenLinks content in
  cfg <- getConfig ;;
  let content :=
    if (config.LineWidth cfg >? 0) && negb (containsMarkdownLinks content)
    then wrapText content (config.LineWidth cfg)
    else content in
  WriteString content ;;
  WriteString [NL; NL] ;;
  ret None.

(** [renderCodeBlock] *)
Definition renderCodeBlock (code : parser.CodeBlock) (_ : Z)
  : M (option error) :=
  if parser.CodeBlock_Fenced code then
    WriteString (parser.CodeBlock_Fence code) ;;
    (if negb (streq (parser.CodeBlock_Language code) "")
     then WriteString (parser.CodeBlock_Language code)
     else ret tt) ;;
    WriteString [NL] ;;
    WriteString (parser.CodeBlock_Content code) ;;
    (if negb (strings.HasSuffix (parser.CodeBlock_Content code) [NL])
     then WriteString [NL]
     else ret tt) ;;
    WriteString (parser.CodeBlock_Fence code) ;;
    WriteString [NL; NL] ;;
    ret None
  else
    let lines := strings.Split (parser.CodeBlock_Content code) NL in
    forEach (fun line =>
               WriteString "    " ;;
               WriteString line ;;
               WriteString [NL]) lines ;;
    WriteString [NL] ;;
    ret None.

(** [renderText] *)
Definition renderText (text : parser.Text) (_ : Z) : M (option error) :=
  let content := parser.Text_Content text in
  cfg <- getConfig ;;
  let content :=
    if config.TrimTrailingSpaces (config.Whitespace cfg) then
      let lines := strings.Split content NL in
      let lines :=
        map (fun line => strings.TrimRight line (" " ++ [TAB])) lines in
      strings.Join lines [NL]
    else content in
  WriteString content ;;
  ret None.

(** [renderNode], [renderList] and [renderListItem] *)
Fixpoint renderNode (node : parser.Node) (depth : Z) {struct node}
  : M (option error) :=
  match node with
  | parser.NHeading n => renderHeading n depth
  | parser.NParagraph n => renderParagraph n depth
  | parser.NList n => renderList n depth
  | parser.NListItem n => renderListItem n depth
  | parser.NCodeBlock n => renderCodeBlock n depth
  | parser.NText n => renderText n depth
  | _ => ret None
  end
with renderList (list : parser.List) (depth : Z) {struct list}
  : M (option error) :=
  match list with
  | parser.mkList _ items _ =>
      err <- forRange (fun item => renderListItem item (depth + 1)) items ;;
      match err with
      | Some e => ret (Some e)
      | None => WriteString [NL] ;; ret None
      end
  end
with renderListItem (item : parser.ListItem) (depth : Z) {struct item}
  : M (option error) :=
  match item with
  | parser.mkListItem text marker children =>
      indent <- (if depth >? 1 then call (strings.Repeat "  " (depth - 1))
                 else ret "") ;;
      marker <- (if streq marker ""
                 then cfg <- getConfig ;;
                      ret (config.BulletStyle (config.List cfg))
                 else ret marker) ;;
      WriteString indent ;;
      WriteString marker ;;
      WriteString " " ;;
      WriteString text ;;
      if (Z.of_nat (length children) >? 0) then
        WriteString [NL] ;;
        forRange (fun child => renderNode child depth) children
      else
        WriteString [NL] ;;
        ret None
  end.

(** [renderDocument] *)
Definition renderDocument (doc : parser.Document) (depth : Z)
  : M (option error) :=
  forRange (fun child => renderNode child depth) (parser.Document_Children doc).

(** [normalizeBlankLines]: the loop, then the function. *)
Fixpoint blankLoop (maxBlankLines : Z) (lines : list gostring)
  (result : list gostring) (consecutiveEmpty : Z) : list gostring :=
  match lines with
  | [] => result
  | line :: rest =>
      let isEmpty := streq (strings.TrimSpace line) "" in
      if isEmpty then
        let consecutiveEmpty := consecutiveEmpty + 1 in
        let result :=
          if consecutiveEmpty <=? maxBlankLines then result ++ [line]
          else result in
        blankLoop maxBlankLines rest result consecutiveEmpty
      else
        blankLoop maxBlankLines rest (result ++ [line]) 0
  end.

Definition normalizeBlankLines (text : gostring) (maxBlankLines : Z)
  : gostring :=
  if maxBlankLines <? 0 then text
  else
    let lines := strings.Split text NL in
    strings.Join (blankLoop maxBlankLines lines [] 0) [NL].

(** [Render]: the pair it returns, and the receiver as it leaves it. *)
Definition Render (doc : parser.Document) (cfg : config.Config)
  : M (gostring * option error) :=
  fun r =>
    let r := {| output := ""; config_ := Some cfg |} in
    (err <- renderDocument doc 0 ;;
     match err with
     | Some e => ret ("", Some e)
     | None =>
         fun r =>
           let result := output r in
           let result :=
             normalizeBlankLines result
               (config.MaxBlankLines (config.Whitespace cfg)) in
           let result :=
             if config.EnsureFinalNewline (config.Whitespace cfg)
                && negb (strings.HasSuffix result [NL])
             then result ++ [NL] else result in
           Returned ((result, None), r)
     end) r.

End renderer.

(* ================================================================== *)
(** ** The command: [formatMarkdownContent] *)

(** The [parser.Parser] interface; the default implementation wraps an
    external Markdown parser. *)
Record Parser : Type := {
  Parse : gostring -> parser.Document * option error
}.

(** The body of [formatMarkdownContent] for the parser [p] that
    [parser.DefaultParser()] answers and the engine it builds. *)
Definition formatMarkdownContentWith (p : Parser) (engine : formatter.Engine)
  (content : gostring) (cfg : config.Config)
  : outcome (gostring * option error) :=
  match Parse p content with
  | (_, Some err) => Returned ("", Some ("failed to parse markdown: " ++ err))
  | (doc, None) =>
      match formatter.Engine_Format engine doc cfg with
      | (_, Some formatErr) =>
          Returned ("", Some ("failed to format document: " ++ formatErr))
      | (doc, None) =>
          let mdRenderer := renderer.New in
          match renderer.Render doc cfg mdRenderer with
          | Panicked msg => Panicked msg
          | Returned ((_, Some err), _) =>
              Returned ("", Some ("failed to render document: " ++ err))
          | Returned ((formatted, None), _) => Returned (formatted, None)
          end
      end
  end.

(** [formatMarkdownContent]: the engine is [formatter.New()] with the
    defaults registered once more. *)
Definition formatMarkdownContent (p : Parser) (content : gostring)
  (cfg : config.Config) : outcome (gostring * option error) :=
  formatMarkdownContentWith p (formatter.RegisterDefaults formatter.New)
    content cfg.

(** [hasContentChanged] *)
Definition hasContentChanged (original formatted : gostring) : bool :=
  let originalContent := strings.TrimSpace original in
  let formattedContent := strings.TrimSpace formatted in
  negb (streq originalContent formattedContent).

(** The command-line flags, as [flag.Parse] leaves them. *)
Record Flags : Set := {
  flagWrite : bool;
  flagCheck : bool;
  flagList : bool;
  flagDiff : bool;
  flagWriteLong : bool;
  flagCheckLong : bool;
  flagListLong : bool;
  flagDiffLong : bool;
  flagVerbose : bool;
  flagQuiet : bool;
  flagVerboseLong : bool;
  flagQuietLong : bool
}.

(** [validateFlags] *)
Definition validateFlags (f : Flags) : option error :=
  let operationCount := 0 in
  let operationCount :=
    if flagWrite f || flagWriteLong f then operationCount + 1
    else operationCount in
  let operationCount :=
    if flagCheck f || flagCheckLong f then operationCount + 1
    else operationCount in
  let operationCount :=
    if flagList f || flagListLong f then operationCount + 1
    else operationCount in
  let operationCount :=
    if flagDiff f || flagDiffLong f then operationCount + 1
    else operationCount in
  if operationCount >? 1 then
    Some "only one of -w/--write, -c/--check, -l/--list, -d/--diff can be specified"
  else if (flagVerbose f || flagVerboseLong f)
          && (flagQuiet f || flagQuietLong f) then
    Some "-v/--verbose and -q/--quiet cannot be used together"
  else None.

(** [ProcessingArgs] *)
Record ProcessingArgs : Set := {
  write : bool;
  check : bool;
  list_ : bool;
  diff : bool;
  verbose : bool;
  quiet : bool
}.

(** [createProcessingArgs] *)
Definition createProcessingArgs (f : Flags) : ProcessingArgs :=
  let verbose := flagVerbose f || flagVerboseLong f in
  let quiet := flagQuiet f || flagQuietLong f in
  {| write := flagWrite f || flagWriteLong f;
     check := flagCheck f || flagCheckLong f;
     list_ := flagList f || flagListLong f;
     diff := flagDiff f || flagDiffLong f;
     verbose := verbose;
     quiet := quiet |}.

(** What the command does to the outside: it calls [os.WriteFile] or it
    prints. *)
Inductive Effect : Set :=
| WriteFileCall (path content : gostring)
| Printed (text : gostring).

(** The file system the command runs on: what [os.ReadFile] answers and
    what [os.WriteFile] answers. *)
Record FileSystem : Type := {
  ReadFile : gostring -> gostring * option error;
  WriteFile : gostring -> gostring -> option error
}.

(** [handleWriteMode] *)
Definition handleWriteMode (os : FileSystem) (filePath formatted : gostring)
  (changed : bool) (args : ProcessingArgs) : list Effect * option error :=
  if changed then
    match WriteFile os filePath formatted with
    | Some err =>
        ([WriteFileCall filePath formatted],
         Some ("failed to write file: " ++ err))
    | None =>
        if verbose args && negb (quiet args)
        then ([WriteFileCall filePath formatted;
               Printed ("Formatted: " ++ filePath ++ [NL])], None)
        else ([WriteFileCall filePath formatted], None)
    end
  else if verbose args && negb (quiet args)
  then ([Printed ("Already formatted: " ++ filePath ++ [NL])], None)
  else ([], None).

(** [handleCheckMode] *)
Definition handleCheckMode (filePath : gostring) (changed : bool)
  (args : ProcessingArgs) : list Effect * option error :=
  if changed && verbose args && negb (quiet args)
  then ([Printed ("would reformat " ++ filePath ++ [NL])], None)
  else ([], None).

(** [handleListMode] *)
Definition handleListMode (filePath : gostring) (changed : bool)
  : list Effect * option error :=
  if changed then ([Printed (filePath ++ [NL])], None) else ([], None).

(** [handleDiffMode] *)
Definition handleDiffMode (filePath : gostring) (changed : bool)
  : list Effect * option error :=
  if changed then
    ([Printed ("--- " ++ filePath ++ [NL] ++ "+++ " ++ filePath ++ [NL]);
      Printed ("File would be reformatted" ++ [NL])], None)
  else ([], None).

(** [handleStdoutMode] *)
Definition handleStdoutMode (formatted : gostring) : list Effect * option error :=
  ([Printed formatted], None).

(** [handleFileOutput] *)
Definition handleFileOutput (os : FileSystem) (filePath formatted : gostring)
  (changed : bool) (args : ProcessingArgs) : list Effect * option error :=
  if write args then handleWriteMode os filePath formatted changed args
  else if check args then handleCheckMode filePath changed args
  else if list_ args then handleListMode filePath changed
  else if diff args then handleDiffMode filePath changed
  else handleStdoutMode formatted.

(** [processFile] on the file at [path]: what it returns, and what it did
    on the way. *)
Definition processFile (os : FileSystem) (p : Parser) (path : gostring)
  (cfg : config.Config) (args : ProcessingArgs)
  : outcome ((bool * option error) * list Effect) :=
  match ReadFile os path with
  | (_, Some err) =>
      Returned ((false, Some ("failed to read file: " ++ err)), [])
  | (content, None) =>
      match formatMarkdownContent p content cfg with
      | Panicked msg => Panicked msg
      | Returned (_, Some err) => Returned ((false, Some err), [])
      | Returned (formatted, None) =>
          let changed := hasContentChanged content formatted in
          let said :=
            if verbose args && negb (quiet args) && changed
            then [Printed ("File " ++ path ++ " will be reformatted" ++ [NL])]
            else [] in
          match handleFileOutput os path formatted changed args with
          | (done, Some err) => Returned ((false, Some err), said ++ done)
          | (done, None) => Returned ((changed, None), said ++ done)
          end
      end
  end.

(* ================================================================== *)
(** * Vocabulary of the properties

    What the statements below speak of: measures on texts and trees,
    the sample inputs of the witnesses and counterexamples, and the
    induction scheme of the tree. *)

(** ** Sample headings *)

Definition heading_Hi : parser.Heading :=
  {| parser.Heading_Level := 1;
     parser.Heading_Text := "Hi";
     parser.Heading_Style := "setext" |}.

Definition heading_level9 : parser.Heading :=
  {| parser.Heading_Level := 9;
     parser.Heading_Text := " Deep ";
     parser.Heading_Style := "atx" |}.

(** What a call returns, without the receiver. *)
Definition returned {A : Type} (o : outcome (A * renderer.MarkdownRenderer))
  : outcome A :=
  match o with
  | Returned (a, _) => Returned a
  | Panicked msg => Panicked msg
  end.

(** ** Blank lines *)

(** A line is blank when trimming leaves nothing, the test of
    [normalizeBlankLines]. *)
Definition isBlank (line : gostring) : bool :=
  streq (strings.TrimSpace line) "".

(** The number of blank lines a sequence of lines starts with. *)
Fixpoint blankPrefix (lines : list gostring) : Z :=
  match lines with
  | line :: rest => if isBlank line then 1 + blankPrefix rest else 0
  | [] => 0
  end.

(** The length of the longest run of consecutive blank lines. *)
Fixpoint longestBlankRun (lines : list gostring) : Z :=
  match lines with
  | [] => 0
  | _ :: rest => Z.max (blankPrefix lines) (longestBlankRun rest)
  end.

(** The lines of a text: what a newline separates; a text without a
    byte has no line. *)
Definition textLines (text : gostring) : list gostring :=
  match text with
  | [] => []
  | _ => strings.Split text NL
  end.

(** What [blankLoop] appends to [result]. *)
Fixpoint collapse (maxBlankLines : Z) (lines : list gostring)
  (consecutiveEmpty : Z) : list gostring :=
  match lines with
  | [] => []
  | line :: rest =>
      if isBlank line then
        if consecutiveEmpty + 1 <=? maxBlankLines
        then line :: collapse maxBlankLines rest (consecutiveEmpty + 1)
        else collapse maxBlankLines rest (consecutiveEmpty + 1)
      else line :: collapse maxBlankLines rest 0
  end.

Definition buffer_with_runs : gostring :=
  "a" ++ [NL; NL; NL; NL] ++ "b" ++ [NL; NL].

(** ** Words and widths *)

(** A word has a byte, and none of its bytes is an ASCII blank. *)
Definition isWord (t : gostring) : Prop :=
  t <> [] /\ Forall (fun c => strings.asciiSpace c = false) t.

(** A line respects the width when it is no longer than the width, or is
    one of the tokens, alone, and that token is longer than the width. *)
Definition lineWithin (W : Z) (tokens : list gostring) (line : gostring) : Prop :=
  len line <= W \/ (In line tokens /\ W < len line).

Definition withLineWidth (W : Z) (cfg : config.Config) : config.Config :=
  {| config.LineWidth := W;
     config.Heading := config.Heading cfg;
     config.List := config.List cfg;
     config.Code := config.Code cfg;
     config.Whitespace := config.Whitespace cfg;
     config.Files := config.Files cfg |}.

Definition rendererWith (cfg : config.Config) : renderer.MarkdownRenderer :=
  {| renderer.output := ""; renderer.config_ := Some cfg |}.

Definition paragraph_words : parser.Paragraph :=
  {| parser.Paragraph_Text := "aaa bb cccccccccc d e f" |}.

Definition paragraph_blank : parser.Paragraph :=
  {| parser.Paragraph_Text := "    " |}.

(** ** Induction on trees *)

Section TreeInduction.
Variable PN : parser.Node -> Prop.
Variable PD : parser.Document -> Prop.
Variable PL : parser.List -> Prop.
Variable PI : parser.ListItem -> Prop.
Hypothesis HDocument : forall d, PD d -> PN (parser.NDocument d).
Hypothesis HHeading : forall h, PN (parser.NHeading h).
Hypothesis HParagraph : forall p, PN (parser.NParagraph p).
Hypothesis HList : forall l, PL l -> PN (parser.NList l).
Hypothesis HListItem : forall i, PI i -> PN (parser.NListItem i).
Hypothesis HCodeBlock : forall c, PN (parser.NCodeBlock c).
Hypothesis HText : forall t, PN (parser.NText t).
Hypothesis HForeign : forall ty, PN (parser.NForeign ty).
Hypothesis HmkDocument :
  forall children, Forall PN children -> PD (parser.mkDocument children).
Hypothesis HmkList :
  forall ordered items marker,
    Forall PI items -> PL (parser.mkList ordered items marker).
Hypothesis HmkListItem :
  forall text marker children,
    Forall PN children -> PI (parser.mkListItem text marker children).

Fixpoint Node_tree_ind (n : parser.Node) : PN n :=
  match n with
  | parser.NDocument d => HDocument d (Document_tree_ind d)
  | parser.NHeading h => HHeading h
  | parser.NParagraph p => HParagraph p
  | parser.NList l => HList l (List_tree_ind l)
  | parser.NListItem i => HListItem i (ListItem_tree_ind i)
  | parser.NCodeBlock c => HCodeBlock c
  | parser.NText t => HText t
  | parser.NForeign ty => HForeign ty
  end
with Document_tree_ind (d : parser.Document) : PD d :=
  match d with
  | parser.mkDocument children =>
      HmkDocument children
        ((fix all (l : list parser.Node) : Forall PN l :=
            match l with
            | [] => Forall_nil PN
            | x :: rest => Forall_cons x (Node_tree_ind x) (all rest)
            end) children)
  end
with List_tree_ind (l : parser.List) : PL l :=
  match l with
  | parser.mkList ordered items marker =>
      HmkList ordered items marker
        ((fix all (l : list parser.ListItem) : Forall PI l :=
            match l with
            | [] => Forall_nil PI
            | x :: rest => Forall_cons x (ListItem_tree_ind x) (all rest)
            end) items)
  end
with ListItem_tree_ind (i : parser.ListItem) : PI i :=
  match i with
  | parser.mkListItem text marker children =>
      HmkListItem text marker children
        ((fix all (l : list parser.Node) : Forall PN l :=
            match l with
            | [] => Forall_nil PN
            | x :: rest => Forall_cons x (Node_tree_ind x) (all rest)
            end) children)
  end.

End TreeInduction.

(** ** What the renderer can write *)

(** A heading is written without a panic when it takes the setext branch
    or has a level that is not negative. *)
Definition headingWritable (h : parser.Heading) : bool :=
  streq (parser.Heading_Style h) "setext"
  && (parser.Heading_Level h <=? renderer.SecondHeadingLevel)
  || (0 <=? parser.Heading_Level h).

Fixpoint nodeWritable (n : parser.Node) : bool :=
  match n with
  | parser.NHeading h => headingWritable h
  | parser.NList l => listWritable l
  | parser.NListItem i => itemWritable i
  | _ => true
  end
with listWritable (l : parser.List) : bool :=
  match l with
  | parser.mkList _ items _ => forallb itemWritable items
  end
with itemWritable (i : parser.ListItem) : bool :=
  match i with
  | parser.mkListItem _ _ children => forallb nodeWritable children
  end.

Definition documentWritable (d : parser.Document) : bool :=
  forallb nodeWritable (parser.Document_Children d).

(** The method never returns an error. *)
Definition noErr (m : renderer.M (option error)) : Prop :=
  forall r, match m r with
            | Returned (Some _, _) => False
            | _ => True
            end.

(** On a receiver with a configuration the method returns, and leaves
    the configuration in place. *)
Definition runs {A : Type} (m : renderer.M A) : Prop :=
  forall r cfg,
    renderer.config_ r = Some cfg ->
    exists a r', m r = Returned (a, r') /\ renderer.config_ r' = Some cfg.

(** The same, and what it returns is [nil]. *)
Definition succeeds (m : renderer.M (option error)) : Prop :=
  forall r cfg,
    renderer.config_ r = Some cfg ->
    exists r', m r = Returned (None, r') /\ renderer.config_ r' = Some cfg.

Definition heading_negative : parser.Heading :=
  {| parser.Heading_Level := -1;
     parser.Heading_Text := "Title";
     parser.Heading_Style := "atx" |}.

Definition document_negative : parser.Document :=
  parser.mkDocument [parser.NHeading heading_negative].

Definition document_sample : parser.Document :=
  parser.mkDocument
    [parser.NHeading heading_level9;
     parser.NParagraph {| parser.Paragraph_Text := "foo   bar" |};
     parser.NList
       (parser.mkList true
          [parser.mkListItem " a  b" "*"
             [parser.NList (parser.mkList false [parser.mkListItem "x" "+" []] "+");
              parser.NHeading heading_level9];
           parser.mkListItem "c" "+" []] "*");
     parser.NText {| parser.Text_Content := "txt  " |}].

(** ** Positions of the rules *)

(** Positions in the rule list of [formatter.New]. *)
Definition headingRule : nat := 0.
Definition paragraphRule : nat := 1.
Definition listRule : nat := 2.
Definition codeBlockRule : nat := 3.
Definition inlineRule : nat := 4.
Definition whitespaceRule : nat := 5.

(** The rule of [formatter.New] that claims a node type first. *)
Definition ruleFor (ty : parser.NodeType) : nat :=
  if ty =? parser.NodeHeading then headingRule
  else if ty =? parser.NodeParagraph then paragraphRule
  else if (ty =? parser.NodeList) || (ty =? parser.NodeListItem) then listRule
  else if ty =? parser.NodeCodeBlock then codeBlockRule
  else if ty =? parser.NodeText then inlineRule
  else whitespaceRule.

(** What that rule makes of the node. *)
Definition formatByRule (cfg : config.Config) (node : parser.Node)
  : parser.Node :=
  fst (formatter.Format
         (nth (ruleFor (parser.Type_ node))
              (formatter.formatters formatter.New)
              (formatter.WhitespaceFormatter formatter.zeroBase))
         node cfg).

(** ** Size of a tree *)

(** The number of nodes of a tree. *)
Fixpoint countNode (n : parser.Node) : nat :=
  match n with
  | parser.NDocument d => countDocument d
  | parser.NList l => countList l
  | parser.NListItem i => countItem i
  | _ => 1%nat
  end
with countDocument (d : parser.Document) : nat :=
  match d with
  | parser.mkDocument children =>
      S (fold_right (fun c acc => countNode c + acc)%nat 0%nat children)
  end
with countList (l : parser.List) : nat :=
  match l with
  | parser.mkList _ items _ =>
      S (fold_right (fun i acc => countItem i + acc)%nat 0%nat items)
  end
with countItem (i : parser.ListItem) : nat :=
  match i with
  | parser.mkListItem _ _ children =>
      S (fold_right (fun c acc => countNode c + acc)%nat 0%nat children)
  end.

(** ** Trailing blanks *)

(** The line ends in a space or a tab. *)
Definition endsBlank (line : gostring) : bool :=
  match rev line with
  | c :: _ => Ascii.eqb c SP || Ascii.eqb c TAB
  | [] => false
  end.

Definition document_blanks : parser.Document :=
  parser.mkDocument
    [parser.NText {| parser.Text_Content := "txt  " |};
     parser.NHeading {| parser.Heading_Level := 1;
                        parser.Heading_Text := "a " ++ [NL] ++ "b";
                        parser.Heading_Style := "atx" |};
     parser.NParagraph {| parser.Paragraph_Text := "foo   bar  " |}].

(** ** A rule that fails *)

(** A rule that refuses a paragraph without text. *)
Definition strictParagraphs : formatter.NodeFormatter :=
  {| formatter.Name := "strict";
     formatter.Priority := 200;
     formatter.CanFormat := fun ty => ty =? parser.NodeParagraph;
     formatter.Format := fun node _ =>
       match node with
       | parser.NParagraph para =>
           if streq (parser.Paragraph_Text para) ""
           then (node, Some "empty paragraph")
           else (node, None)
       | _ => (node, None)
       end |}.

Definition strictEngine : formatter.Engine :=
  formatter.Register formatter.New strictParagraphs.

Definition document_empty_paragraph : parser.Document :=
  parser.mkDocument
    [parser.NHeading heading_level9;
     parser.NParagraph {| parser.Paragraph_Text := "" |};
     parser.NText {| parser.Text_Content := "after  " |}].

(** ** Texts with links *)

Definition text_with_link : gostring :=
  "Check [the docs](http://example.com/very/long/path) now".

Definition text_link_destination : gostring := "[docs](my file.md)".

(** A parser that answers the given tree. *)
Definition parserAnswering (doc : parser.Document) : Parser :=
  {| Parse := fun _ => (doc, None) |}.

(** ** White space, byte by byte *)

(** The byte is ASCII. *)
Definition asciiByte (c : ascii) : bool := (strings.byteval c <? 128)%N.

(** The text is empty or starts with an ASCII byte. *)
Definition asciiStart (y : gostring) : Prop :=
  match y with
  | [] => True
  | c :: _ => asciiByte c = true
  end.

(** No white-space rune starts anywhere in the text. *)
Definition spaceFree (t : gostring) : Prop :=
  forall pre x, t = pre ++ x -> x <> [] -> strings.spaceWidth x = 0%nat.

(** A token: a text with a byte and without a white-space rune. *)
Definition solid (t : gostring) : Prop := t <> [] /\ spaceFree t.

(** A line made of tokens, one space between two of them. *)
Definition wordsLine (line : gostring) : Prop :=
  exists ws, ws <> [] /\ Forall solid ws /\ line = strings.Join ws " ".

(** The text starts with a token that an ASCII byte or the end follows. *)
Definition startsSolid (s : gostring) : Prop :=
  exists t y, solid t /\ asciiStart y /\ s = t ++ y.

(** The text ends with a token that an ASCII byte or the start precedes. *)
Definition endsSolid (s : gostring) : Prop :=
  exists t y, solid t /\ asciiStart (rev y) /\ s = y ++ t.

(** ** Lists and their markers *)

(** The token that follows the number of an ordered item. *)
Definition numberToken (cfg : config.Config) : gostring :=
  if streq (config.NumberStyle (config.List cfg)) ")" then ")" else ".".

(** The marker of the item at position [k], counted from 0. *)
Definition markerAt (cfg : config.Config) (k : nat) : gostring :=
  itoa (Z.of_nat k + 1) ++ numberToken cfg.

(** An ordered list numbers its items from 1; an unordered list and its
    items carry the configured bullet. *)
Definition wellMarked (cfg : config.Config) (l : parser.List) : Prop :=
  if parser.List_Ordered l
  then map parser.ListItem_Marker (parser.List_Items l)
       = map (markerAt cfg) (seq 0 (length (parser.List_Items l)))
  else parser.List_Marker l = config.BulletStyle (config.List cfg)
       /\ Forall (fun item => parser.ListItem_Marker item
                              = config.BulletStyle (config.List cfg))
                 (parser.List_Items l).

(** The lists of a tree of lists: a list, then the lists among the
    children of its items, and so on, in the order of the text. *)
Fixpoint listsNode (n : parser.Node) : list parser.List :=
  match n with
  | parser.NList l => listsList l
  | _ => []
  end
with listsList (l : parser.List) : list parser.List :=
  match l with
  | parser.mkList _ items _ => l :: flat_map listsItem items
  end
with listsItem (i : parser.ListItem) : list parser.List :=
  match i with
  | parser.mkListItem _ _ children => flat_map listsNode children
  end.

(** The lists at and below a node that the list rule accepts. *)
Definition listsBelow (n : parser.Node) : list parser.List :=
  match n with
  | parser.NList l => listsList l
  | parser.NListItem i => listsItem i
  | _ => []
  end.

(** Whether a list is ordered, and how many items it has. *)
Definition kind (l : parser.List) : bool * nat :=
  (parser.List_Ordered l, length (parser.List_Items l)).

(** What the list rule makes of a child of an item, of an item whose
    marker is set, and the markers it sets. *)
Definition formatChild (cfg : config.Config) (c : parser.Node) : parser.Node :=
  match c with
  | parser.NList l => parser.NList (fst (formatter.ListFormatter_formatList l cfg))
  | _ => c
  end.

Definition formatItem (normalize : bool) (cfg : config.Config)
  (item : parser.ListItem) : parser.ListItem :=
  parser.mkListItem
    (if normalize
     then formatter.normalizeWhitespace
            (strings.TrimSpace (parser.ListItem_Text item))
     else parser.ListItem_Text item)
    (parser.ListItem_Marker item)
    (map (formatChild cfg) (parser.ListItem_Children item)).

Definition markItems (cfg : config.Config) (ordered : bool)
  (items : list parser.ListItem) : list parser.ListItem :=
  if ordered then formatter.numberItems cfg 0 items
  else map (formatter.setMarker (config.BulletStyle (config.List cfg))) items.

(** ** The pipeline *)

(** A parser that refuses every text with the given message. *)
Definition parserRefusing (msg : error) : Parser :=
  {| Parse := fun _ => (parser.mkDocument [], Some msg) |}.

(** The parser of [BasicParser]. *)
Definition basicParser : Parser := {| Parse := parser.BasicParser_Parse |}.

(** A document without a text node at the top level. *)
Definition document_plain : parser.Document :=
  parser.mkDocument
    [parser.NHeading heading_level9;
     parser.NParagraph {| parser.Paragraph_Text := "  foo   bar baz  " |};
     parser.NList
       (parser.mkList true
          [parser.mkListItem " a  b" "*"
             [parser.NList (parser.mkList false [parser.mkListItem "x" "+" []] "+");
              parser.NHeading heading_level9];
           parser.mkListItem "c" "+" []] "*");
     parser.NCodeBlock {| parser.CodeBlock_Language := "go";
                          parser.CodeBlock_Content := "x := 1  " ++ [NL];
                          parser.CodeBlock_Fenced := true;
                          parser.CodeBlock_Fence := "~~~" |}].

(** A file system that holds the same text at every path and accepts
    every write; the arguments of the command run with [-w]. *)
Definition oneFile (content : gostring) : FileSystem :=
  {| ReadFile := fun _ => (content, None);
     WriteFile := fun _ _ => None |}.

Definition writeArgs : ProcessingArgs :=
  {| write := true; check := false; list_ := false; diff := false;
     verbose := false; quiet := false |}.

(** What lies below a node of the top level can be written. *)
Definition belowWritable (n : parser.Node) : bool :=
  match n with
  | parser.NList l => listWritable l
  | parser.NListItem i => itemWritable i
  | _ => true
  end.

(* ================================================================== *)
(** * Properties *)

(** ** The library on small inputs *)

Example Fields_blanks :
  strings.Fields ("  foo " ++ [TAB; NL] ++ "bar baz ") = ["foo"; "bar"; "baz"].
Proof. reflexivity. Qed.

Example Fields_no_break_space :
  strings.Fields ("a" ++ [ascii_of_N 0xC2; ascii_of_N 0xA0] ++ "b") = ["a"; "b"].
Proof. reflexivity. Qed.

Example TrimSpace_both_ends :
  strings.TrimSpace
    ([NL] ++ " a b " ++ [ascii_of_N 0xE3; ascii_of_N 0x80; ascii_of_N 0x80; TAB])
  = "a b".
Proof. reflexivity. Qed.

Example Split_keeps_empty_lines :
  strings.Split ("a" ++ [NL; NL] ++ "b" ++ [NL]) NL = ["a"; ""; "b"; ""].
Proof. reflexivity. Qed.

Example HasSuffix_cases :
  strings.HasSuffix "abc" "bc" = true /\ strings.HasSuffix "c" "bc" = false.
Proof. split; reflexivity. Qed.

Example fixBrokenLinks_joins_label :
  renderer.fixBrokenLinks
    ("see [the" ++ [NL] ++ "docs" ++ [NL] ++ "x](http://e.com) and [a](b)")
  = "see [the docs x](http://e.com) and [a](b)".
Proof. reflexivity. Qed.

Example normalizeInlineElements_cases :
  formatter.normalizeInlineElements "a `  code  ` _emph_ x_y_z [  lab  ](u)"
  = "a `code ` *emph* x_y_z [lab ](u)".
Proof. reflexivity. Qed.

Example Register_keeps_registration_order :
  map formatter.Priority (formatter.formatters formatter.New) = [0; 0; 0; 0; 0; 0].
Proof. reflexivity. Qed.

(** ** C1: the setext underline *)

(** What [renderHeading] writes for a level-1 setext heading whose
    trimmed text is not empty: the underline has the trimmed length. *)
Lemma renderHeading_setext_level1 : forall (text : gostring)
                                           (r : renderer.MarkdownRenderer),
  0 < len (strings.TrimSpace text) ->
  renderer.renderHeading
    {| parser.Heading_Level := 1;
       parser.Heading_Text := text;
       parser.Heading_Style := "setext" |} 0 r
  = Returned
      (None,
       {| renderer.output :=
            renderer.output r ++ text ++ [NL]
            ++ concat (repeat "=" (Z.to_nat (len (strings.TrimSpace text))))
            ++ [NL; NL];
          renderer.config_ := renderer.config_ r |}).
Proof.
  intros text r Hn.
  unfold renderer.renderHeading, renderer.bind, renderer.WriteString,
    renderer.call, renderer.ret, strings.Repeat.
  cbn [parser.Heading_Style parser.Heading_Level parser.Heading_Text
       streq andb Ascii.eqb Bool.eqb renderer.SecondHeadingLevel Z.leb
       Z.compare Pos.compare Pos.compare_cont Z.eqb Pos.eqb
       renderer.output renderer.config_].
  destruct (Z.eqb_spec (len (strings.TrimSpace text)) 0); [lia|].
  destruct (Z.ltb_spec (len (strings.TrimSpace text)) 0); [lia|].
  cbn [renderer.output renderer.config_].
  now rewrite <- !app_assoc.
Qed.

(** C1 (the code departs from the claim).  The claim asks for an underline
    of max(3, trimmed length) signs, so that the level-1 setext heading
    "Hi" is followed by three '='.  [renderHeading] raises the length to 3
    only when the trimmed text is empty: for "Hi" it writes the text, a
    newline, two '=' and a blank line, which is not the text the claim
    gives. *)
Theorem C1_setext_underline_Hi :
  renderer.renderHeading heading_Hi 0 renderer.New
  = Returned (None, {| renderer.output := "Hi" ++ [NL] ++ "==" ++ [NL; NL];
                       renderer.config_ := None |})
  /\ "Hi" ++ [NL] ++ "==" ++ [NL; NL] <> "Hi" ++ [NL] ++ "===" ++ [NL; NL].
Proof.
  split; [reflexivity | discriminate].
Qed.

(** ** C6: the heading clamp *)

(** C6.  With level normalization enabled, [HeadingFormatter.Format] leaves
    a heading of input level L at level min(6, max(1, L)), which lies in
    [1,6]; it reports no error. *)
Theorem C6_heading_clamp :
  forall (h : parser.Heading) (cfg : config.Config),
    config.NormalizeLevels (config.Heading cfg) = true ->
    exists h' : parser.Heading,
      formatter.HeadingFormatter_Format (parser.NHeading h) cfg
      = (parser.NHeading h', None)
      /\ parser.Heading_Level h'
         = Z.min 6 (Z.max 1 (parser.Heading_Level h))
      /\ 1 <= parser.Heading_Level h' <= 6.
Proof.
  intros h cfg Hnorm.
  unfold formatter.HeadingFormatter_Format.
  rewrite Hnorm.
  eexists; split; [reflexivity|].
  cbn [parser.Heading_Level].
  unfold formatter.MaxHeadingLevel, formatter.MinHeadingLevel.
  destruct (parser.Heading_Level h >? 6) eqn:Hhi.
  - apply Z.gtb_lt in Hhi. cbn. split; lia.
  - destruct (parser.Heading_Level h <? 1) eqn:Hlo.
    + apply Z.ltb_lt in Hlo. split; lia.
    + apply Z.ltb_ge in Hlo.
      assert (parser.Heading_Level h <= 6)
        by (destruct (Z.gtb_spec (parser.Heading_Level h) 6); [discriminate | lia]).
      split; lia.
Qed.

Lemma C6_heading_clamp_witness :
  config.NormalizeLevels (config.Heading config.Default) = true
  /\ exists h' : parser.Heading,
      formatter.HeadingFormatter_Format (parser.NHeading heading_level9)
                                        config.Default
      = (parser.NHeading h', None)
      /\ parser.Heading_Level h'
         = Z.min 6 (Z.max 1 (parser.Heading_Level heading_level9))
      /\ 1 <= parser.Heading_Level h' <= 6.
Proof.
  split; [reflexivity|].
  apply (C6_heading_clamp heading_level9 config.Default).
  reflexivity.
Defined.

(** ** C9: the pipeline is a function of the tree and the configuration *)

(** C9.  Formatting a tree and rendering it gives a text that depends on
    the tree and the configuration only: whatever a renderer holds from
    earlier calls (its builder, its configuration pointer), [Render] on
    the formatted tree returns the same, because it resets both; and the
    engine keeps no state between calls. *)
Theorem C9_pipeline_deterministic :
  forall (e : formatter.Engine) (doc : parser.Document) (cfg : config.Config)
         (r1 r2 : renderer.MarkdownRenderer),
    returned (renderer.Render (fst (formatter.Engine_Format e doc cfg)) cfg r1)
    = returned (renderer.Render (fst (formatter.Engine_Format e doc cfg)) cfg r2).
Proof.
  intros e doc cfg r1 r2.
  unfold renderer.Render.
  reflexivity.
Qed.

(** ** Lines: [strings.Split] and [strings.Join] *)

Lemma Split_not_nil : forall (s : gostring) (sep : ascii),
  strings.Split s sep <> [].
Proof.
  induction s as [|c s IH]; intros sep; simpl.
  - discriminate.
  - destruct (Ascii.eqb c sep); [discriminate|].
    destruct (strings.Split s sep); discriminate.
Qed.

Lemma Split_no_sep : forall (s : gostring) (sep : ascii),
  ~ In sep s -> strings.Split s sep = [s].
Proof.
  induction s as [|c s IH]; intros sep Hin; simpl; [reflexivity|].
  destruct (Ascii.eqb_spec c sep) as [->|Hne].
  - exfalso. apply Hin. now left.
  - rewrite IH; [reflexivity|]. intros H. apply Hin. now right.
Qed.

Lemma Split_app_sep : forall (e t : gostring) (sep : ascii),
  ~ In sep e -> strings.Split (e ++ sep :: t) sep = e :: strings.Split t sep.
Proof.
  induction e as [|c e IH]; intros t sep Hin; simpl.
  - now rewrite Ascii.eqb_refl.
  - destruct (Ascii.eqb_spec c sep) as [->|Hne].
    + exfalso. apply Hin. now left.
    + rewrite IH; [reflexivity|]. intros H. apply Hin. now right.
Qed.

Lemma Split_lines_no_sep : forall (s : gostring) (sep : ascii),
  Forall (fun l => ~ In sep l) (strings.Split s sep).
Proof.
  induction s as [|c s IH]; intros sep; simpl.
  - constructor; [intros []|constructor].
  - destruct (Ascii.eqb_spec c sep) as [->|Hne].
    + constructor; [intros []|apply IH].
    + specialize (IH sep). destruct (strings.Split s sep) as [|l ls].
      * constructor; [|constructor]. intros [H|[]]. now apply Hne.
      * inversion IH as [|? ? Hl Hls]; subst.
        constructor; [|assumption].
        intros [H|H]; [now apply Hne | now apply Hl].
Qed.

Lemma Split_Join : forall (ls : list gostring) (sep : ascii),
  ls <> [] ->
  Forall (fun l => ~ In sep l) ls ->
  strings.Split (strings.Join ls [sep]) sep = ls.
Proof.
  induction ls as [|e ls IH]; intros sep Hne Hall; [congruence|].
  inversion Hall as [|? ? He Hls]; subst.
  destruct ls as [|e2 rest].
  - simpl. now apply Split_no_sep.
  - change (strings.Join (e :: e2 :: rest) [sep])
      with (e ++ sep :: strings.Join (e2 :: rest) [sep]).
    rewrite Split_app_sep by assumption.
    rewrite IH; [reflexivity | discriminate | assumption].
Qed.

Lemma Join_Split : forall (s : gostring) (sep : ascii),
  strings.Join (strings.Split s sep) [sep] = s.
Proof.
  induction s as [|c s IH]; intros sep; simpl; [reflexivity|].
  destruct (Ascii.eqb_spec c sep) as [->|Hne].
  - pose proof (Split_not_nil s sep) as Hnn.
    specialize (IH sep).
    destruct (strings.Split s sep) as [|l ls]; [congruence|].
    simpl in *. now rewrite IH.
  - pose proof (Split_not_nil s sep) as Hnn.
    specialize (IH sep).
    destruct (strings.Split s sep) as [|l ls]; [congruence|].
    destruct ls as [|l2 ls]; simpl in *; now rewrite <- IH.
Qed.

(** ** C7: collapsing runs of blank lines *)

Lemma blankLoop_collapse : forall K lines result c,
  renderer.blankLoop K lines result c = result ++ collapse K lines c.
Proof.
  induction lines as [|line rest IH]; intros result c; simpl.
  - now rewrite app_nil_r.
  - fold (isBlank line). destruct (isBlank line).
    + destruct (c + 1 <=? K); rewrite IH; [|reflexivity].
      now rewrite <- app_assoc.
    + rewrite IH. now rewrite <- app_assoc.
Qed.

Lemma blankPrefix_nonneg : forall lines, 0 <= blankPrefix lines.
Proof.
  induction lines as [|l r IH]; cbn [blankPrefix]; [lia|].
  destruct (isBlank l); lia.
Qed.

Lemma collapse_blankPrefix : forall K lines c,
  0 <= c ->
  blankPrefix (collapse K lines c) <= Z.max 0 (K - c).
Proof.
  induction lines as [|line rest IH]; intros c Hc;
    cbn [collapse blankPrefix]; [lia|].
  destruct (isBlank line) eqn:Hb.
  - destruct (Z.leb_spec (c + 1) K).
    + cbn [blankPrefix]. rewrite Hb. specialize (IH (c + 1)). lia.
    + specialize (IH (c + 1)). lia.
  - cbn [blankPrefix]. rewrite Hb. lia.
Qed.

Lemma collapse_longestBlankRun : forall K lines c,
  0 <= K -> 0 <= c ->
  longestBlankRun (collapse K lines c) <= K.
Proof.
  induction lines as [|line rest IH]; intros c HK Hc;
    cbn [collapse longestBlankRun]; [lia|].
  pose proof (collapse_blankPrefix K (line :: rest) c Hc) as Hp.
  cbn [collapse] in Hp.
  destruct (isBlank line) eqn:Hb.
  - destruct (Z.leb_spec (c + 1) K).
    + cbn [longestBlankRun]. specialize (IH (c + 1)). lia.
    + apply IH; lia.
  - cbn [longestBlankRun]. specialize (IH 0). lia.
Qed.

Lemma collapse_Forall : forall (P : gostring -> Prop) K lines c,
  Forall P lines -> Forall P (collapse K lines c).
Proof.
  induction lines as [|line rest IH]; intros c Hall; simpl; [constructor|].
  inversion Hall; subst.
  destruct (isBlank line); [destruct (c + 1 <=? K)|];
    try constructor; auto.
Qed.

Lemma textLines_Join : forall ls : list gostring,
  Forall (fun l => ~ In NL l) ls ->
  textLines (strings.Join ls [NL]) = ls
  \/ textLines (strings.Join ls [NL]) = [].
Proof.
  intros ls Hall. unfold textLines.
  destruct (strings.Join ls [NL]) eqn:HJ; [now right|].
  left. rewrite <- HJ. apply Split_Join; [|assumption].
  intros ->. discriminate.
Qed.

(** C7.  On every buffer, [normalizeBlankLines] with a maximum K >= 0
    returns a text in which no run of consecutive blank lines is longer
    than K, and with a negative maximum it returns the buffer as it is. *)
Theorem C7_blank_line_collapse :
  forall (text : gostring) (K : Z),
    (0 <= K ->
     longestBlankRun (textLines (renderer.normalizeBlankLines text K)) <= K)
    /\ (K < 0 -> renderer.normalizeBlankLines text K = text).
Proof.
  intros text K. unfold renderer.normalizeBlankLines. split.
  - intros HK.
    destruct (Z.ltb_spec K 0); [lia|].
    rewrite blankLoop_collapse. simpl app.
    destruct (textLines_Join (collapse K (strings.Split text NL) 0)) as [->| ->].
    + apply collapse_Forall, Split_lines_no_sep.
    + apply collapse_longestBlankRun; lia.
    + simpl. lia.
  - intros HK. destruct (Z.ltb_spec K 0); [reflexivity | lia].
Qed.

Lemma C7_blank_line_collapse_witness :
  (0 <= 1
   /\ longestBlankRun
        (textLines (renderer.normalizeBlankLines buffer_with_runs 1)) <= 1)
  /\ (-1 < 0
      /\ renderer.normalizeBlankLines buffer_with_runs (-1) = buffer_with_runs).
Proof.
  split; split.
  - lia.
  - apply (proj1 (C7_blank_line_collapse buffer_with_runs 1)). lia.
  - lia.
  - apply (proj2 (C7_blank_line_collapse buffer_with_runs (-1))). lia.
Defined.

(** ** Texts without a link *)

Lemma matchAt_needs_link : forall p prev s,
  p = regexp.brokenLinkPattern \/ p = regexp.multiBreakPattern ->
  regexp.matchAt regexp.linkPattern prev s = None ->
  regexp.matchAt p prev s = None.
Proof.
  intros p prev s [-> | ->] H; cbn [regexp.matchAt] in *;
    destruct (regexp.linkAt s) as [[label url]|]; congruence.
Qed.

Lemma replaceFrom_no_link : forall p repl s prev,
  p = regexp.brokenLinkPattern \/ p = regexp.multiBreakPattern ->
  regexp.findFirstFrom (regexp.MustCompile regexp.linkPattern) prev s = None ->
  regexp.replaceFrom (regexp.MustCompile p) repl prev s 0 = s.
Proof.
  intros p repl s. induction s as [|c r IH]; intros prev Hp Hnone;
    cbn [regexp.replaceFrom]; [reflexivity|].
  cbn [regexp.findFirstFrom regexp.expr] in Hnone.
  destruct (regexp.matchAt regexp.linkPattern prev (c :: r)) eqn:Hm;
    [discriminate|].
  cbn [regexp.expr]. rewrite (matchAt_needs_link p prev (c :: r) Hp Hm).
  now rewrite IH.
Qed.

Lemma findAllFrom_no_link : forall s prev pos,
  regexp.findFirstFrom (regexp.MustCompile regexp.linkPattern) prev s = None ->
  regexp.findAllFrom (regexp.MustCompile regexp.linkPattern) prev s pos 0 = [].
Proof.
  induction s as [|c r IH]; intros prev pos Hnone;
    cbn [regexp.findAllFrom]; [reflexivity|].
  cbn [regexp.findFirstFrom] in Hnone.
  destruct (regexp.matchAt (regexp.expr (regexp.MustCompile regexp.linkPattern))
                           prev (c :: r)); [discriminate|].
  now apply IH.
Qed.

Lemma no_link_findFirst : forall text,
  renderer.containsMarkdownLinks text = false ->
  regexp.findFirstFrom (regexp.MustCompile regexp.linkPattern) None text = None.
Proof.
  intros text H. unfold renderer.containsMarkdownLinks, regexp.MatchString in H.
  destruct (regexp.findFirstFrom _ None text); [discriminate | reflexivity].
Qed.

Lemma fixBrokenLinks_no_link : forall text,
  renderer.containsMarkdownLinks text = false ->
  renderer.fixBrokenLinks text = text.
Proof.
  intros text H. apply no_link_findFirst in H.
  unfold renderer.fixBrokenLinks, regexp.ReplaceAllStringFunc.
  rewrite (replaceFrom_no_link regexp.brokenLinkPattern) by auto.
  now rewrite (replaceFrom_no_link regexp.multiBreakPattern) by auto.
Qed.

Lemma tokenizeWithLinks_no_link : forall text,
  renderer.containsMarkdownLinks text = false ->
  renderer.tokenizeWithLinks text = strings.Fields text.
Proof.
  intros text H. apply no_link_findFirst in H.
  unfold renderer.tokenizeWithLinks, regexp.FindAllStringIndex.
  rewrite findAllFrom_no_link by assumption.
  cbn [renderer.tokenizeLoop].
  destruct (0 <? len text); reflexivity.
Qed.

(** ** Words: [strings.Fields] *)

Lemma spaceWidth_zero_head : forall c r,
  strings.spaceWidth (c :: r) = 0%nat -> strings.asciiSpace c = false.
Proof.
  intros c r H. unfold strings.spaceWidth in H.
  destruct (strings.asciiSpace c); [discriminate | reflexivity].
Qed.

Lemma flush_words : forall cur,
  Forall (fun c => strings.asciiSpace c = false) cur ->
  Forall isWord (strings.flush cur).
Proof.
  intros [|c cur] H; cbn; constructor; [|constructor].
  split; [discriminate | assumption].
Qed.

Lemma fieldsFrom_words : forall s skip cur,
  Forall (fun c => strings.asciiSpace c = false) cur ->
  Forall isWord (strings.fieldsFrom s skip cur).
Proof.
  induction s as [|c r IH]; intros skip cur Hcur; cbn [strings.fieldsFrom].
  - now apply flush_words.
  - destruct skip as [|k]; [|now apply IH].
    destruct (strings.spaceWidth (c :: r)) eqn:Hw.
    + apply IH. apply Forall_app. split; [assumption|].
      constructor; [|constructor]. now apply spaceWidth_zero_head with r.
    + apply Forall_app. split; [now apply flush_words|].
      apply IH. constructor.
Qed.

Lemma Fields_words : forall s, Forall isWord (strings.Fields s).
Proof. intros s. apply fieldsFrom_words. constructor. Qed.

Lemma word_no_NL : forall t, isWord t -> ~ In NL t.
Proof.
  intros t [_ H] Hin. rewrite Forall_forall in H.
  specialize (H NL Hin). discriminate.
Qed.

(** ** The greedy line builder *)

Lemma len_nil_iff : forall s : gostring, (len s >? 0) = false <-> s = [].
Proof.
  intros s. unfold len. destruct s; cbn; split; intros H;
    try reflexivity; try discriminate.
Qed.

Lemma len_app : forall a b : gostring, len (a ++ b) = len a + len b.
Proof. intros. unfold len. rewrite length_app. lia. Qed.

Section WrapLoop.
Variable P : gostring -> Prop.
Variable width : Z.
Variable all : list gostring.
Hypothesis P_token : forall t, In t all -> P t.
Hypothesis P_extend : forall cur t,
  P cur -> cur <> [] -> In t all ->
  len cur + 1 + len t <= width -> P (cur ++ " " ++ t).

(** Every line [wrapLoop] closes satisfies an invariant that holds of
    each token alone and survives appending a token that fits. *)
Lemma wrapLoop_invariant : forall tokens lines cur,
  incl tokens all ->
  Forall P lines ->
  cur = [] \/ P cur ->
  Forall P (renderer.wrapLoop width tokens lines cur).
Proof.
  induction tokens as [|t rest IH]; intros lines cur Hincl Hlines Hcur;
    cbn [renderer.wrapLoop]; [assumption|].
  assert (Ht : In t all) by (apply Hincl; now left).
  assert (Hrest : incl rest all) by (intros x Hx; apply Hincl; now right).
  destruct (len cur >? 0) eqn:Hpos; cbn [andb].
  - assert (Hne : cur <> []).
    { intros ->. discriminate. }
    destruct Hcur as [->|HPcur]; [congruence|].
    destruct (len cur + 1 + len t >? width) eqn:Hover.
    + (* the line is closed, the token opens the next one *)
      cbn [len length Z.of_nat Z.gtb Z.compare app].
      assert (Hcl : Forall P (lines ++ [cur])).
      { apply Forall_app. split; [assumption | now constructor]. }
      destruct rest as [|t2 rest2].
      * cbn [renderer.wrapLoop]. apply Forall_app. split; [assumption|].
        constructor; [now apply P_token | constructor].
      * apply IH; [assumption | assumption | right; now apply P_token].
    + rewrite Hpos.
      assert (Hfit : len cur + 1 + len t <= width).
      { destruct (Z.gtb_spec (len cur + 1 + len t) width); [discriminate | lia]. }
      assert (HP' : P ((cur ++ " ") ++ t)).
      { rewrite <- app_assoc. now apply P_extend. }
      destruct rest as [|t2 rest2].
      * cbn [renderer.wrapLoop]. apply Forall_app. split; [assumption|].
        constructor; [assumption | constructor].
      * apply IH; [assumption | assumption | now right].
  - apply len_nil_iff in Hpos. subst cur.
    cbn [len length Z.of_nat Z.gtb Z.compare app].
    destruct rest as [|t2 rest2].
    + cbn [renderer.wrapLoop]. apply Forall_app. split; [assumption|].
      constructor; [now apply P_token | constructor].
    + apply IH; [assumption | assumption | right; now apply P_token].
Qed.

Lemma wrapLoop_not_nil : forall tokens lines cur,
  tokens <> [] -> renderer.wrapLoop width tokens lines cur <> [].
Proof.
  induction tokens as [|t rest IH]; intros lines cur Hne; [congruence|].
  cbn [renderer.wrapLoop].
  destruct ((len cur >? 0) && (len cur + 1 + len t >? width)).
  - destruct rest as [|t2 rest2].
    + cbn [renderer.wrapLoop]. intros H. now apply app_eq_nil in H as [_ H].
    + apply IH. discriminate.
  - destruct rest as [|t2 rest2].
    + cbn [renderer.wrapLoop]. intros H. now apply app_eq_nil in H as [_ H].
    + apply IH. discriminate.
Qed.

End WrapLoop.

(** ** C5: the width bound *)

Lemma Split_app_two_sep : forall (s : gostring) (sep : ascii),
  strings.Split (s ++ [sep; sep]) sep = strings.Split s sep ++ [[]; []].
Proof.
  induction s as [|c s IH]; intros sep; cbn [app strings.Split].
  - now rewrite Ascii.eqb_refl.
  - destruct (Ascii.eqb c sep).
    + now rewrite IH.
    + rewrite IH. pose proof (Split_not_nil s sep) as Hnn.
      destruct (strings.Split s sep); [congruence | reflexivity].
Qed.

Lemma wrapText_lines : forall text W,
  0 < W ->
  renderer.containsMarkdownLinks text = false ->
  strings.Fields text <> [] ->
  exists lines,
    renderer.wrapText text W = strings.Join lines [NL]
    /\ strings.Split (strings.Join lines [NL]) NL = lines
    /\ Forall (lineWithin W (strings.Fields text)) lines.
Proof.
  intros text W HW Hno Hne.
  unfold renderer.wrapText.
  destruct (Z.leb_spec W 0); [lia|].
  rewrite (tokenizeWithLinks_no_link text Hno).
  destruct (strings.Fields text) as [|t0 ts] eqn:HF; [congruence|].
  rewrite <- HF in *.
  exists (renderer.wrapLoop W (strings.Fields text) [] []).
  pose proof (Fields_words text) as Hwords.
  rewrite Forall_forall in Hwords.
  split; [reflexivity|]. split.
  - apply Split_Join.
    + apply wrapLoop_not_nil. assumption.
    + apply wrapLoop_invariant with (all := strings.Fields text).
      * intros t Ht. apply word_no_NL. now apply Hwords.
      * intros cur t Hcur _ Ht _ Hin.
        apply in_app_or in Hin as [Hin|Hin]; [now apply Hcur|].
        apply in_app_or in Hin as [Hin|Hin].
        -- destruct Hin as [Hin|[]]. discriminate.
        -- revert Hin. apply word_no_NL. now apply Hwords.
      * apply incl_refl.
      * constructor.
      * now left.
  - apply wrapLoop_invariant with (all := strings.Fields text).
    + intros t Ht. unfold lineWithin.
      destruct (Z.le_gt_cases (len t) W); [now left | right; split; [assumption | lia]].
    + intros cur t _ _ _ Hfit. left.
      rewrite !len_app. change (len " ") with 1. lia.
    + apply incl_refl.
    + constructor.
    + now left.
Qed.

(** C5, as the code has it.  A paragraph whose text holds no link
    construct and at least one word, rendered with a line width W > 0, is
    written as lines each of which is at most W bytes long or is a single
    word longer than W, alone on its line, followed by a blank line.  (A
    text of white space only gives no token and is written as it is.) *)
Theorem C5_width_bound :
  forall (para : parser.Paragraph) (depth : Z) (cfg : config.Config)
         (r : renderer.MarkdownRenderer),
    renderer.config_ r = Some cfg ->
    0 < config.LineWidth cfg ->
    renderer.containsMarkdownLinks (parser.Paragraph_Text para) = false ->
    strings.Fields (parser.Paragraph_Text para) <> [] ->
    exists written : gostring,
      renderer.renderParagraph para depth r
      = Returned (None, {| renderer.output := renderer.output r ++ written;
                           renderer.config_ := renderer.config_ r |})
      /\ Forall (lineWithin (config.LineWidth cfg)
                            (strings.Fields (parser.Paragraph_Text para)))
                (strings.Split written NL).
Proof.
  intros para depth cfg r Hcfg HW Hno Hne.
  destruct (wrapText_lines _ _ HW Hno Hne) as (lines & Hwrap & Hsplit & Hall).
  exists (renderer.wrapText (parser.Paragraph_Text para) (config.LineWidth cfg)
          ++ [NL; NL]).
  split.
  - unfold renderer.renderParagraph, renderer.bind, renderer.getConfig,
      renderer.WriteString, renderer.ret.
    rewrite Hcfg. rewrite (fixBrokenLinks_no_link _ Hno). rewrite Hno.
    destruct (Z.gtb_spec (config.LineWidth cfg) 0); [|lia].
    cbn [andb negb renderer.output renderer.config_].
    now rewrite Hcfg, <- app_assoc.
  - rewrite Split_app_two_sep, Hwrap, Hsplit.
    apply Forall_app. split; [assumption|].
    repeat constructor; unfold len; cbn; lia.
Qed.

Lemma C5_width_bound_witness :
  exists written : gostring,
    renderer.renderParagraph paragraph_words 0
      (rendererWith (withLineWidth 5 config.Default))
    = Returned (None, {| renderer.output := "" ++ written;
                         renderer.config_ := Some (withLineWidth 5 config.Default) |})
    /\ Forall (lineWithin 5 (strings.Fields (parser.Paragraph_Text paragraph_words)))
              (strings.Split written NL).
Proof.
  apply (C5_width_bound paragraph_words 0 (withLineWidth 5 config.Default)
           (rendererWith (withLineWidth 5 config.Default))).
  - reflexivity.
  - cbn. lia.
  - reflexivity.
  - discriminate.
Defined.

(** The claim as stated fails on a paragraph of four spaces rendered with
    width 3: it has no link construct, and it is written as one line of
    four bytes, which is no token. *)
Lemma C5_counterexample :
  renderer.containsMarkdownLinks (parser.Paragraph_Text paragraph_blank) = false
  /\ 0 < config.LineWidth (withLineWidth 3 config.Default)
  /\ renderer.renderParagraph paragraph_blank 0
       (rendererWith (withLineWidth 3 config.Default))
     = Returned (None, {| renderer.output := "    " ++ [NL; NL];
                          renderer.config_ := Some (withLineWidth 3 config.Default) |})
  /\ ~ Forall (lineWithin 3 (strings.Fields (parser.Paragraph_Text paragraph_blank)))
              (strings.Split ("    " ++ [NL; NL]) NL).
Proof.
  split; [reflexivity|]. split; [cbn; lia|]. split; [reflexivity|].
  intros H. inversion H as [|? ? Hline _]; subst.
  destruct Hline as [Hle | [Hin _]].
  - unfold len in Hle. cbn in Hle. lia.
  - cbn in Hin. exact Hin.
Qed.

(** ** C10: what [Render] can return *)

Lemma noErr_ret : noErr (renderer.ret None).
Proof. intros r. exact I. Qed.

Lemma noErr_bind : forall (A : Type) (m : renderer.M A) k,
  (forall a, noErr (k a)) -> noErr (renderer.bind m k).
Proof.
  intros A m k Hk r. unfold renderer.bind.
  destruct (m r) as [[a r']|msg]; [apply Hk | exact I].
Qed.

Lemma noErr_bind_err : forall (m : renderer.M (option error)) k,
  noErr m -> noErr (k None) -> noErr (renderer.bind m k).
Proof.
  intros m k Hm Hk r. unfold renderer.bind.
  specialize (Hm r).
  destruct (m r) as [[[e|] r']|msg]; [contradiction | apply Hk | exact I].
Qed.

Lemma noErr_forRange : forall (A : Type) (body : A -> renderer.M (option error)) l,
  Forall (fun x => noErr (body x)) l -> noErr (renderer.forRange body l).
Proof.
  intros A body l H. induction H as [|x rest Hx _ IH]; cbn [renderer.forRange].
  - apply noErr_ret.
  - apply noErr_bind_err; assumption.
Qed.

Lemma runs_ret : forall (A : Type) (a : A), runs (renderer.ret a).
Proof. intros A a r cfg H. exists a, r. now split. Qed.

Lemma runs_WriteString : forall s, runs (renderer.WriteString s).
Proof. intros s r cfg H. eexists _, _. split; [reflexivity|exact H]. Qed.

Lemma runs_getConfig : runs renderer.getConfig.
Proof.
  intros r cfg H. exists cfg, r. unfold renderer.getConfig.
  rewrite H. now split.
Qed.

Lemma runs_Repeat : forall s count,
  0 <= count -> runs (renderer.call (strings.Repeat s count)).
Proof.
  intros s count Hc r cfg H. unfold strings.Repeat, renderer.call.
  destruct (Z.ltb_spec count 0); [lia|].
  eexists _, r. now split.
Qed.

Lemma runs_bind : forall (A B : Type) (m : renderer.M A) (k : A -> renderer.M B),
  runs m -> (forall a, runs (k a)) -> runs (renderer.bind m k).
Proof.
  intros A B m k Hm Hk r cfg H. unfold renderer.bind.
  destruct (Hm r cfg H) as (a & r' & -> & H').
  apply (Hk a r' cfg H').
Qed.

Lemma runs_forEach : forall (A : Type) (body : A -> renderer.M unit) l,
  (forall x, runs (body x)) -> runs (renderer.forEach body l).
Proof.
  intros A body l Hb. induction l as [|x rest IH]; cbn [renderer.forEach].
  - apply runs_ret.
  - apply runs_bind; [apply Hb | intros _; exact IH].
Qed.

Lemma succeeds_ret : succeeds (renderer.ret None).
Proof. intros r cfg H. exists r. now split. Qed.

Lemma succeeds_bind : forall (A : Type) (m : renderer.M A) k,
  runs m -> (forall a, succeeds (k a)) -> succeeds (renderer.bind m k).
Proof.
  intros A m k Hm Hk r cfg H. unfold renderer.bind.
  destruct (Hm r cfg H) as (a & r' & -> & H').
  apply (Hk a r' cfg H').
Qed.

Lemma succeeds_bind_err : forall (m : renderer.M (option error)) k,
  succeeds m -> succeeds (k None) -> succeeds (renderer.bind m k).
Proof.
  intros m k Hm Hk r cfg H. unfold renderer.bind.
  destruct (Hm r cfg H) as (r' & -> & H').
  apply (Hk r' cfg H').
Qed.

Lemma succeeds_forRange :
  forall (A : Type) (body : A -> renderer.M (option error)) l,
    Forall (fun x => succeeds (body x)) l ->
    succeeds (renderer.forRange body l).
Proof.
  intros A body l H. induction H as [|x rest Hx _ IH]; cbn [renderer.forRange].
  - apply succeeds_ret.
  - apply succeeds_bind_err; assumption.
Qed.

Ltac no_err :=
  repeat first [ apply noErr_ret
               | apply noErr_bind; intros ].

Ltac runs_step :=
  first [ apply runs_ret | apply runs_WriteString | apply runs_getConfig ].

Ltac success :=
  repeat first [ apply succeeds_ret
               | apply succeeds_bind; [try runs_step | intros] ].

Lemma renderHeading_noErr : forall h depth,
  noErr (renderer.renderHeading h depth).
Proof.
  intros h depth. unfold renderer.renderHeading.
  destruct (streq _ _ && _); no_err.
Qed.

Lemma renderHeading_succeeds : forall h depth,
  headingWritable h = true -> succeeds (renderer.renderHeading h depth).
Proof.
  intros h depth Hw. unfold renderer.renderHeading.
  unfold headingWritable in Hw.
  destruct (streq _ _ && _); cbn [orb] in Hw.
  - success. apply runs_Repeat.
    destruct (len (strings.TrimSpace (parser.Heading_Text h)) =? 0) eqn:E;
      [lia | unfold len; lia].
  - success. apply runs_Repeat. now apply Z.leb_le.
Qed.

Lemma renderParagraph_noErr : forall p depth,
  noErr (renderer.renderParagraph p depth).
Proof. intros. unfold renderer.renderParagraph. no_err. Qed.

Lemma renderParagraph_succeeds : forall p depth,
  succeeds (renderer.renderParagraph p depth).
Proof. intros. unfold renderer.renderParagraph. success. Qed.

Lemma renderCodeBlock_noErr : forall c depth,
  noErr (renderer.renderCodeBlock c depth).
Proof.
  intros. unfold renderer.renderCodeBlock.
  destruct (parser.CodeBlock_Fenced c); no_err.
Qed.

Lemma renderCodeBlock_succeeds : forall c depth,
  succeeds (renderer.renderCodeBlock c depth).
Proof.
  intros. unfold renderer.renderCodeBlock.
  destruct (parser.CodeBlock_Fenced c); success.
  - destruct (negb _); runs_step.
  - destruct (negb _); runs_step.
  - apply runs_forEach. intros line.
    repeat (apply runs_bind; [runs_step | intros]). runs_step.
Qed.

Lemma renderText_noErr : forall t depth, noErr (renderer.renderText t depth).
Proof. intros. unfold renderer.renderText. no_err. Qed.

Lemma renderText_succeeds : forall t depth,
  succeeds (renderer.renderText t depth).
Proof. intros. unfold renderer.renderText. success. Qed.

Lemma renderNode_noErr : forall n depth, noErr (renderer.renderNode n depth).
Proof.
  apply (Node_tree_ind
           (fun n => forall depth, noErr (renderer.renderNode n depth))
           (fun _ => True)
           (fun l => forall depth, noErr (renderer.renderList l depth))
           (fun i => forall depth, noErr (renderer.renderListItem i depth)));
    try (intros; cbn [renderer.renderNode]; auto using noErr_ret,
           renderHeading_noErr, renderParagraph_noErr, renderCodeBlock_noErr,
           renderText_noErr; fail).
  - intros ordered items marker Hitems depth. cbn [renderer.renderList].
    apply noErr_bind_err; [|no_err].
    apply noErr_forRange. eapply Forall_impl; [|exact Hitems]. auto.
  - intros text marker children Hch depth. cbn [renderer.renderListItem].
    no_err. destruct (Z.of_nat (length children) >? 0); no_err.
    apply noErr_forRange. eapply Forall_impl; [|exact Hch]. auto.
Qed.

Lemma renderNode_succeeds : forall n depth,
  nodeWritable n = true -> succeeds (renderer.renderNode n depth).
Proof.
  intros n. 
  apply (Node_tree_ind
           (fun n => forall depth, nodeWritable n = true ->
                                   succeeds (renderer.renderNode n depth))
           (fun _ => True)
           (fun l => forall depth, listWritable l = true ->
                                   succeeds (renderer.renderList l depth))
           (fun i => forall depth, itemWritable i = true ->
                                   succeeds (renderer.renderListItem i depth)));
    try (intros; cbn [renderer.renderNode]; auto using succeeds_ret,
           renderHeading_succeeds, renderParagraph_succeeds,
           renderCodeBlock_succeeds, renderText_succeeds; fail).
  - intros ordered items marker Hitems depth Hw. cbn [renderer.renderList].
    cbn [listWritable] in Hw. rewrite forallb_forall in Hw.
    apply succeeds_bind_err; [|success].
    apply succeeds_forRange. rewrite Forall_forall in *.
    intros x Hx. apply Hitems; auto.
  - intros text marker children Hch depth Hw. cbn [renderer.renderListItem].
    cbn [itemWritable] in Hw. rewrite forallb_forall in Hw.
    apply succeeds_bind.
    { destruct (Z.gtb_spec depth 1); [apply runs_Repeat; lia | runs_step]. }
    intros indent. apply succeeds_bind.
    { destruct (streq marker "");
        [apply runs_bind; [runs_step | intros; runs_step] | runs_step]. }
    intros marker'. success.
    destruct (Z.of_nat (length children) >? 0); success.
    apply succeeds_forRange. rewrite Forall_forall in *.
    intros x Hx. apply Hch; auto.
Qed.




(** ** The order of the rules *)

Lemma bubble_In : forall f before x,
  In x (formatter.bubble f before) -> x = f \/ In x before.
Proof.
  induction before as [|g rest IH]; intros x H; cbn [formatter.bubble] in H.
  - destruct H as [<-|[]]. now left.
  - destruct (formatter.Priority f >? formatter.Priority g).
    + destruct H as [<-|H]; [right; now left|].
      destruct (IH x H) as [->|Hin]; [now left | right; now right].
    + destruct H as [<-|H]; [now left | now right].
Qed.

(** [Register] keeps the rule list in priority order, highest first: read
    from its end, the priorities never decrease. *)
Lemma Register_priority_order : forall (e : formatter.Engine) f,
  StronglySorted (fun a b => formatter.Priority a <= formatter.Priority b)
                 (rev (formatter.formatters e)) ->
  StronglySorted (fun a b => formatter.Priority a <= formatter.Priority b)
                 (rev (formatter.formatters (formatter.Register e f))).
Proof.
  intros e f. unfold formatter.Register. cbn [formatter.formatters].
  rewrite rev_involutive.
  induction (rev (formatter.formatters e)) as [|g rest IH]; intros Hs;
    cbn [formatter.bubble].
  - repeat constructor.
  - inversion Hs as [|? ? Hrest Hg]; subst.
    destruct (Z.gtb_spec (formatter.Priority f) (formatter.Priority g)).
    + constructor; [now apply IH|].
      apply Forall_forall. intros x Hx.
      apply bubble_In in Hx as [->|Hx]; [lia|].
      rewrite Forall_forall in Hg. now apply Hg.
    + constructor; [assumption|].
      constructor; [lia|].
      eapply Forall_impl; [|exact Hg]. cbn. intros b Hb. lia.
Qed.

(** ** The pass of the engine *)

Lemma formatNodes_length : forall fs cfg todo i,
  length (formatter.visited (formatter.formatNodes fs cfg todo i))
  = length todo.
Proof.
  induction todo as [|node rest IH]; intros i; cbn [formatter.formatNodes];
    [reflexivity|].
  destruct (formatter.applyFirst fs 0 node cfg) as [[k [node' [err|]]]|];
    cbn [formatter.visited length]; try rewrite IH; reflexivity.
Qed.

(** The events of a pass carry the walker positions of the nodes it was
    given, in increasing order. *)
Lemma formatNodes_positions : forall fs cfg todo i,
  Forall (fun ev : formatter.Event => (i <= fst ev < i + length todo)%nat)
         (formatter.applied (formatter.formatNodes fs cfg todo i)).
Proof.
  induction todo as [|node rest IH]; intros i; cbn [formatter.formatNodes].
  - constructor.
  - destruct (formatter.applyFirst fs 0 node cfg) as [[k [node' [err|]]]|];
      cbn [formatter.applied length].
    + constructor; [cbn; lia | constructor].
    + constructor; [cbn; lia|].
      eapply Forall_impl; [|apply IH]. cbn. intros ev H. lia.
    + eapply Forall_impl; [|apply IH]. cbn. intros ev H. lia.
Qed.

(** A pass over [pre ++ rest] that meets no error on [pre] is the pass
    over [pre] followed by the pass over [rest]. *)
Lemma formatNodes_app : forall fs cfg pre rest i,
  formatter.failure (formatter.formatNodes fs cfg pre i) = None ->
  formatter.formatNodes fs cfg (pre ++ rest) i
  = {| formatter.visited :=
         formatter.visited (formatter.formatNodes fs cfg pre i)
         ++ formatter.visited (formatter.formatNodes fs cfg rest (i + length pre));
       formatter.failure :=
         formatter.failure (formatter.formatNodes fs cfg rest (i + length pre));
       formatter.applied :=
         formatter.applied (formatter.formatNodes fs cfg pre i)
         ++ formatter.applied (formatter.formatNodes fs cfg rest (i + length pre)) |}.
Proof.
  induction pre as [|node pre IH]; intros rest i Hok.
  - cbn [app formatter.formatNodes formatter.visited formatter.applied length].
    rewrite Nat.add_0_r. now destruct (formatter.formatNodes fs cfg rest i).
  - cbn [app formatter.formatNodes length] in *.
    replace (i + S (length pre))%nat with (S i + length pre)%nat by lia.
    destruct (formatter.applyFirst fs 0 node cfg) as [[k [node' [err|]]]|];
      cbn [formatter.failure formatter.visited formatter.applied] in *.
    + discriminate.
    + rewrite (IH rest (S i) Hok). reflexivity.
    + rewrite (IH rest (S i) Hok). reflexivity.
Qed.

(** When the first applicable rule of every node is known and none fails,
    the pass visits the nodes one after the other, one rule each. *)
Lemma formatNodes_total :
  forall fs cfg (rule : parser.Node -> nat) (fmt : parser.Node -> parser.Node),
    (forall node,
        formatter.applyFirst fs 0 node cfg = Some (rule node, (fmt node, None))) ->
    forall todo i,
      formatter.formatNodes fs cfg todo i
      = {| formatter.visited := map fmt todo;
           formatter.failure := None;
           formatter.applied := combine (seq i (length todo)) (map rule todo) |}.
Proof.
  intros fs cfg rule fmt Hrule.
  induction todo as [|node rest IH]; intros i; cbn [formatter.formatNodes];
    [reflexivity|].
  rewrite Hrule, IH. reflexivity.
Qed.

(** ** The built-in rules report no error *)

Section ListRuleNoError.
Variable again : parser.List -> config.Config -> parser.List * option error.
Hypothesis again_ok : forall l cfg, snd (again l cfg) = None.

Lemma nestedLoop_ok : forall cfg children,
  snd (formatter.nestedLoop again cfg children) = None.
Proof.
  induction children as [|child rest IH]; cbn [formatter.nestedLoop];
    [reflexivity|].
  destruct (formatter.nestedLoop again cfg rest) as [rest' err].
  cbn [snd] in IH. subst err.
  destruct child; try reflexivity.
  pose proof (again_ok l cfg) as H.
  destruct (again l cfg) as [l' [e|]]; [discriminate | reflexivity].
Qed.

Lemma processNestedLists_ok : forall item cfg,
  snd (formatter.processNestedLists again item cfg) = None.
Proof.
  intros item cfg. unfold formatter.processNestedLists.
  pose proof (nestedLoop_ok cfg (parser.ListItem_Children item)) as H.
  destruct (formatter.nestedLoop again cfg _) as [ch err]. exact H.
Qed.

Lemma itemsLoop_ok : forall cfg items,
  snd (formatter.itemsLoop again cfg items) = None.
Proof.
  induction items as [|item rest IH]; cbn [formatter.itemsLoop];
    [reflexivity|].
  match goal with
  | |- context [formatter.processNestedLists again ?it cfg] =>
      pose proof (processNestedLists_ok it cfg) as H;
      destruct (formatter.processNestedLists again it cfg) as [item' [e|]]
  end; [discriminate|].
  destruct (formatter.itemsLoop again cfg rest) as [rest' err]. exact IH.
Qed.

Lemma formatList_ok : forall l cfg,
  snd (formatter.formatList again l cfg) = None.
Proof.
  intros l cfg. unfold formatter.formatList, formatter.processListItems.
  match goal with
  | |- context [formatter.itemsLoop again cfg ?items] =>
      pose proof (itemsLoop_ok cfg items) as H;
      destruct (formatter.itemsLoop again cfg items) as [items' err]
  end. exact H.
Qed.

End ListRuleNoError.

Lemma formatListTo_ok : forall depth l cfg,
  snd (formatter.formatListTo depth l cfg) = None.
Proof.
  induction depth as [|d IH]; intros l cfg; cbn [formatter.formatListTo];
    [reflexivity|].
  apply formatList_ok. exact IH.
Qed.

Lemma ListFormatter_Format_ok : forall node cfg,
  snd (formatter.ListFormatter_Format node cfg) = None.
Proof.
  intros node cfg. unfold formatter.ListFormatter_Format.
  destruct node; try reflexivity.
  - pose proof (formatListTo_ok (formatter.nestingList l) l cfg) as H.
    unfold formatter.ListFormatter_formatList.
    destruct (formatter.formatListTo _ l cfg) as [l' err]. exact H.
  - unfold formatter.formatListItem.
    match goal with
    | |- context [formatter.processNestedLists ?a ?it cfg] =>
        pose proof (processNestedLists_ok a
                      (fun l c => formatListTo_ok _ l c) it cfg) as H;
        destruct (formatter.processNestedLists a it cfg) as [i' err]
    end. exact H.
Qed.

(** ** The rules of [formatter.New] *)

Lemma New_formatters :
  formatter.formatters formatter.New
  = [formatter.HeadingFormatter formatter.zeroBase;
     formatter.ParagraphFormatter formatter.zeroBase;
     formatter.ListFormatter formatter.zeroBase;
     formatter.CodeBlockFormatter formatter.zeroBase;
     formatter.InlineFormatter formatter.zeroBase;
     formatter.WhitespaceFormatter formatter.zeroBase].
Proof. reflexivity. Qed.

Lemma builtin_Format_ok : forall node cfg k,
  snd (formatter.Format
         (nth k (formatter.formatters formatter.New)
              (formatter.WhitespaceFormatter formatter.zeroBase)) node cfg)
  = None.
Proof.
  intros node cfg k. rewrite New_formatters.
  do 6 (destruct k as [|k];
        [cbn [nth formatter.Format formatter.HeadingFormatter
                formatter.ParagraphFormatter formatter.ListFormatter
                formatter.CodeBlockFormatter formatter.InlineFormatter
                formatter.WhitespaceFormatter];
         try apply ListFormatter_Format_ok;
         try (destruct node; reflexivity);
         try (unfold formatter.WhitespaceFormatter_Format;
              destruct node;
              destruct (config.TrimTrailingSpaces (config.Whitespace cfg));
              reflexivity)
        |]).
  destruct k; cbn [nth formatter.Format formatter.WhitespaceFormatter];
    unfold formatter.WhitespaceFormatter_Format;
    destruct node;
    destruct (config.TrimTrailingSpaces (config.Whitespace cfg));
    reflexivity.
Qed.

Lemma applyFirst_New : forall node cfg,
  formatter.applyFirst (formatter.formatters formatter.New) 0 node cfg
  = Some (ruleFor (parser.Type_ node), (formatByRule cfg node, None)).
Proof.
  intros node cfg.
  pose proof (builtin_Format_ok node cfg (ruleFor (parser.Type_ node))) as Hok.
  unfold formatByRule.
  destruct (formatter.Format _ node cfg) as [node' err] eqn:HF.
  cbn [snd fst] in *. subst err.
  rewrite New_formatters in *.
  unfold ruleFor in *.
  cbn [formatter.applyFirst formatter.CanFormat formatter.HeadingFormatter
         formatter.ParagraphFormatter formatter.ListFormatter
         formatter.CodeBlockFormatter formatter.InlineFormatter
         formatter.WhitespaceFormatter].
  unfold formatter.HeadingFormatter_CanFormat,
    formatter.ParagraphFormatter_CanFormat, formatter.ListFormatter_CanFormat,
    formatter.CodeBlockFormatter_CanFormat, formatter.InlineFormatter_CanFormat,
    formatter.WhitespaceFormatter_CanFormat.
  destruct (parser.Type_ node =? parser.NodeHeading) eqn:E1;
    [cbn [nth headingRule] in HF; now rewrite <- HF|].
  destruct (parser.Type_ node =? parser.NodeParagraph) eqn:E2;
    [cbn [nth paragraphRule] in HF; now rewrite <- HF|].
  destruct ((parser.Type_ node =? parser.NodeList)
            || (parser.Type_ node =? parser.NodeListItem)) eqn:E3;
    [cbn [nth listRule] in HF; now rewrite <- HF|].
  destruct (parser.Type_ node =? parser.NodeCodeBlock) eqn:E4;
    [cbn [nth codeBlockRule] in HF; now rewrite <- HF|].
  destruct (parser.Type_ node =? parser.NodeText) eqn:E5.
  - cbn [orb]. cbn [nth inlineRule] in HF. now rewrite <- HF.
  - cbn [orb]. cbn [nth whitespaceRule] in HF. now rewrite <- HF.
Qed.

Lemma applyFirst_app : forall fs gs k0 node cfg r,
  formatter.applyFirst fs k0 node cfg = Some r ->
  formatter.applyFirst (fs ++ gs) k0 node cfg = Some r.
Proof.
  induction fs as [|f fs IH]; intros gs k0 node cfg r H;
    cbn [app formatter.applyFirst] in *; [discriminate|].
  destruct (formatter.CanFormat f (parser.Type_ node)); [assumption|].
  now apply IH.
Qed.

(** [formatMarkdownContent] registers the defaults a second time: the six
    rules appear twice, and the second copies are never reached. *)
Lemma applyFirst_registered_twice : forall node cfg,
  formatter.applyFirst
    (formatter.formatters (formatter.RegisterDefaults formatter.New)) 0 node cfg
  = formatter.applyFirst (formatter.formatters formatter.New) 0 node cfg.
Proof.
  intros node cfg.
  change (formatter.formatters (formatter.RegisterDefaults formatter.New))
    with (formatter.formatters formatter.New
          ++ formatter.formatters formatter.New).
  rewrite (applyFirst_New node cfg). apply applyFirst_app, applyFirst_New.
Qed.

Lemma applyFirst_first : forall fs k0 node cfg k res,
  formatter.applyFirst fs k0 node cfg = Some (k, res) ->
  (k0 <= k)%nat
  /\ exists f,
      nth_error fs (k - k0) = Some f
      /\ formatter.CanFormat f (parser.Type_ node) = true
      /\ res = formatter.Format f node cfg
      /\ forall j g, (j < k - k0)%nat -> nth_error fs j = Some g ->
                     formatter.CanFormat g (parser.Type_ node) = false.
Proof.
  induction fs as [|f0 rest IH]; intros k0 node cfg k res H;
    cbn [formatter.applyFirst] in H; [discriminate|].
  destruct (formatter.CanFormat f0 (parser.Type_ node)) eqn:Hcan.
  - inversion H; subst. split; [lia|]. exists f0.
    rewrite Nat.sub_diag. repeat split; try assumption.
    intros j g Hj. lia.
  - apply IH in H as (Hle & f & Hnth & Hf & Hres & Hbefore).
    split; [lia|]. exists f.
    replace (k - k0)%nat with (S (k - S k0)) by lia.
    repeat split; try assumption.
    intros [|j] g Hj Hg; cbn [nth_error] in Hg.
    + now inversion Hg; subst.
    + apply (Hbefore j g); [lia | assumption].
Qed.

Lemma in_combine_seq : forall (A : Type) (f : A -> nat) l s j k,
  In (j, k) (combine (seq s (length l)) (map f l))
  <-> (s <= j)%nat /\ exists x, nth_error l (j - s) = Some x /\ k = f x.
Proof.
  intros A f. induction l as [|a l IH]; intros s j k; cbn [length seq map combine].
  - split; [intros [] | intros (_ & x & H & _)].
    now destruct (j - s)%nat.
  - cbn [In]. rewrite IH. split.
    + intros [H | (Hle & x & Hx & Hk)].
      * inversion H; subst. split; [lia|]. exists a.
        rewrite Nat.sub_diag. now split.
      * split; [lia|]. exists x.
        replace (j - s)%nat with (S (j - S s)) by lia. now split.
    + intros (Hle & x & Hx & Hk).
      destruct (Nat.eq_dec j s) as [->|Hne].
      * left. rewrite Nat.sub_diag in Hx. cbn in Hx. inversion Hx; subst.
        reflexivity.
      * right. split; [lia|]. exists x.
        replace (j - s)%nat with (S (j - S s)) in Hx by lia. now split.
Qed.

(** ** C2: which nodes a pass visits *)

Lemma Engine_pass_New : forall doc cfg,
  formatter.Engine_pass formatter.New doc cfg
  = {| formatter.visited :=
         map (formatByRule cfg) (parser.NDocument doc :: parser.Document_Children doc);
       formatter.failure := None;
       formatter.applied :=
         combine (seq 0 (S (length (parser.Document_Children doc))))
                 (map (fun n => ruleFor (parser.Type_ n))
                      (parser.NDocument doc :: parser.Document_Children doc)) |}.
Proof.
  intros doc cfg. unfold formatter.Engine_pass.
  rewrite (formatNodes_total _ cfg (fun n => ruleFor (parser.Type_ n))
             (formatByRule cfg) (fun node => applyFirst_New node cfg)).
  reflexivity.
Qed.

Lemma applyFirst_some : forall fs k0 node cfg,
  (exists f, In f fs /\ formatter.CanFormat f (parser.Type_ node) = true) ->
  exists k res, formatter.applyFirst fs k0 node cfg = Some (k, res).
Proof.
  induction fs as [|f0 fs IH]; intros k0 node cfg (f & Hin & Hcan);
    [destruct Hin|].
  cbn [formatter.applyFirst].
  destruct (formatter.CanFormat f0 (parser.Type_ node)) eqn:H0;
    [now eexists _, _|].
  destruct Hin as [->|Hin]; [congruence|].
  apply IH. now exists f.
Qed.

(** The pass over [todo], whose first node has walker position [i]:
    positions increase, every application is the first applicable rule on
    the node at that position, and without a failure every node that some
    rule can format is reached. *)
Lemma formatNodes_spec : forall fs cfg todo i,
  let p := formatter.formatNodes fs cfg todo i in
  StronglySorted lt (map fst (formatter.applied p))
  /\ (forall j k, In (j, k) (formatter.applied p) ->
                  (i <= j)%nat
                  /\ exists node res,
                      nth_error todo (j - i) = Some node
                      /\ formatter.applyFirst fs 0 node cfg = Some (k, res)
                      /\ nth_error (formatter.visited p) (j - i) = Some (fst res))
  /\ (formatter.failure p = None ->
      forall j node k res,
        nth_error todo j = Some node ->
        formatter.applyFirst fs 0 node cfg = Some (k, res) ->
        In ((i + j)%nat, k) (formatter.applied p)).
Proof.
  intros fs cfg. induction todo as [|node rest IH]; intros i;
    cbn [formatter.formatNodes].
  - cbn. repeat split; try constructor; try contradiction.
    intros _ [|j] node k res H; discriminate H.
  - destruct (IH (S i)) as (Hsorted & Hin & Hall).
    pose proof (formatNodes_positions fs cfg rest (S i)) as Hpos.
    destruct (formatter.applyFirst fs 0 node cfg) as [[k [node' [err|]]]|] eqn:Hfirst;
      cbn [formatter.applied formatter.visited formatter.failure map fst].
    + repeat split.
      * repeat constructor.
      * destruct H as [H|[]]. inversion H; subst. lia.
      * destruct H as [H|[]]. inversion H; subst.
        rewrite Nat.sub_diag. exists node, (node', Some err).
        repeat split; [exact Hfirst].
      * discriminate.
    + repeat split.
      * constructor; [assumption|].
        rewrite Forall_map. eapply Forall_impl; [|exact Hpos].
        cbn. intros ev H. lia.
      * destruct H as [H|H]; [inversion H; subst; lia|].
        apply Hin in H as (Hle & _). lia.
      * destruct H as [H|H].
        -- inversion H; subst. rewrite Nat.sub_diag.
           exists node, (node', None). repeat split; [exact Hfirst].
        -- apply Hin in H as (Hle & node0 & res & Hn & Ha & Hv).
           replace (j - i)%nat with (S (j - S i)) by lia. now exists node0, res.
      * intros Hok [|j] node0 k0 res Hn Ha; cbn [nth_error] in Hn.
        -- inversion Hn; subst. rewrite Hfirst in Ha. inversion Ha; subst.
           left. f_equal. lia.
        -- right. replace (i + S j)%nat with (S i + j)%nat by lia.
           now apply (Hall Hok j node0 k0 res).
    + repeat split.
      * assumption.
      * apply Hin in H as (Hle & _). lia.
      * apply Hin in H as (Hle & node0 & res & Hn & Ha & Hv).
        replace (j - i)%nat with (S (j - S i)) by lia. now exists node0, res.
      * intros Hok [|j] node0 k0 res Hn Ha; cbn [nth_error] in Hn.
        -- inversion Hn; subst. congruence.
        -- replace (i + S j)%nat with (S i + j)%nat by lia.
           now apply (Hall Hok j node0 k0 res).
Qed.

(** C2, as the code has it.  A call of [Engine.Format] visits the nodes
    the walker holds, that is the root document and then its top-level
    nodes, in order, and no node below them.  To each visited node it
    applies at most one rule, the first of the rule list that can format
    the node's type, and the node becomes what that rule makes of it; if
    no rule fails, every such node that some rule can format is visited.
    ([applied] lists the pairs of walker position and rule position,
    [visited] the walker's nodes as the pass leaves them.) *)
Theorem C2_walk_root_and_top_level :
  forall (e : formatter.Engine) (doc : parser.Document) (cfg : config.Config),
    let nodes := parser.NDocument doc :: parser.Document_Children doc in
    let p := formatter.Engine_pass e doc cfg in
    length (formatter.visited p) = length nodes
    /\ StronglySorted lt (map fst (formatter.applied p))
    /\ (forall i k,
          In (i, k) (formatter.applied p) ->
          exists node f,
            nth_error nodes i = Some node
            /\ nth_error (formatter.formatters e) k = Some f
            /\ formatter.CanFormat f (parser.Type_ node) = true
            /\ (forall j g,
                  (j < k)%nat ->
                  nth_error (formatter.formatters e) j = Some g ->
                  formatter.CanFormat g (parser.Type_ node) = false)
            /\ nth_error (formatter.visited p) i
               = Some (fst (formatter.Format f node cfg)))
    /\ (formatter.failure p = None ->
        forall i node,
          nth_error nodes i = Some node ->
          (exists f, In f (formatter.formatters e)
                     /\ formatter.CanFormat f (parser.Type_ node) = true) ->
          exists k, In (i, k) (formatter.applied p)).
Proof.
  intros e doc cfg nodes p.
  destruct (formatNodes_spec (formatter.formatters e) cfg nodes 0)
    as (Hsorted & Hin & Hall).
  change (formatter.formatNodes (formatter.formatters e) cfg nodes 0)
    with p in *.
  split; [apply formatNodes_length|]. split; [assumption|]. split.
  - intros i k H. apply Hin in H as (_ & node & res & Hn & Ha & Hv).
    rewrite Nat.sub_0_r in *.
    apply applyFirst_first in Ha as (_ & f & Hf & Hcan & -> & Hbefore).
    rewrite Nat.sub_0_r in *.
    exists node, f. repeat split; assumption.
  - intros Hok i node Hn Hsome.
    destruct (applyFirst_some _ 0 node cfg Hsome) as (k & res & Ha).
    exists k. apply (Hall Hok i node k res Hn Ha).
Qed.

Lemma C2_walk_root_and_top_level_witness :
  formatter.failure
    (formatter.Engine_pass formatter.New document_sample config.Default) = None
  /\ nth_error (parser.NDocument document_sample
                :: parser.Document_Children document_sample) 1
     = Some (parser.NHeading heading_level9)
  /\ (exists f, In f (formatter.formatters formatter.New)
                /\ formatter.CanFormat f
                     (parser.Type_ (parser.NHeading heading_level9)) = true)
  /\ exists k,
      In (1%nat, k)
         (formatter.applied
            (formatter.Engine_pass formatter.New document_sample config.Default)).
Proof.
  assert (Hsome : exists f, In f (formatter.formatters formatter.New)
                            /\ formatter.CanFormat f
                                 (parser.Type_ (parser.NHeading heading_level9))
                               = true).
  { exists (formatter.HeadingFormatter formatter.zeroBase).
    split; [now left | reflexivity]. }
  split; [reflexivity|]. split; [reflexivity|]. split; [exact Hsome|].
  exact (proj2 (proj2 (proj2 (C2_walk_root_and_top_level formatter.New
                                document_sample config.Default)))
           eq_refl 1%nat (parser.NHeading heading_level9) eq_refl Hsome).
Defined.

(** The claim as stated fails on [document_sample]: the tree has ten
    nodes, the pass applies five rules (root and four top-level nodes);
    the heading nested in the first list item keeps level 9 and its
    padded text, though the first rule that can format a heading would
    rewrite it. *)
Lemma C2_counterexample :
  countDocument document_sample = 10%nat
  /\ length (formatter.applied
               (formatter.Engine_pass formatter.New document_sample
                                      config.Default)) = 5%nat
  /\ nth 2 (parser.Document_Children
              (fst (formatter.Engine_Format formatter.New document_sample
                                            config.Default)))
           (parser.NForeign 0)
     = parser.NList
         (parser.mkList true
            [parser.mkListItem "a b" "1."
               [parser.NList (parser.mkList false [parser.mkListItem "x" "-" []] "-");
                parser.NHeading heading_level9];
             parser.mkListItem "c" "2." []] "*")
  /\ formatByRule config.Default (parser.NHeading heading_level9)
     <> parser.NHeading heading_level9.
Proof.
  split; [reflexivity|]. split; [reflexivity|]. split; [reflexivity|].
  intros H. vm_compute in H. discriminate H.
Qed.

(** ** C4: trailing blanks after a pass *)

Lemma notSpace_notBlank : forall c,
  strings.asciiSpace c = false -> Ascii.eqb c SP || Ascii.eqb c TAB = false.
Proof.
  intros c H.
  destruct (Ascii.eqb_spec c SP) as [->|_]; [discriminate H|].
  destruct (Ascii.eqb_spec c TAB) as [->|_]; [discriminate H|].
  reflexivity.
Qed.

Lemma endsBlank_app : forall a b : gostring,
  b <> [] -> endsBlank (a ++ b) = endsBlank b.
Proof.
  intros a b Hb. unfold endsBlank. rewrite rev_app_distr.
  destruct (rev b) as [|c rb] eqn:Hr; [|reflexivity].
  apply (f_equal (@rev ascii)) in Hr. rewrite rev_involutive in Hr.
  now subst b.
Qed.

Lemma word_endsBlank : forall w, isWord w -> endsBlank w = false.
Proof.
  intros w [_ Hall]. unfold endsBlank.
  destruct (rev w) as [|c rw] eqn:Hr; [reflexivity|].
  apply notSpace_notBlank. rewrite Forall_forall in Hall. apply Hall.
  apply in_rev. rewrite Hr. now left.
Qed.

Lemma Join_words : forall ws,
  Forall isWord ws ->
  ~ In NL (strings.Join ws " ")
  /\ endsBlank (strings.Join ws " ") = false
  /\ (ws <> [] -> strings.Join ws " " <> []).
Proof.
  induction ws as [|w ws IH]; intros Hall.
  - cbn. repeat split; auto.
  - inversion Hall as [|? ? Hw Hws]; subst.
    destruct (IH Hws) as (Hnl & Hend & Hne).
    destruct ws as [|w2 rest].
    + cbn [strings.Join]. repeat split.
      * now apply word_no_NL.
      * now apply word_endsBlank.
      * intros _. apply Hw.
    + change (strings.Join (w :: w2 :: rest) " ")
        with (w ++ " " ++ strings.Join (w2 :: rest) " ").
      assert (Hj : strings.Join (w2 :: rest) " " <> []) by (apply Hne; discriminate).
      repeat split.
      * intros Hin. apply in_app_or in Hin as [Hin|Hin];
          [revert Hin; now apply word_no_NL|].
        apply in_app_or in Hin as [Hin|Hin]; [|now apply Hnl].
        destruct Hin as [Hin|[]]. discriminate.
      * rewrite app_assoc. now rewrite endsBlank_app.
      * intros _ H. apply app_eq_nil in H as [H _]. now apply Hw.
Qed.

Lemma normalizeWhitespace_lines : forall text,
  Forall (fun line => endsBlank line = false)
         (strings.Split (formatter.normalizeWhitespace text) NL).
Proof.
  intros text. unfold formatter.normalizeWhitespace.
  rewrite Split_Join.
  - apply Forall_forall. intros line Hin. apply in_map_iff in Hin as (l & <- & _).
    apply Join_words, Fields_words.
  - pose proof (Split_not_nil text NL) as H.
    destruct (strings.Split text NL); [congruence | discriminate].
  - apply Forall_forall. intros line Hin. apply in_map_iff in Hin as (l & <- & _).
    apply Join_words, Fields_words.
Qed.

Lemma dropSpaces_head : forall width s skip,
  strings.dropSpaces width s skip = []
  \/ width (strings.dropSpaces width s skip) = 0%nat.
Proof.
  intros width. induction s as [|c r IH]; intros skip;
    cbn [strings.dropSpaces]; [now left|].
  destruct skip as [|k]; [|apply IH].
  destruct (width (c :: r)) eqn:Hw; [now right | apply IH].
Qed.

Lemma TrimSpace_endsBlank : forall s, endsBlank (strings.TrimSpace s) = false.
Proof.
  intros s. unfold strings.TrimSpace, endsBlank. rewrite rev_involutive.
  destruct (dropSpaces_head strings.spaceWidthRev
              (rev (strings.dropSpaces strings.spaceWidth s 0)) 0) as [->|H];
    [reflexivity|].
  destruct (strings.dropSpaces strings.spaceWidthRev _ 0) as [|c d];
    [reflexivity|].
  apply notSpace_notBlank. unfold strings.spaceWidthRev in H.
  destruct (strings.asciiSpace c); [discriminate | reflexivity].
Qed.

Lemma nth_map_nth_error : forall (A B : Type) (f : A -> B) l i x d,
  nth_error l i = Some x -> nth i (map f l) d = f x.
Proof.
  intros A B f. induction l as [|a l IH]; intros [|i] x d H; cbn in *;
    try discriminate.
  - now inversion H.
  - now apply IH.
Qed.

(** C4, as the code has it.  In a pass of the engine of [formatter.New],
    whatever trim-trailing-spaces says, the Whitespace rule fires on no
    top-level paragraph, heading or text node, since an earlier rule
    claims each of them and the first match wins.  The Paragraph rule
    leaves a paragraph with no line that ends in a space or a tab; the
    Heading rule trims the heading's text as a whole, so the text does not
    end in a space or a tab; the Inline rule rewrites a text node and does
    not trim it. *)
Theorem C4_whitespace_rule_is_last :
  forall (doc : parser.Document) (cfg : config.Config) (i : nat)
         (node : parser.Node),
    nth_error (parser.Document_Children doc) i = Some node ->
    let p := formatter.Engine_pass formatter.New doc cfg in
    let node' :=
      nth i (parser.Document_Children
               (fst (formatter.Engine_Format formatter.New doc cfg))) node in
    match node with
    | parser.NParagraph _ =>
        In (S i, paragraphRule) (formatter.applied p)
        /\ ~ In (S i, whitespaceRule) (formatter.applied p)
        /\ exists para',
            node' = parser.NParagraph para'
            /\ Forall (fun line => endsBlank line = false)
                      (strings.Split (parser.Paragraph_Text para') NL)
    | parser.NHeading h =>
        In (S i, headingRule) (formatter.applied p)
        /\ ~ In (S i, whitespaceRule) (formatter.applied p)
        /\ exists h',
            node' = parser.NHeading h'
            /\ parser.Heading_Text h' = strings.TrimSpace (parser.Heading_Text h)
            /\ endsBlank (parser.Heading_Text h') = false
    | parser.NText t =>
        In (S i, inlineRule) (formatter.applied p)
        /\ ~ In (S i, whitespaceRule) (formatter.applied p)
        /\ node' = parser.NText
                     {| parser.Text_Content :=
                          formatter.normalizeInlineElements (parser.Text_Content t) |}
    | _ => True
    end.
Proof.
  intros doc cfg i node Hnode p node'.
  assert (Hev : forall k, In (S i, k) (formatter.applied p)
                          <-> k = ruleFor (parser.Type_ node)).
  { intros k. subst p. rewrite Engine_pass_New. cbn [formatter.applied].
    change (S (length (parser.Document_Children doc)))
      with (length (parser.NDocument doc :: parser.Document_Children doc)).
    rewrite in_combine_seq. rewrite Nat.sub_0_r. cbn [nth_error].
    rewrite Hnode. split.
    - intros (_ & x & Hx & ->). now inversion Hx.
    - intros ->. split; [lia|]. now exists node. }
  assert (Hnode' : node' = formatByRule cfg node).
  { subst node'. unfold formatter.Engine_Format.
    fold p. subst p. rewrite Engine_pass_New.
    cbn [fst formatter.visited map tl parser.Document_Children].
    now apply nth_map_nth_error. }
  destruct node as [d|h|para|l|it|c|t|ty]; try exact I.
  - split; [now apply Hev|]. split.
    { intros H. apply Hev in H. discriminate H. }
    eexists. split; [rewrite Hnode'; reflexivity|].
    split; [reflexivity | apply TrimSpace_endsBlank].
  - split; [now apply Hev|]. split.
    { intros H. apply Hev in H. discriminate H. }
    eexists. split; [rewrite Hnode'; reflexivity|].
    cbn [parser.Paragraph_Text]. apply normalizeWhitespace_lines.
  - split; [now apply Hev|]. split.
    { intros H. apply Hev in H. discriminate H. }
    rewrite Hnode'. reflexivity.
Qed.

Lemma C4_whitespace_rule_is_last_witness :
  nth_error (parser.Document_Children document_blanks) 2
  = Some (parser.NParagraph {| parser.Paragraph_Text := "foo   bar  " |})
  /\ In (3%nat, paragraphRule)
        (formatter.applied
           (formatter.Engine_pass formatter.New document_blanks config.Default))
  /\ ~ In (3%nat, whitespaceRule)
          (formatter.applied
             (formatter.Engine_pass formatter.New document_blanks config.Default))
  /\ exists para',
      nth 2 (parser.Document_Children
               (fst (formatter.Engine_Format formatter.New document_blanks
                                             config.Default)))
            (parser.NParagraph {| parser.Paragraph_Text := "foo   bar  " |})
      = parser.NParagraph para'
      /\ Forall (fun line => endsBlank line = false)
                (strings.Split (parser.Paragraph_Text para') NL).
Proof.
  split; [reflexivity|].
  apply (C4_whitespace_rule_is_last document_blanks config.Default 2
           (parser.NParagraph {| parser.Paragraph_Text := "foo   bar  " |})).
  reflexivity.
Defined.

(** The claim as stated fails on [document_blanks] with
    trim-trailing-spaces enabled: the Whitespace rule fires on the root
    only; the text node is still "txt" followed by two spaces, and the
    first line of the heading still ends in a space. *)
Lemma C4_counterexample :
  config.TrimTrailingSpaces (config.Whitespace config.Default) = true
  /\ formatter.applied
       (formatter.Engine_pass formatter.New document_blanks config.Default)
     = [(0%nat, whitespaceRule); (1%nat, inlineRule); (2%nat, headingRule);
        (3%nat, paragraphRule)]
  /\ fst (formatter.Engine_Format formatter.New document_blanks config.Default)
     = parser.mkDocument
         [parser.NText {| parser.Text_Content := "txt  " |};
          parser.NHeading {| parser.Heading_Level := 1;
                             parser.Heading_Text := "a " ++ [NL] ++ "b";
                             parser.Heading_Style := "atx" |};
          parser.NParagraph {| parser.Paragraph_Text := "foo bar" |}]
  /\ existsb endsBlank (strings.Split "txt  " NL) = true
  /\ existsb endsBlank (strings.Split ("a " ++ [NL] ++ "b") NL) = true.
Proof.
  repeat split; reflexivity.
Qed.

(** ** C8: a failing rule *)

(** C8.  When, in a pass of any engine, the first applicable rule of a
    node fails (and none failed before), [Engine.Format] returns that
    error, the failing application is the last one of the pass, every
    node after the failing one is left as it was, and
    [formatMarkdownContent] returns the error, wrapped, with no text:
    nothing is rendered. *)
Theorem C8_failure_aborts_pass :
  forall (e : formatter.Engine) (cfg : config.Config) (doc : parser.Document)
         (pre post : list parser.Node) (node node' : parser.Node)
         (k : nat) (err : error),
    parser.remaining (parser.NewWalker doc) = pre ++ node :: post ->
    formatter.failure (formatter.formatNodes (formatter.formatters e) cfg pre 0)
    = None ->
    formatter.applyFirst (formatter.formatters e) 0 node cfg
    = Some (k, (node', Some err)) ->
    let p := formatter.Engine_pass e doc cfg in
    snd (formatter.Engine_Format e doc cfg) = Some err
    /\ (exists before,
           formatter.applied p = before ++ [(length pre, k)]
           /\ Forall (fun ev : formatter.Event => (fst ev < length pre)%nat) before)
    /\ (exists pre',
           formatter.visited p = pre' ++ node' :: post
           /\ length pre' = length pre)
    /\ forall (parse : Parser) (content : gostring),
        Parse parse content = (doc, None) ->
        formatMarkdownContentWith parse e content cfg
        = Returned ("", Some ("failed to format document: " ++ err)).
Proof.
  intros e cfg doc pre post node node' k err Hwalk Hpre Hfail p.
  assert (Hp : p = {| formatter.visited :=
                        formatter.visited
                          (formatter.formatNodes (formatter.formatters e) cfg pre 0)
                        ++ node' :: post;
                      formatter.failure := Some err;
                      formatter.applied :=
                        formatter.applied
                          (formatter.formatNodes (formatter.formatters e) cfg pre 0)
                        ++ [(length pre, k)] |}).
  { subst p. unfold formatter.Engine_pass. rewrite Hwalk.
    rewrite formatNodes_app by assumption.
    cbn [formatter.formatNodes Nat.add]. rewrite Hfail. reflexivity. }
  assert (Hret : snd (formatter.Engine_Format e doc cfg) = Some err).
  { unfold formatter.Engine_Format. fold p. now rewrite Hp. }
  split; [assumption|]. split; [|split].
  - eexists. rewrite Hp. split; [reflexivity|].
    eapply Forall_impl; [|apply formatNodes_positions].
    cbn. intros ev H. lia.
  - eexists. rewrite Hp. split; [reflexivity|]. apply formatNodes_length.
  - intros parse content Hparse. unfold formatMarkdownContentWith.
    rewrite Hparse.
    destruct (formatter.Engine_Format e doc cfg) as [doc' ferr].
    cbn [snd] in Hret. now subst ferr.
Qed.

Lemma C8_failure_aborts_pass_witness :
  let p := formatter.Engine_pass strictEngine document_empty_paragraph
                                 config.Default in
  snd (formatter.Engine_Format strictEngine document_empty_paragraph
                               config.Default)
  = Some "empty paragraph"
  /\ (exists before,
         formatter.applied p = before ++ [(2%nat, 0%nat)]
         /\ Forall (fun ev : formatter.Event => (fst ev < 2)%nat) before)
  /\ (exists pre',
         formatter.visited p
         = pre' ++ parser.NParagraph {| parser.Paragraph_Text := "" |}
                :: [parser.NText {| parser.Text_Content := "after  " |}]
         /\ length pre' = 2%nat)
  /\ forall (parse : Parser) (content : gostring),
      Parse parse content = (document_empty_paragraph, None) ->
      formatMarkdownContentWith parse strictEngine content config.Default
      = Returned ("", Some ("failed to format document: " ++ "empty paragraph")).
Proof.
  apply (C8_failure_aborts_pass strictEngine config.Default
           document_empty_paragraph
           [parser.NDocument document_empty_paragraph;
            parser.NHeading heading_level9]
           [parser.NText {| parser.Text_Content := "after  " |}]
           (parser.NParagraph {| parser.Paragraph_Text := "" |})
           (parser.NParagraph {| parser.Paragraph_Text := "" |})
           0%nat "empty paragraph").
  - reflexivity.
  - reflexivity.
  - reflexivity.
Defined.

(** ** C3: links and reflow *)

Lemma tokenizeLoop_keeps : forall text matches tokens lastEnd,
  incl tokens (fst (renderer.tokenizeLoop text matches tokens lastEnd))
  /\ forall m, In m matches ->
               In (renderer.slice text (fst m) (snd m))
                  (fst (renderer.tokenizeLoop text matches tokens lastEnd)).
Proof.
  intros text. induction matches as [|[start end_] rest IH];
    intros tokens lastEnd; cbn [renderer.tokenizeLoop fst].
  - split; [apply incl_refl | intros m []].
  - match goal with
    | |- context [renderer.tokenizeLoop text rest ?t ?e] =>
        destruct (IH t e) as [Hincl Hrest];
        assert (Hlink : In (renderer.slice text start end_) t)
          by (apply in_or_app; right; now left);
        assert (Hold : incl tokens t)
          by (destruct (start >? lastEnd); intros x Hx;
              repeat (apply in_or_app; left); assumption)
    end.
    split.
    + intros x Hx. apply Hincl. now apply Hold.
    + intros m [<-|Hm]; [apply Hincl; exact Hlink | now apply Hrest].
Qed.

(** The renderer keeps every match of the link pattern as one token. *)
Lemma tokenizeWithLinks_keeps_matches : forall text start end_,
  In (start, end_)
     (regexp.FindAllStringIndex (regexp.MustCompile regexp.linkPattern) text) ->
  In (renderer.slice text start end_) (renderer.tokenizeWithLinks text).
Proof.
  intros text start end_ Hin. unfold renderer.tokenizeWithLinks.
  destruct (tokenizeLoop_keeps text
              (regexp.FindAllStringIndex
                 (regexp.MustCompile regexp.linkPattern) text) [] 0)
    as [_ Hall].
  specialize (Hall _ Hin). cbn [fst snd] in Hall.
  destruct (renderer.tokenizeLoop text _ [] 0) as [tokens lastEnd].
  cbn [fst] in Hall.
  destruct (regexp.FindAllStringIndex _ text); [destruct Hin|].
  destruct (lastEnd <? len text); [apply in_or_app; now left | assumption].
Qed.

(** C3 (the code departs from the claim).  The renderer's [wrapText]
    takes a link construct as one token, but the paragraph rule of the
    engine has a [wrapText] of its own that splits on white space only:
    at width 20 it breaks the first text inside the label of the link,
    between "[the" and "docs]"; at width 10 it breaks the second inside
    the destination, and [formatMarkdownContent] returns the paragraph
    with that break (the renderer repairs breaks in labels only). *)
Theorem C3_engine_reflow_breaks_link :
  renderer.tokenizeWithLinks text_with_link
  = ["Check"; "[the docs](http://example.com/very/long/path)"; "now"]
  /\ renderer.wrapText text_with_link 20
     = "Check" ++ [NL] ++ "[the docs](http://example.com/very/long/path)"
       ++ [NL] ++ "now"
  /\ formatter.ParagraphFormatter_wrapText text_with_link 20
     = "Check [the" ++ [NL] ++ "docs](http://example.com/very/long/path)"
       ++ [NL] ++ "now"
  /\ formatter.ParagraphFormatter_Format
       (parser.NParagraph {| parser.Paragraph_Text := text_with_link |})
       (withLineWidth 20 config.Default)
     = (parser.NParagraph
          {| parser.Paragraph_Text :=
               "Check [the" ++ [NL] ++ "docs](http://example.com/very/long/path)"
               ++ [NL] ++ "now" |}, None)
  /\ formatMarkdownContent
       (parserAnswering
          (parser.mkDocument
             [parser.NParagraph {| parser.Paragraph_Text := text_link_destination |}]))
       "" (withLineWidth 10 config.Default)
     = Returned ("[docs](my" ++ [NL] ++ "file.md)" ++ [NL; NL], None).
Proof.
  repeat split; reflexivity.
Qed.

(** ** The walker and the recursion of the list rule *)

Lemma skipn_nth_error : forall (A : Type) (l : list A) n x,
  nth_error l n = Some x -> skipn n l = x :: skipn (S n) l.
Proof.
  intros A. induction l as [|a l IH]; intros [|n] x H; cbn in *;
    try discriminate.
  - now inversion H.
  - now apply IH.
Qed.

(** [Next] returns the nodes of [remaining] one by one, then reports the
    end: the loop of [Engine.Format] runs over [remaining]. *)
Lemma Next_remaining : forall w : parser.Walker,
  -1 <= parser.index w ->
  match parser.Next w with
  | (Some node, w') =>
      parser.remaining w = node :: parser.remaining w'
      /\ -1 <= parser.index w'
  | (None, w') => parser.remaining w = []
  end.
Proof.
  intros w Hidx. unfold parser.Next, parser.remaining.
  cbn [parser.nodes parser.index].
  destruct (Z.geb_spec (parser.index w + 1) (Z.of_nat (length (parser.nodes w)))).
  - apply skipn_all2. lia.
  - destruct (nth_error (parser.nodes w) (Z.to_nat (parser.index w + 1)))
      as [node|] eqn:Hn.
    + split; [|cbn [parser.index]; lia].
      cbn [parser.index parser.nodes].
      replace (Z.to_nat (parser.index w + 1 + 1))
        with (S (Z.to_nat (parser.index w + 1))) by lia.
      now apply skipn_nth_error.
    + apply nth_error_None in Hn. lia.
Qed.

Lemma fold_max_bound : forall (A : Type) (f : A -> nat) l x,
  In x l -> (f x <= fold_right (fun y acc => Nat.max (f y) acc) 0 l)%nat.
Proof.
  intros A f. induction l as [|a l IH]; intros x H; cbn [fold_right].
  - destruct H.
  - destruct H as [->|H]; [lia|]. specialize (IH x H). lia.
Qed.

Lemma nested_list_smaller : forall ordered items marker item l',
  In item items ->
  In (parser.NList l') (parser.ListItem_Children item) ->
  (formatter.nestingList l'
   < formatter.nestingList (parser.mkList ordered items marker))%nat.
Proof.
  intros ordered items marker item l' Hitem Hchild.
  cbn [formatter.nestingList].
  pose proof (fold_max_bound _ formatter.nestingItem items item Hitem) as H1.
  destruct item as [text m children]. cbn [parser.ListItem_Children] in Hchild.
  pose proof (fold_max_bound _ formatter.nestingNode children _ Hchild) as H2.
  cbn [formatter.nestingItem] in H1. cbn [formatter.nestingNode] in H2. lia.
Qed.

Section ListRuleExtensional.
Variables a1 a2 : parser.List -> config.Config -> parser.List * option error.

Lemma nestedLoop_ext : forall cfg children,
  (forall l', In (parser.NList l') children -> a1 l' cfg = a2 l' cfg) ->
  formatter.nestedLoop a1 cfg children = formatter.nestedLoop a2 cfg children.
Proof.
  induction children as [|child rest IH]; intros H; cbn [formatter.nestedLoop];
    [reflexivity|].
  rewrite IH by (intros l' Hl; apply H; now right).
  destruct child; try reflexivity.
  rewrite (H l) by now left. reflexivity.
Qed.

Lemma itemsLoop_ext : forall cfg items,
  (forall item l', In item items ->
                   In (parser.NList l') (parser.ListItem_Children item) ->
                   a1 l' cfg = a2 l' cfg) ->
  formatter.itemsLoop a1 cfg items = formatter.itemsLoop a2 cfg items.
Proof.
  induction items as [|item rest IH]; intros H; cbn [formatter.itemsLoop];
    [reflexivity|].
  rewrite IH by (intros it l' Hit; apply H; now right).
  unfold formatter.processNestedLists.
  assert (Hn : forall it,
             parser.ListItem_Children it = parser.ListItem_Children item ->
             formatter.nestedLoop a1 cfg (parser.ListItem_Children it)
             = formatter.nestedLoop a2 cfg (parser.ListItem_Children it)).
  { intros it Hit. rewrite Hit. apply nestedLoop_ext.
    intros l' Hl. apply (H item); [now left | assumption]. }
  destruct (config.ConsistentIndentation (config.List cfg));
    rewrite Hn by reflexivity; reflexivity.
Qed.

Lemma setMarker_children : forall marker items item1,
  In item1 (map (formatter.setMarker marker) items) ->
  exists item, In item items
               /\ parser.ListItem_Children item1 = parser.ListItem_Children item.
Proof.
  intros marker items item1 H. apply in_map_iff in H as (item & <- & Hin).
  now exists item.
Qed.

Lemma numberItems_children : forall cfg items i item1,
  In item1 (formatter.numberItems cfg i items) ->
  exists item, In item items
               /\ parser.ListItem_Children item1 = parser.ListItem_Children item.
Proof.
  induction items as [|a items IH]; intros i item1 H;
    cbn [formatter.numberItems] in H; [destruct H|].
  destruct H as [<-|H].
  - exists a. split; [now left | reflexivity].
  - destruct (IH _ _ H) as (item & Hin & Hc). exists item. split; [now right | assumption].
Qed.

Lemma formatList_ext : forall l cfg,
  (forall item l', In item (parser.List_Items l) ->
                   In (parser.NList l') (parser.ListItem_Children item) ->
                   a1 l' cfg = a2 l' cfg) ->
  formatter.formatList a1 l cfg = formatter.formatList a2 l cfg.
Proof.
  intros l cfg H. unfold formatter.formatList, formatter.processListItems.
  destruct (negb (parser.List_Ordered l)).
  - cbn [formatter.formatUnorderedList parser.List_Items].
    rewrite itemsLoop_ext; [reflexivity|].
    intros item1 l' Hin Hl.
    apply setMarker_children in Hin as (item & Hin & Hc).
    rewrite Hc in Hl. now apply (H item).
  - cbn [formatter.formatOrderedList parser.List_Items].
    rewrite itemsLoop_ext; [reflexivity|].
    intros item1 l' Hin Hl.
    apply numberItems_children in Hin as (item & Hin & Hc).
    rewrite Hc in Hl. now apply (H item).
Qed.

End ListRuleExtensional.

Lemma formatListTo_enough : forall n m l cfg,
  (formatter.nestingList l <= n)%nat ->
  (formatter.nestingList l <= m)%nat ->
  formatter.formatListTo n l cfg = formatter.formatListTo m l cfg.
Proof.
  induction n as [|n IH]; intros m l cfg Hn Hm.
  - destruct l. cbn [formatter.nestingList] in Hn. lia.
  - destruct m as [|m]; [destruct l; cbn [formatter.nestingList] in Hm; lia|].
    cbn [formatter.formatListTo]. apply formatList_ext.
    intros item l' Hitem Hchild. destruct l as [ordered items marker].
    cbn [parser.List_Items] in Hitem.
    pose proof (nested_list_smaller ordered items marker item l' Hitem Hchild).
    apply IH; lia.
Qed.

(** The unrolling of [ListFormatter_formatList] is deep enough: the
    function satisfies the recursive equation of the source. *)
Lemma ListFormatter_formatList_unfold : forall l cfg,
  formatter.ListFormatter_formatList l cfg
  = formatter.formatList formatter.ListFormatter_formatList l cfg.
Proof.
  intros l cfg. unfold formatter.ListFormatter_formatList at 1.
  destruct (formatter.nestingList l) as [|k] eqn:Hk;
    [destruct l; discriminate Hk|].
  cbn [formatter.formatListTo]. apply formatList_ext.
  intros item l' Hitem Hchild. destruct l as [ordered items marker].
  cbn [parser.List_Items] in Hitem.
  pose proof (nested_list_smaller ordered items marker item l' Hitem Hchild).
  unfold formatter.ListFormatter_formatList. apply formatListTo_enough; lia.
Qed.

(* ================================================================== *)
(** * Further properties of the code *)

(** ** White space is decided locally *)

Ltac bytes :=
  repeat match goal with
         | |- context [(?a =? ?b)%N] => destruct (N.eqb_spec a b)
         | |- context [(?a <=? ?b)%N] => destruct (N.leb_spec a b)
         | H : context [(?a <? ?b)%N] |- _ => destruct (N.ltb_spec a b)
         end;
  cbn [andb orb]; try reflexivity; try discriminate; try lia.

Lemma asciiSpace_asciiByte : forall c,
  strings.asciiSpace c = true -> asciiByte c = true.
Proof.
  intros c H. unfold strings.asciiSpace, asciiByte in *.
  destruct (N.ltb_spec (strings.byteval c) 128); [reflexivity|].
  revert H. bytes.
Qed.

Lemma isSpace2_ascii_fst : forall c0 b1,
  asciiByte c0 = true -> strings.isSpace2 (strings.byteval c0) b1 = false.
Proof. intros c0 b1 H. unfold strings.isSpace2, asciiByte in *. bytes. Qed.

Lemma isSpace2_ascii_snd : forall b0 c1,
  asciiByte c1 = true -> strings.isSpace2 b0 (strings.byteval c1) = false.
Proof. intros b0 c1 H. unfold strings.isSpace2, asciiByte in *. bytes. Qed.

Lemma isSpace3_ascii_fst : forall c0 b1 b2,
  asciiByte c0 = true -> strings.isSpace3 (strings.byteval c0) b1 b2 = false.
Proof. intros c0 b1 b2 H. unfold strings.isSpace3, asciiByte in *. bytes. Qed.

Lemma isSpace3_ascii_snd : forall b0 c1 b2,
  asciiByte c1 = true -> strings.isSpace3 b0 (strings.byteval c1) b2 = false.
Proof. intros b0 c1 b2 H. unfold strings.isSpace3, asciiByte in *. bytes. Qed.

Lemma isSpace3_ascii_third : forall b0 b1 c2,
  asciiByte c2 = true -> strings.isSpace3 b0 b1 (strings.byteval c2) = false.
Proof. intros b0 b1 c2 H. unfold strings.isSpace3, asciiByte in *. bytes. Qed.

(** What follows a text does not change the rune the text starts with,
    when it starts with an ASCII byte. *)
Lemma spaceWidth_app_ascii : forall x y,
  x <> [] -> asciiStart y ->
  strings.spaceWidth (x ++ y) = strings.spaceWidth x.
Proof.
  intros [|x0 [|x1 [|x2 x']]] y Hx Hy; [congruence| | |reflexivity].
  - cbn [app strings.spaceWidth]. destruct (strings.asciiSpace x0); [reflexivity|].
    destruct y as [|y0 [|y1 y']]; [reflexivity| |]; cbn in Hy.
    + now rewrite isSpace2_ascii_snd.
    + rewrite isSpace2_ascii_snd by assumption.
      now rewrite isSpace3_ascii_snd.
  - cbn [app strings.spaceWidth]. destruct (strings.asciiSpace x0); [reflexivity|].
    destruct (strings.isSpace2 _ _); [reflexivity|].
    destruct y as [|y0 y']; [reflexivity|]. cbn in Hy.
    now rewrite isSpace3_ascii_third.
Qed.

Lemma spaceWidthRev_app_ascii : forall x y,
  x <> [] -> asciiStart y ->
  strings.spaceWidthRev (x ++ y) = strings.spaceWidthRev x.
Proof.
  intros [|x0 [|x1 [|x2 x']]] y Hx Hy; [congruence| | |reflexivity].
  - cbn [app strings.spaceWidthRev].
    destruct (strings.asciiSpace x0); [reflexivity|].
    destruct y as [|y0 [|y1 y']]; [reflexivity| |]; cbn in Hy.
    + now rewrite isSpace2_ascii_fst.
    + rewrite isSpace2_ascii_fst by assumption.
      now rewrite isSpace3_ascii_snd.
  - cbn [app strings.spaceWidthRev].
    destruct (strings.asciiSpace x0); [reflexivity|].
    destruct (strings.isSpace2 _ _); [reflexivity|].
    destruct y as [|y0 y']; [reflexivity|]. cbn in Hy.
    now rewrite isSpace3_ascii_fst.
Qed.

(** A text that does not start with a white-space rune when something
    follows it does not start with one when cut short. *)
Lemma spaceWidth_cut : forall x s,
  x <> [] -> strings.spaceWidth (x ++ s) = 0%nat -> strings.spaceWidth x = 0%nat.
Proof.
  intros [|x0 [|x1 [|x2 x']]] s Hx H; [congruence| | |exact H];
    cbn [app strings.spaceWidth] in *.
  - destruct (strings.asciiSpace x0); [discriminate | reflexivity].
  - destruct (strings.asciiSpace x0); [discriminate|].
    destruct (strings.isSpace2 _ _); [discriminate | reflexivity].
Qed.

Lemma spaceWidth_le_length : forall s, (strings.spaceWidth s <= length s)%nat.
Proof.
  intros [|c0 [|c1 [|c2 r]]]; cbn [strings.spaceWidth length]; try lia.
  - destruct (strings.asciiSpace c0); lia.
  - destruct (strings.asciiSpace c0); [lia|].
    destruct (strings.isSpace2 _ _); lia.
  - destruct (strings.asciiSpace c0); [lia|].
    destruct (strings.isSpace2 _ _); [lia|].
    destruct (strings.isSpace3 _ _ _); lia.
Qed.

(** ** [strings.Fields] splits at every ASCII blank *)

Lemma fieldsFrom_app_sep : forall a skip cur sp b,
  strings.asciiSpace sp = true ->
  (skip <= length a)%nat ->
  strings.fieldsFrom (a ++ sp :: b) skip cur
  = strings.fieldsFrom a skip cur ++ strings.fieldsFrom b 0 [].
Proof.
  induction a as [|c a IH]; intros skip cur sp b Hsp Hskip.
  - cbn [length] in Hskip. assert (skip = 0%nat) by lia. subst skip.
    cbn [app strings.fieldsFrom strings.spaceWidth]. now rewrite Hsp.
  - cbn [app strings.fieldsFrom]. destruct skip as [|k].
    + change (c :: a ++ sp :: b) with ((c :: a) ++ sp :: b).
      rewrite spaceWidth_app_ascii;
        [|discriminate | cbn; now apply asciiSpace_asciiByte].
      pose proof (spaceWidth_le_length (c :: a)) as Hle.
      destruct (strings.spaceWidth (c :: a)) as [|k].
      * apply IH; [assumption | lia].
      * rewrite IH; [now rewrite app_assoc | assumption | cbn in Hle; lia].
    + apply IH; [assumption | cbn in Hskip; lia].
Qed.

Lemma Fields_app_sep : forall a sp b,
  strings.asciiSpace sp = true ->
  strings.Fields (a ++ sp :: b) = strings.Fields a ++ strings.Fields b.
Proof.
  intros. unfold strings.Fields. apply fieldsFrom_app_sep; [assumption | lia].
Qed.

Lemma Fields_Join_lines : forall (ls : list gostring) (sp : ascii),
  strings.asciiSpace sp = true ->
  strings.Fields (strings.Join ls [sp]) = concat (map strings.Fields ls).
Proof.
  intros ls sp Hsp. induction ls as [|l ls IH]; [reflexivity|].
  destruct ls as [|l2 rest].
  - cbn [strings.Join map concat]. now rewrite app_nil_r.
  - change (strings.Join (l :: l2 :: rest) [sp])
      with (l ++ sp :: strings.Join (l2 :: rest) [sp]).
    rewrite Fields_app_sep by assumption. now rewrite IH.
Qed.

(** ** The tokens of [strings.Fields] *)

Lemma spaceFree_tail : forall c t, spaceFree (c :: t) -> spaceFree t.
Proof.
  intros c t H pre x Ht Hx. apply (H (c :: pre) x); [now rewrite Ht | assumption].
Qed.

Lemma snoc_suffix : forall (cur : gostring) c pre x,
  cur ++ [c] = pre ++ x -> x <> [] ->
  exists x', x = x' ++ [c] /\ cur = pre ++ x'.
Proof.
  intros cur c pre x H Hx.
  destruct (exists_last Hx) as (x' & d & ->).
  rewrite app_assoc in H. apply app_inj_tail in H as [H1 H2]. subst d.
  now exists x'.
Qed.

Lemma fieldsFrom_solid : forall s skip cur,
  (skip = 0%nat ->
   forall pre x, cur = pre ++ x -> x <> [] ->
                 strings.spaceWidth (x ++ s) = 0%nat) ->
  (skip <> 0%nat -> cur = []) ->
  Forall solid (strings.fieldsFrom s skip cur).
Proof.
  induction s as [|c r IH]; intros skip cur Hinv Hcur; cbn [strings.fieldsFrom].
  - destruct cur as [|c0 cur]; [constructor|].
    destruct skip; [|specialize (Hcur ltac:(discriminate)); discriminate].
    cbn [strings.flush]. constructor; [|constructor].
    split; [discriminate|]. intros pre x Ht Hx.
    specialize (Hinv eq_refl pre x Ht Hx). now rewrite app_nil_r in Hinv.
  - destruct skip as [|k].
    + specialize (Hinv eq_refl).
      destruct (strings.spaceWidth (c :: r)) as [|k] eqn:Hw.
      * apply IH; [|congruence]. intros _ pre x Ht Hx.
        destruct (snoc_suffix _ _ _ _ Ht Hx) as (x' & -> & Hc).
        rewrite <- app_assoc. cbn [app].
        destruct x' as [|y x']; [exact Hw|].
        apply (Hinv pre (y :: x')); [assumption | discriminate].
      * apply Forall_app. split.
        -- destruct cur as [|c0 cur]; [constructor|].
           cbn [strings.flush]. constructor; [|constructor].
           split; [discriminate|]. intros pre x Ht Hx.
           apply spaceWidth_cut with (s := c :: r); [assumption|].
           now apply (Hinv pre x).
        -- apply IH; [|reflexivity]. intros _ pre x Ht Hx.
           destruct pre; [cbn in Ht; congruence | discriminate].
    + rewrite (Hcur ltac:(discriminate)).
      apply IH; [|reflexivity]. intros _ pre x Ht Hx.
      destruct pre; [cbn in Ht; congruence | discriminate].
Qed.

(** Every token of [strings.Fields] has a byte and no white-space rune. *)
Lemma Fields_solid : forall s, Forall solid (strings.Fields s).
Proof.
  intros s. apply fieldsFrom_solid; [|congruence].
  intros _ pre x Ht Hx. destruct pre; [cbn in Ht; congruence | discriminate].
Qed.

Lemma fieldsFrom_spaceFree : forall t cur,
  spaceFree t ->
  strings.fieldsFrom t 0 cur = strings.flush (cur ++ t).
Proof.
  induction t as [|c t IH]; intros cur Hfree.
  - now rewrite app_nil_r.
  - cbn [strings.fieldsFrom].
    rewrite (Hfree [] (c :: t) eq_refl) by discriminate.
    rewrite IH by (now apply spaceFree_tail with c).
    now rewrite <- app_assoc.
Qed.

Lemma Fields_of_solid : forall t, solid t -> strings.Fields t = [t].
Proof.
  intros t [Hne Hfree]. unfold strings.Fields.
  rewrite fieldsFrom_spaceFree by assumption. cbn [app].
  destruct t; [congruence | reflexivity].
Qed.

Lemma Fields_Join_words : forall ws,
  Forall solid ws -> strings.Fields (strings.Join ws " ") = ws.
Proof.
  intros ws H. change " " with [SP]. rewrite Fields_Join_lines by reflexivity.
  induction H as [|w ws Hw _ IH]; [reflexivity|].
  cbn [map concat]. rewrite (Fields_of_solid w Hw), IH. reflexivity.
Qed.

Lemma solid_isWord : forall t, solid t -> isWord t.
Proof.
  intros t [Hne Hfree]. split; [assumption|].
  apply Forall_forall. intros c Hin.
  apply in_split in Hin as (pre & post & ->).
  specialize (Hfree pre (c :: post) eq_refl ltac:(discriminate)).
  now apply spaceWidth_zero_head with post.
Qed.

(** ** Reflow keeps the words *)

Lemma wrapLoop_same : forall W toks lines cur,
  formatter.wrapLoop W toks lines cur = renderer.wrapLoop W toks lines cur.
Proof.
  induction toks as [|t rest IH]; intros lines cur;
    cbn [formatter.wrapLoop renderer.wrapLoop]; [reflexivity|].
  destruct ((len cur >? 0) && (len cur + 1 + len t >? W)); apply IH.
Qed.

Lemma Fields_extend : forall cur t,
  solid t ->
  strings.Fields ((if len cur >? 0 then cur ++ " " else cur) ++ t)
  = strings.Fields cur ++ [t].
Proof.
  intros cur t Ht. destruct (len cur >? 0) eqn:Hpos.
  - rewrite <- app_assoc. cbn [app].
    rewrite Fields_app_sep by reflexivity. now rewrite (Fields_of_solid t Ht).
  - apply len_nil_iff in Hpos. subst cur. cbn [app]. now apply Fields_of_solid.
Qed.

(** The lines [wrapLoop] closes hold the words of the lines it was given,
    of the line it was building and of the tokens, in that order. *)
Lemma wrapLoop_words : forall W toks lines cur,
  toks <> [] -> Forall solid toks ->
  concat (map strings.Fields (renderer.wrapLoop W toks lines cur))
  = concat (map strings.Fields lines) ++ strings.Fields cur ++ toks.
Proof.
  induction toks as [|t rest IH]; intros lines cur Hne Hall; [congruence|].
  inversion Hall as [|? ? Ht Hrest]; subst.
  cbn [renderer.wrapLoop].
  destruct ((len cur >? 0) && (len cur + 1 + len t >? W)).
  - change (len [] >? 0) with false. cbn [app].
    destruct rest as [|t2 rest2].
    + cbn [renderer.wrapLoop]. rewrite !map_app, !concat_app. cbn [map concat].
      rewrite (Fields_of_solid t Ht), !app_nil_r. now rewrite <- app_assoc.
    + rewrite IH by (assumption || discriminate).
      rewrite map_app, concat_app. cbn [map concat].
      rewrite (Fields_of_solid t Ht), app_nil_r. now rewrite <- !app_assoc.
  - destruct rest as [|t2 rest2].
    + cbn [renderer.wrapLoop]. rewrite map_app, concat_app. cbn [map concat].
      rewrite (Fields_extend cur t Ht), app_nil_r. reflexivity.
    + rewrite IH by (assumption || discriminate).
      rewrite (Fields_extend cur t Ht). now rewrite <- !app_assoc.
Qed.

Lemma wrapped_Fields : forall W toks,
  toks <> [] -> Forall solid toks ->
  strings.Fields (strings.Join (renderer.wrapLoop W toks [] []) [NL]) = toks.
Proof.
  intros W toks Hne Hall.
  rewrite Fields_Join_lines by reflexivity.
  now rewrite wrapLoop_words.
Qed.

(** X1.  Reflow changes white space only: the words of the text that
    [ParagraphFormatter.wrapText] returns are the words of the text it was
    given, in the same order, whatever the width; and so for the
    renderer's [wrapText] on a text without a link construct. *)
Theorem reflow_keeps_words :
  forall (text : gostring) (width : Z),
    strings.Fields (formatter.ParagraphFormatter_wrapText text width)
    = strings.Fields text
    /\ (renderer.containsMarkdownLinks text = false ->
        strings.Fields (renderer.wrapText text width) = strings.Fields text).
Proof.
  intros text width. split.
  - unfold formatter.ParagraphFormatter_wrapText.
    destruct (width <=? 0); [reflexivity|].
    destruct (strings.Fields text) as [|t ts] eqn:HF; [exact HF|].
    rewrite wrapLoop_same. rewrite <- HF. apply wrapped_Fields.
    + rewrite HF. discriminate.
    + apply Fields_solid.
  - intros Hno. unfold renderer.wrapText.
    destruct (width <=? 0); [reflexivity|].
    rewrite (tokenizeWithLinks_no_link text Hno).
    destruct (strings.Fields text) as [|t ts] eqn:HF; [exact HF|].
    rewrite <- HF. apply wrapped_Fields.
    + rewrite HF. discriminate.
    + apply Fields_solid.
Qed.

Lemma reflow_keeps_words_witness :
  strings.Fields (formatter.ParagraphFormatter_wrapText text_with_link 20)
  = strings.Fields text_with_link
  /\ renderer.containsMarkdownLinks (parser.Paragraph_Text paragraph_words) = false
  /\ strings.Fields
       (renderer.wrapText (parser.Paragraph_Text paragraph_words) 5)
     = strings.Fields (parser.Paragraph_Text paragraph_words).
Proof.
  split; [apply (proj1 (reflow_keeps_words text_with_link 20))|].
  split; [reflexivity|].
  apply (proj2 (reflow_keeps_words (parser.Paragraph_Text paragraph_words) 5)).
  reflexivity.
Defined.

(** ** [strings.TrimSpace] *)

Lemma dropSpaces_fixed : forall width s,
  s = [] \/ width s = 0%nat -> strings.dropSpaces width s 0 = s.
Proof.
  intros width [|c r] H; [reflexivity|]. cbn [strings.dropSpaces].
  destruct H as [H|H]; [discriminate | now rewrite H].
Qed.

Lemma dropSpaces_suffix : forall width s skip,
  exists pre, s = pre ++ strings.dropSpaces width s skip.
Proof.
  intros width. induction s as [|c r IH]; intros skip; cbn [strings.dropSpaces].
  - now exists [].
  - destruct skip as [|k].
    + destruct (width (c :: r)) as [|k].
      * now exists [].
      * destruct (IH k) as (pre & Hpre). exists (c :: pre). cbn. now f_equal.
    + destruct (IH k) as (pre & Hpre). exists (c :: pre). cbn. now f_equal.
Qed.

Lemma TrimSpace_fixed : forall u,
  u = [] \/ (strings.spaceWidth u = 0%nat
             /\ strings.spaceWidthRev (rev u) = 0%nat) ->
  strings.TrimSpace u = u.
Proof.
  intros u [->|[Hl Hr]]; [reflexivity|]. unfold strings.TrimSpace.
  rewrite (dropSpaces_fixed strings.spaceWidth u) by now right.
  rewrite (dropSpaces_fixed strings.spaceWidthRev (rev u)) by now right.
  apply rev_involutive.
Qed.

(** What [strings.TrimSpace] returns neither starts nor ends with white
    space. *)
Lemma TrimSpace_ends : forall s,
  strings.TrimSpace s = []
  \/ (strings.spaceWidth (strings.TrimSpace s) = 0%nat
      /\ strings.spaceWidthRev (rev (strings.TrimSpace s)) = 0%nat).
Proof.
  intros s. unfold strings.TrimSpace.
  set (d := strings.dropSpaces strings.spaceWidth s 0).
  set (e := strings.dropSpaces strings.spaceWidthRev (rev d) 0).
  destruct e as [|c e'] eqn:He; [now left|]. right.
  rewrite rev_involutive. split.
  - destruct (dropSpaces_suffix strings.spaceWidthRev (rev d) 0) as (pre & Hpre).
    fold e in Hpre. rewrite He in Hpre.
    apply (f_equal (@rev ascii)) in Hpre.
    rewrite rev_involutive, rev_app_distr in Hpre.
    destruct (dropSpaces_head strings.spaceWidth s 0) as [Hd|Hd]; fold d in Hd.
    + rewrite Hd in Hpre. symmetry in Hpre.
      apply app_eq_nil in Hpre as [Hpre _].
      apply (f_equal (@length ascii)) in Hpre.
      rewrite length_rev in Hpre. discriminate.
    + rewrite Hpre in Hd. apply spaceWidth_cut in Hd; [assumption|].
      intros H0. apply (f_equal (@length ascii)) in H0.
      rewrite length_rev in H0. discriminate.
  - destruct (dropSpaces_head strings.spaceWidthRev (rev d) 0) as [H0|H0];
      fold e in H0; rewrite He in H0; [discriminate | assumption].
Qed.

(** Trimming a trimmed text changes nothing. *)
Lemma TrimSpace_again : forall s,
  strings.TrimSpace (strings.TrimSpace s) = strings.TrimSpace s.
Proof. intros s. apply TrimSpace_fixed, TrimSpace_ends. Qed.

Lemma fieldsFrom_cur_not_nil : forall s cur,
  cur <> [] -> strings.fieldsFrom s 0 cur <> [].
Proof.
  induction s as [|c r IH]; intros cur Hne; cbn [strings.fieldsFrom].
  - destruct cur; [congruence | discriminate].
  - destruct (strings.spaceWidth (c :: r)).
    + apply IH. intros H. now apply app_eq_nil in H as [_ H].
    + destruct cur; [congruence | discriminate].
Qed.

Lemma fieldsFrom_nil_dropSpaces : forall s skip,
  strings.fieldsFrom s skip [] = [] ->
  strings.dropSpaces strings.spaceWidth s skip = [].
Proof.
  induction s as [|c r IH]; intros skip H;
    cbn [strings.fieldsFrom strings.dropSpaces] in *; [reflexivity|].
  destruct skip as [|k]; [|now apply IH].
  destruct (strings.spaceWidth (c :: r)) as [|k].
  - exfalso. revert H. apply fieldsFrom_cur_not_nil. discriminate.
  - now apply IH.
Qed.

(** A text without a word is trimmed to nothing. *)
Lemma Fields_nil_TrimSpace : forall s,
  strings.Fields s = [] -> strings.TrimSpace s = [].
Proof.
  intros s H. unfold strings.TrimSpace.
  now rewrite (fieldsFrom_nil_dropSpaces s 0 H).
Qed.

Lemma solid_spaceWidthRev : forall t,
  solid t -> strings.spaceWidthRev (rev t) = 0%nat.
Proof.
  intros t [Hne Hfree].
  assert (Hsuf : forall x, (exists pre, rev t = rev x ++ pre) -> x <> [] ->
                           strings.spaceWidth x = 0%nat).
  { intros x (pre & Hpre) Hx. apply (Hfree (rev pre) x); [|assumption].
    apply (f_equal (@rev ascii)) in Hpre.
    now rewrite rev_involutive, rev_app_distr, rev_involutive in Hpre. }
  destruct (rev t) as [|c0 [|c1 [|c2 r]]] eqn:Hr.
  - reflexivity.
  - specialize (Hsuf [c0] ltac:(now exists []) ltac:(discriminate)).
    cbn [strings.spaceWidthRev]. cbn [strings.spaceWidth] in Hsuf.
    destruct (strings.asciiSpace c0); [discriminate | reflexivity].
  - pose proof (Hsuf [c0] ltac:(now exists [c1]) ltac:(discriminate)) as H1.
    pose proof (Hsuf [c1; c0] ltac:(now exists []) ltac:(discriminate)) as H2.
    cbn [strings.spaceWidthRev]. cbn [strings.spaceWidth] in H1, H2.
    destruct (strings.asciiSpace c0); [discriminate|].
    destruct (strings.asciiSpace c1); [discriminate|].
    destruct (strings.isSpace2 _ _); [discriminate | reflexivity].
  - pose proof (Hsuf [c0] ltac:(now exists (c1 :: c2 :: r)) ltac:(discriminate)) as H1.
    pose proof (Hsuf [c1; c0] ltac:(now exists (c2 :: r)) ltac:(discriminate)) as H2.
    pose proof (Hsuf [c2; c1; c0] ltac:(now exists r) ltac:(discriminate)) as H3.
    cbn [strings.spaceWidthRev]. cbn [strings.spaceWidth] in H1, H2, H3.
    destruct (strings.asciiSpace c0); [discriminate|].
    destruct (strings.asciiSpace c1); [discriminate|].
    destruct (strings.isSpace2 _ _); [discriminate|].
    destruct (strings.asciiSpace c2); [discriminate|].
    destruct (strings.isSpace2 _ _); [discriminate|].
    destruct (strings.isSpace3 _ _ _); [discriminate | reflexivity].
Qed.

(** A text that starts and ends with a token is its own trimming. *)
Lemma TrimSpace_solid_ends : forall s,
  startsSolid s -> endsSolid s -> strings.TrimSpace s = s.
Proof.
  intros s (t & y & [Ht Hfree] & Hy & Hs) (t' & y' & Ht' & Hy' & Hs').
  apply TrimSpace_fixed. right. split.
  - rewrite Hs. rewrite spaceWidth_app_ascii by assumption.
    apply (Hfree [] t eq_refl Ht).
  - rewrite Hs', rev_app_distr.
    rewrite spaceWidthRev_app_ascii; [now apply solid_spaceWidthRev| |assumption].
    destruct Ht' as [Hne _]. intros H0.
    apply (f_equal (@length ascii)) in H0. rewrite length_rev in H0.
    destruct t'; [congruence | discriminate].
Qed.

(** ** Lines of words *)

Lemma Join_cons : forall (e : gostring) ls sep,
  ls <> [] -> strings.Join (e :: ls) sep = e ++ sep ++ strings.Join ls sep.
Proof. intros e [|l ls] sep H; [congruence | reflexivity]. Qed.

Lemma Join_snoc : forall (ws : list gostring) t sep,
  ws <> [] -> strings.Join (ws ++ [t]) sep = strings.Join ws sep ++ sep ++ t.
Proof.
  induction ws as [|w ws IH]; intros t sep Hne; [congruence|].
  destruct ws as [|w2 rest].
  - reflexivity.
  - change ((w :: w2 :: rest) ++ [t]) with (w :: ((w2 :: rest) ++ [t])).
    rewrite Join_cons by discriminate.
    rewrite IH by discriminate.
    rewrite (Join_cons w (w2 :: rest)) by discriminate.
    now rewrite <- !app_assoc.
Qed.

Lemma Join_startsSolid : forall e ls (c : ascii),
  asciiByte c = true -> startsSolid e -> startsSolid (strings.Join (e :: ls) [c]).
Proof.
  intros e ls c Hc (t & y & Ht & Hy & ->).
  destruct ls as [|l2 rest]; [now exists t, y|].
  rewrite Join_cons by discriminate.
  exists t, (y ++ [c] ++ strings.Join (l2 :: rest) [c]).
  repeat split; [apply Ht | apply Ht | | now rewrite <- app_assoc].
  destruct y; [exact Hc | exact Hy].
Qed.

Lemma Join_endsSolid : forall ls (c : ascii),
  asciiByte c = true -> endsSolid (last ls []) ->
  endsSolid (strings.Join ls [c]).
Proof.
  induction ls as [|e ls IH]; intros c Hc Hlast; [exact Hlast|].
  destruct ls as [|l2 rest]; [exact Hlast|].
  rewrite Join_cons by discriminate.
  destruct (IH c Hc Hlast) as (t & y & Ht & Hy & Hj).
  exists t, (e ++ [c] ++ y). repeat split; [apply Ht | apply Ht | |].
  - rewrite !rev_app_distr. destruct (rev y) eqn:Hr; [exact Hc | exact Hy].
  - rewrite Hj. now rewrite <- !app_assoc.
Qed.

Lemma solid_startsSolid : forall t, solid t -> startsSolid t.
Proof. intros t Ht. exists t, []. now rewrite app_nil_r. Qed.

Lemma solid_endsSolid : forall t, solid t -> endsSolid t.
Proof. intros t Ht. now exists t, []. Qed.

Lemma wordsLine_startsSolid : forall l, wordsLine l -> startsSolid l.
Proof.
  intros l ([|w ws] & Hne & Hall & ->); [congruence|].
  inversion Hall; subst.
  apply (Join_startsSolid w ws SP); [reflexivity | now apply solid_startsSolid].
Qed.

Lemma wordsLine_endsSolid : forall l, wordsLine l -> endsSolid l.
Proof.
  intros l (ws & Hne & Hall & ->).
  apply (Join_endsSolid ws SP); [reflexivity|].
  apply solid_endsSolid.
  destruct (exists_last Hne) as (ws' & w & ->). rewrite last_last.
  apply Forall_app in Hall as [_ Hall]. now inversion Hall.
Qed.

Lemma wordsLine_no_NL : forall l, wordsLine l -> ~ In NL l.
Proof.
  intros l (ws & _ & Hall & ->). apply Join_words.
  eapply Forall_impl; [|exact Hall]. apply solid_isWord.
Qed.

Lemma wordsLine_fixed : forall l,
  wordsLine l -> strings.Join (strings.Fields l) " " = l.
Proof. intros l (ws & _ & Hall & ->). now rewrite Fields_Join_words. Qed.

(** The lines that [wrapLoop] builds from tokens are lines of words. *)
Lemma wrapLoop_wordsLines : forall W toks,
  Forall solid toks ->
  Forall wordsLine (renderer.wrapLoop W toks [] []).
Proof.
  intros W toks Hall. rewrite Forall_forall in Hall.
  apply wrapLoop_invariant with (all := toks).
  - intros t Ht. exists [t]. repeat split; [discriminate|].
    constructor; [now apply Hall | constructor].
  - intros cur t (ws & Hne & Hws & ->) _ Ht _.
    exists (ws ++ [t]). repeat split.
    + intros H. now apply app_eq_nil in H as [_ H].
    + apply Forall_app. split; [assumption|].
      constructor; [now apply Hall | constructor].
    + now rewrite Join_snoc.
  - apply incl_refl.
  - constructor.
  - now left.
Qed.

(** A text made of lines of words is in normal form: trimming it and
    collapsing its white space change nothing. *)
Lemma wordsLines_normal : forall lines,
  lines <> [] -> Forall wordsLine lines ->
  strings.TrimSpace (strings.Join lines [NL]) = strings.Join lines [NL]
  /\ formatter.normalizeWhitespace (strings.Join lines [NL])
     = strings.Join lines [NL].
Proof.
  intros lines Hne Hall. split.
  - apply TrimSpace_solid_ends.
    + destruct lines as [|l ls]; [congruence|]. inversion Hall; subst.
      apply Join_startsSolid; [reflexivity | now apply wordsLine_startsSolid].
    + apply Join_endsSolid; [reflexivity|]. apply wordsLine_endsSolid.
      destruct (exists_last Hne) as (ls' & l & ->). rewrite last_last.
      apply Forall_app in Hall as [_ Hall]. now inversion Hall.
  - unfold formatter.normalizeWhitespace. rewrite Split_Join.
    + f_equal. rewrite <- (map_id lines) at 2. apply map_ext_in.
      intros l Hl. rewrite Forall_forall in Hall. now apply wordsLine_fixed, Hall.
    + assumption.
    + eapply Forall_impl; [|exact Hall]. apply wordsLine_no_NL.
Qed.

(** ** Trimming, then collapsing the white space of every line *)

Lemma isSpace2_bytes : forall b0 b1,
  strings.isSpace2 b0 b1 = true -> (128 <= b1)%N.
Proof.
  intros b0 b1. unfold strings.isSpace2.
  rewrite !Bool.andb_true_iff, !Bool.orb_true_iff, !N.eqb_eq. lia.
Qed.

Lemma isSpace3_bytes : forall b0 b1 b2,
  strings.isSpace3 b0 b1 b2 = true -> (128 <= b2)%N /\ b1 <> 0xC2%N.
Proof.
  intros b0 b1 b2. unfold strings.isSpace3.
  repeat (rewrite Bool.orb_true_iff || rewrite Bool.andb_true_iff
          || rewrite N.eqb_eq || rewrite N.leb_le).
  lia.
Qed.

Lemma high_byte_not_space : forall c,
  (128 <= strings.byteval c)%N -> strings.asciiSpace c = false.
Proof. intros c H. unfold strings.asciiSpace. cbv zeta. bytes. Qed.

Lemma spaceWidth_unit : forall s k,
  strings.spaceWidth s = S k ->
  exists x s', s = x ++ s' /\ length x = S k
               /\ forall b, strings.spaceWidthRev (rev x ++ b) = S k.
Proof.
  intros [|c0 r0] k H; cbn [strings.spaceWidth] in H; [discriminate|].
  destruct (strings.asciiSpace c0) eqn:H0.
  { injection H as <-. exists [c0], r0. repeat split.
    intros b. cbn [rev app strings.spaceWidthRev]. now rewrite H0. }
  destruct r0 as [|c1 r1]; [discriminate|].
  destruct (strings.isSpace2 _ _) eqn:H2.
  { injection H as <-. exists [c0; c1], r1. repeat split.
    intros b. cbn [rev app strings.spaceWidthRev]. rewrite H2.
    now rewrite (high_byte_not_space c1 (isSpace2_bytes _ _ H2)). }
  destruct r1 as [|c2 r2]; [discriminate|].
  destruct (strings.isSpace3 _ _ _) eqn:H3; [|discriminate].
  injection H as <-. exists [c0; c1; c2], r2. repeat split.
  intros b. cbn [rev app strings.spaceWidthRev]. rewrite H3.
  destruct (isSpace3_bytes _ _ _ H3) as [Hb2 Hb1].
  rewrite (high_byte_not_space c2 Hb2).
  replace (strings.isSpace2 (strings.byteval c1) (strings.byteval c2))
    with false; [reflexivity|].
  unfold strings.isSpace2.
  destruct (N.eqb_spec (strings.byteval c1) 0xC2); [congruence | reflexivity].
Qed.

Lemma spaceWidthRev_app : forall a b k,
  strings.spaceWidthRev a = S k -> strings.spaceWidthRev (a ++ b) = S k.
Proof.
  intros [|c0 r0] b k H; cbn [strings.spaceWidthRev app] in *; [discriminate|].
  destruct (strings.asciiSpace c0); [assumption|].
  destruct r0 as [|c1 r1]; [discriminate|]. cbn [app].
  destruct (strings.isSpace2 _ _); [assumption|].
  destruct r1 as [|c2 r2]; [discriminate|]. exact H.
Qed.

Lemma fieldsFrom_skip : forall x s cur,
  strings.fieldsFrom (x ++ s) (length x) cur = strings.fieldsFrom s 0 cur.
Proof.
  induction x as [|c x IH]; intros s cur; cbn [app length].
  - destruct s; reflexivity.
  - cbn [strings.fieldsFrom]. apply IH.
Qed.

(** A text of white space only, if not empty, ends with white space. *)
Lemma blank_text_end : forall n s,
  (length s <= n)%nat -> s <> [] -> strings.Fields s = [] ->
  strings.spaceWidthRev (rev s) <> 0%nat.
Proof.
  induction n as [|n IH]; intros s Hlen Hne HF.
  - destruct s; [congruence | cbn in Hlen; lia].
  - destruct s as [|c r]; [congruence|].
    unfold strings.Fields in HF. cbn [strings.fieldsFrom] in HF.
    destruct (strings.spaceWidth (c :: r)) as [|k] eqn:Hw.
    + exfalso. revert HF. apply fieldsFrom_cur_not_nil. discriminate.
    + destruct (spaceWidth_unit _ _ Hw) as (x & s' & Hs & Hx & Hrev).
      destruct x as [|c' x']; [discriminate|].
      cbn [app] in Hs. injection Hs as <- ->.
      cbn [length] in Hx. injection Hx as Hx. subst k.
      cbn [strings.flush app] in HF. rewrite fieldsFrom_skip in HF.
      change (c :: x' ++ s') with ((c :: x') ++ s').
      rewrite rev_app_distr.
      destruct s' as [|c2 s2].
      * specialize (Hrev []). rewrite app_nil_r in Hrev.
        change (rev [] ++ rev (c :: x')) with (rev (c :: x')).
        rewrite Hrev. discriminate.
      * assert (Hs' : strings.spaceWidthRev (rev (c2 :: s2)) <> 0%nat).
        { apply IH; [|discriminate | exact HF].
          simpl in Hlen. rewrite length_app in Hlen. simpl in Hlen |- *.
          lia. }
        destruct (strings.spaceWidthRev (rev (c2 :: s2))) as [|j] eqn:Hj;
          [congruence|].
        rewrite (spaceWidthRev_app _ _ _ Hj). discriminate.
Qed.

Lemma Join_last : forall (ls : list gostring) (sep : ascii),
  strings.Join ls [sep] = last ls []
  \/ exists pre, strings.Join ls [sep] = pre ++ sep :: last ls [].
Proof.
  induction ls as [|e ls IH]; intros sep; [now left|].
  destruct ls as [|l2 rest]; [now left|]. right.
  rewrite Join_cons by discriminate.
  change (last (e :: l2 :: rest) []) with (last (l2 :: rest) ([] : gostring)).
  destruct (IH sep) as [H|(pre & H)]; rewrite H.
  - now exists e.
  - exists (e ++ sep :: pre). now rewrite <- app_assoc.
Qed.

(** A trimmed text: its first and its last line hold a word. *)
Lemma trimmed_lines : forall u,
  u <> [] -> strings.spaceWidth u = 0%nat ->
  strings.spaceWidthRev (rev u) = 0%nat ->
  strings.Fields (hd [] (strings.Split u NL)) <> []
  /\ strings.Fields (last (strings.Split u NL) []) <> [].
Proof.
  intros u Hne Hl Hr. pose proof (Join_Split u NL) as HJ.
  pose proof (Split_not_nil u NL) as Hnn. split.
  - destruct (strings.Split u NL) as [|l1 rest]; [congruence|]. cbn [hd].
    assert (H1 : l1 <> [] /\ strings.spaceWidth l1 = 0%nat).
    { destruct rest as [|l2 rest'].
      - cbn in HJ. subst l1. now split.
      - rewrite Join_cons in HJ by discriminate. rewrite <- HJ in Hl.
        destruct l1 as [|c l1']; [discriminate Hl|]. split; [discriminate|].
        now apply spaceWidth_cut in Hl. }
    destruct H1 as [H1 H2]. destruct l1 as [|c r]; [congruence|].
    unfold strings.Fields. cbn [strings.fieldsFrom]. rewrite H2.
    apply fieldsFrom_cur_not_nil. discriminate.
  - assert (H1 : last (strings.Split u NL) [] <> []
                 /\ strings.spaceWidthRev
                      (rev (last (strings.Split u NL) [])) = 0%nat).
    { destruct (Join_last (strings.Split u NL) NL) as [H|(pre & H)];
        rewrite HJ in H.
      - rewrite <- H. now split.
      - rewrite H in Hr. rewrite rev_app_distr in Hr. cbn [rev] in Hr.
        rewrite <- app_assoc in Hr. cbn [app] in Hr.
        destruct (last (strings.Split u NL) []) as [|c l'] eqn:Hlast.
        + discriminate Hr.
        + split; [discriminate|].
          rewrite spaceWidthRev_app_ascii in Hr; [assumption| |reflexivity].
          intros H0. apply (f_equal (@length ascii)) in H0.
          rewrite length_rev in H0. discriminate. }
    destruct H1 as [H1 H2]. intros HF.
    now apply (blank_text_end _ _ (le_n _) H1 HF).
Qed.

Lemma last_map : forall (A B : Type) (f : A -> B) l a b,
  l <> [] -> last (map f l) b = f (last l a).
Proof.
  intros A B f. induction l as [|x l IH]; intros a b Hne; [congruence|].
  destruct l as [|y l']; [reflexivity|].
  change (last (map f (x :: y :: l')) b) with (last (map f (y :: l')) b).
  change (last (x :: y :: l') a) with (last (y :: l') a).
  apply IH. discriminate.
Qed.

Lemma Fields_wordsLine : forall l,
  strings.Fields l <> [] -> wordsLine (strings.Join (strings.Fields l) " ").
Proof.
  intros l H. exists (strings.Fields l). repeat split; [assumption|].
  apply Fields_solid.
Qed.

(** [normalizeWhitespace (strings.TrimSpace s)], the text the paragraph
    rule and the list rule leave, is a fixed point of both functions. *)
Lemma trim_normalize_fixed : forall s,
  let R := formatter.normalizeWhitespace (strings.TrimSpace s) in
  strings.TrimSpace R = R /\ formatter.normalizeWhitespace R = R.
Proof.
  intros s R. subst R.
  destruct (TrimSpace_ends s) as [->|[Hl Hr]]; [now split|].
  set (u := strings.TrimSpace s) in *.
  destruct u as [|c0 u0] eqn:Hu; [now split|]. rewrite <- Hu in *.
  assert (Hne : u <> []) by (rewrite Hu; discriminate).
  destruct (trimmed_lines u Hne Hl Hr) as [Hfirst Hlast].
  set (J := fun line => strings.Join (strings.Fields line) " ").
  pose proof (Split_not_nil u NL) as Hnn.
  assert (HR : formatter.normalizeWhitespace u
               = strings.Join (map J (strings.Split u NL)) [NL])
    by reflexivity.
  rewrite HR. clear HR.
  set (lines := strings.Split u NL) in *.
  assert (HJno : Forall (fun l => ~ In NL l) (map J lines)).
  { apply Forall_forall. intros l Hin. apply in_map_iff in Hin as (l0 & <- & _).
    apply Join_words. eapply Forall_impl; [|apply Fields_solid].
    apply solid_isWord. }
  assert (Hmap : map J lines <> []).
  { destruct lines; [congruence | discriminate]. }
  split.
  - apply TrimSpace_solid_ends.
    + destruct lines as [|l1 rest]; [congruence|]. cbn [map].
      apply Join_startsSolid; [reflexivity|].
      apply wordsLine_startsSolid. now apply Fields_wordsLine.
    + apply Join_endsSolid; [reflexivity|].
      match goal with
      | |- endsSolid ?t =>
          assert (Ht : t = J (last lines []))
            by (apply last_map; assumption);
          rewrite Ht
      end.
      apply wordsLine_endsSolid. now apply Fields_wordsLine.
  - unfold formatter.normalizeWhitespace. fold J.
    rewrite Split_Join by assumption. f_equal.
    rewrite map_map. apply map_ext. intros l. unfold J.
    now rewrite Fields_Join_words by apply Fields_solid.
Qed.

(** ** The paragraph rule and the heading rule are idempotent *)

(** The text the paragraph rule leaves is a fixed point of what the rule
    does to a text. *)
Lemma paragraph_text_fixed : forall (text : gostring) (W : Z),
  let F := fun t => formatter.normalizeWhitespace
                      (strings.TrimSpace
                         (if W >? 0
                          then formatter.ParagraphFormatter_wrapText t W
                          else t)) in
  F (F text) = F text.
Proof.
  intros text W F. subst F. cbv beta.
  destruct (W >? 0) eqn:HW.
  - assert (HW' : (W <=? 0) = false).
    { destruct (Z.gtb_spec W 0); [|discriminate].
      destruct (Z.leb_spec W 0); [lia | reflexivity]. }
    unfold formatter.ParagraphFormatter_wrapText. rewrite HW'.
    destruct (strings.Fields text) as [|t0 ts] eqn:HF.
    + now rewrite (Fields_nil_TrimSpace _ HF).
    + set (toks := t0 :: ts) in *.
      assert (Hne : toks <> []) by discriminate.
      assert (Hsolid : Forall solid toks).
      { rewrite <- HF. apply Fields_solid. }
      rewrite wrapLoop_same.
      set (lines := renderer.wrapLoop W toks [] []).
      destruct (wordsLines_normal lines) as [HT HN].
      { now apply wrapLoop_not_nil. }
      { now apply wrapLoop_wordsLines. }
      rewrite HT, HN.
      assert (HFl : strings.Fields (strings.Join lines [NL]) = toks)
        by now apply wrapped_Fields.
      rewrite HFl. unfold toks at 1. cbv iota.
      rewrite wrapLoop_same. fold lines.
      now rewrite HT, HN.
  - destruct (trim_normalize_fixed text) as [HT HN].
    now rewrite HT, HN.
Qed.

(** X2.  Applying the paragraph rule to a node it has already formatted
    changes nothing, whatever the line width of the configuration: the
    text it leaves is a fixed point of its reflow, of [strings.TrimSpace]
    and of [normalizeWhitespace]. *)
Theorem paragraph_rule_idempotent :
  forall (node : parser.Node) (cfg : config.Config),
    formatter.ParagraphFormatter_Format
      (fst (formatter.ParagraphFormatter_Format node cfg)) cfg
    = formatter.ParagraphFormatter_Format node cfg.
Proof.
  intros node cfg. destruct node as [d|h|p|l|i|c|t|ty]; try reflexivity.
  cbn [formatter.ParagraphFormatter_Format fst parser.Paragraph_Text].
  do 3 f_equal.
  apply (paragraph_text_fixed (parser.Paragraph_Text p) (config.LineWidth cfg)).
Qed.

(** The heading the rule leaves is a fixed point of the rule. *)
Lemma heading_fixed : forall (h : parser.Heading) (cfg : config.Config),
  formatter.HeadingFormatter_Format
    (fst (formatter.HeadingFormatter_Format (parser.NHeading h) cfg)) cfg
  = formatter.HeadingFormatter_Format (parser.NHeading h) cfg.
Proof.
  intros h cfg.
  cbn [formatter.HeadingFormatter_Format fst parser.Heading_Level
       parser.Heading_Text parser.Heading_Style].
  rewrite TrimSpace_again.
  unfold formatter.MaxHeadingLevel, formatter.MinHeadingLevel,
    formatter.SetextMaxLevel.
  set (L := parser.Heading_Level h).
  do 2 f_equal. f_equal.
  - destruct (config.NormalizeLevels (config.Heading cfg)); [|reflexivity].
    destruct (Z.gtb_spec L 6).
    + reflexivity.
    + destruct (Z.ltb_spec L 1).
      * reflexivity.
      * destruct (Z.gtb_spec L 6); [lia|].
        destruct (Z.ltb_spec L 1); [lia | reflexivity].
  - destruct (streq (config.Heading_Style (config.Heading cfg))
                    formatter.AtxHeadingStyle); [reflexivity|].
    destruct (streq (config.Heading_Style (config.Heading cfg))
                    formatter.SetextHeadingStyle); [|reflexivity].
    destruct (config.NormalizeLevels (config.Heading cfg)).
    + destruct (Z.gtb_spec L 6).
      * destruct (Z.leb_spec L 2); [lia | reflexivity].
      * destruct (Z.ltb_spec L 1).
        -- destruct (Z.leb_spec L 2); [reflexivity | lia].
        -- destruct (Z.leb_spec L 2); reflexivity.
    + destruct (Z.leb_spec L 2); reflexivity.
Qed.

(** X3.  Applying the heading rule to a node it has already formatted
    changes nothing: the level it leaves is clamped already, the style it
    chose for the level before the clamp is the style it chooses for the
    level after it, and the trimmed text is trimmed. *)
Theorem heading_rule_idempotent :
  forall (node : parser.Node) (cfg : config.Config),
    formatter.HeadingFormatter_Format
      (fst (formatter.HeadingFormatter_Format node cfg)) cfg
    = formatter.HeadingFormatter_Format node cfg.
Proof.
  intros node cfg. destruct node as [d|h|p|l|i|c|t|ty]; try reflexivity.
  apply heading_fixed.
Qed.

(** ** The list rule, item by item *)

Section ListRuleShape.
Variable again : parser.List -> config.Config -> parser.List * option error.
Hypothesis again_ok : forall l cfg, snd (again l cfg) = None.

Lemma nestedLoop_map : forall cfg children,
  formatter.nestedLoop again cfg children
  = (map (fun c => match c with
                   | parser.NList l => parser.NList (fst (again l cfg))
                   | _ => c
                   end) children, None).
Proof.
  induction children as [|child rest IH]; cbn [formatter.nestedLoop map];
    [reflexivity|].
  rewrite IH. destruct child; try reflexivity.
  pose proof (again_ok l cfg) as H.
  destruct (again l cfg) as [l' [e|]]; [discriminate | reflexivity].
Qed.

Lemma itemsLoop_map : forall cfg items,
  formatter.itemsLoop again cfg items
  = (map (fun item =>
            parser.mkListItem
              (if config.ConsistentIndentation (config.List cfg)
               then formatter.normalizeWhitespace
                      (strings.TrimSpace (parser.ListItem_Text item))
               else parser.ListItem_Text item)
              (parser.ListItem_Marker item)
              (fst (formatter.nestedLoop again cfg
                      (parser.ListItem_Children item)))) items, None).
Proof.
  induction items as [|item rest IH]; cbn [formatter.itemsLoop map];
    [reflexivity|].
  rewrite IH. unfold formatter.processNestedLists.
  destruct (config.ConsistentIndentation (config.List cfg));
    cbn [formatter.setText parser.ListItem_Children parser.ListItem_Text
         parser.ListItem_Marker];
    rewrite nestedLoop_map; reflexivity.
Qed.

End ListRuleShape.

Lemma ListFormatter_formatList_ok : forall l cfg,
  snd (formatter.ListFormatter_formatList l cfg) = None.
Proof. intros l cfg. apply formatListTo_ok. Qed.

(** The list rule on a list: the markers are set, then every item is
    formatted. *)
Lemma ListFormatter_formatList_shape : forall l cfg,
  formatter.ListFormatter_formatList l cfg
  = (parser.mkList (parser.List_Ordered l)
       (map (formatItem (config.ConsistentIndentation (config.List cfg)) cfg)
            (markItems cfg (parser.List_Ordered l) (parser.List_Items l)))
       (if parser.List_Ordered l then parser.List_Marker l
        else config.BulletStyle (config.List cfg)), None).
Proof.
  intros l cfg. rewrite ListFormatter_formatList_unfold.
  unfold formatter.formatList, formatter.processListItems, markItems.
  destruct l as [ordered items marker].
  cbn [parser.List_Ordered parser.List_Items parser.List_Marker].
  destruct ordered; cbn [negb];
    cbn [formatter.formatOrderedList formatter.formatUnorderedList
         parser.List_Ordered parser.List_Items parser.List_Marker];
    rewrite (itemsLoop_map _ ListFormatter_formatList_ok); f_equal; f_equal;
    apply map_ext; intros item; unfold formatItem;
    now rewrite (nestedLoop_map _ ListFormatter_formatList_ok).
Qed.

(** The list rule on an item. *)
Lemma formatListItem_shape : forall item cfg,
  formatter.formatListItem formatter.ListFormatter_formatList item cfg
  = (formatItem true cfg item, None).
Proof.
  intros item cfg. unfold formatter.formatListItem, formatter.processNestedLists.
  cbn [formatter.setText parser.ListItem_Children parser.ListItem_Text
       parser.ListItem_Marker].
  now rewrite (nestedLoop_map _ ListFormatter_formatList_ok).
Qed.

(** Induction on lists that nest through the children of their items. *)
Lemma nested_lists_ind : forall PL : parser.List -> Prop,
  (forall ordered items marker,
      (forall item l', In item items ->
                       In (parser.NList l') (parser.ListItem_Children item) ->
                       PL l') ->
      PL (parser.mkList ordered items marker)) ->
  forall l, PL l.
Proof.
  intros PL Hstep l.
  apply (List_tree_ind
           (fun n => match n with parser.NList l => PL l | _ => True end)
           (fun _ => True) PL
           (fun item => forall l', In (parser.NList l')
                                      (parser.ListItem_Children item) -> PL l'));
    try (intros; exact I); try (intros; assumption).
  - intros ordered items marker Hall. apply Hstep.
    intros item l' Hitem. rewrite Forall_forall in Hall. now apply Hall.
  - intros text marker children Hall l' Hin.
    cbn [parser.ListItem_Children] in Hin. rewrite Forall_forall in Hall.
    apply (Hall _ Hin).
Qed.

Lemma formatItem_setMarker : forall b cfg m item,
  formatItem b cfg (formatter.setMarker m item)
  = formatter.setMarker m (formatItem b cfg item).
Proof. intros b cfg m [text marker children]. reflexivity. Qed.

Lemma numberItems_map : forall b cfg items i,
  formatter.numberItems cfg i (map (formatItem b cfg) items)
  = map (formatItem b cfg) (formatter.numberItems cfg i items).
Proof.
  induction items as [|item rest IH]; intros i;
    cbn [map formatter.numberItems]; [reflexivity|].
  now rewrite IH, formatItem_setMarker.
Qed.

Lemma numberItems_again : forall cfg items i,
  formatter.numberItems cfg i (formatter.numberItems cfg i items)
  = formatter.numberItems cfg i items.
Proof.
  induction items as [|item rest IH]; intros i;
    cbn [formatter.numberItems]; [reflexivity|].
  rewrite IH. destruct item. reflexivity.
Qed.

Lemma markItems_map : forall b cfg ordered items,
  markItems cfg ordered (map (formatItem b cfg) items)
  = map (formatItem b cfg) (markItems cfg ordered items).
Proof.
  intros b cfg ordered items. unfold markItems. destruct ordered.
  - apply numberItems_map.
  - rewrite !map_map. apply map_ext. intros item.
    symmetry. apply formatItem_setMarker.
Qed.

Lemma markItems_again : forall cfg ordered items,
  markItems cfg ordered (markItems cfg ordered items)
  = markItems cfg ordered items.
Proof.
  intros cfg ordered items. unfold markItems. destruct ordered.
  - apply numberItems_again.
  - rewrite map_map. apply map_ext. intros [text marker children]. reflexivity.
Qed.

Lemma markItems_children : forall cfg ordered items item1,
  In item1 (markItems cfg ordered items) ->
  exists item, In item items
               /\ parser.ListItem_Children item1 = parser.ListItem_Children item.
Proof.
  intros cfg ordered items item1. unfold markItems. destruct ordered.
  - apply numberItems_children.
  - apply setMarker_children.
Qed.

Lemma numberItems_markers : forall cfg items s,
  map parser.ListItem_Marker (formatter.numberItems cfg (Z.of_nat s) items)
  = map (markerAt cfg) (seq s (length items)).
Proof.
  induction items as [|item rest IH]; intros s;
    cbn [formatter.numberItems map length seq]; [reflexivity|].
  replace (Z.of_nat s + 1) with (Z.of_nat (S s)) by lia.
  rewrite IH. f_equal. destruct item as [text marker children].
  cbn [formatter.setMarker parser.ListItem_Marker].
  unfold markerAt, numberToken.
  replace (Z.of_nat (S s)) with (Z.of_nat s + 1) by lia.
  destruct (streq (config.NumberStyle (config.List cfg)) ".") eqn:Hdot.
  - destruct (streq (config.NumberStyle (config.List cfg)) ")") eqn:Hpar;
      [|reflexivity].
    exfalso. destruct (config.NumberStyle (config.List cfg)) as [|c r];
      [discriminate|].
    cbn [streq] in Hdot, Hpar.
    apply andb_prop in Hdot as [Hdot _]. apply andb_prop in Hpar as [Hpar _].
    apply Ascii.eqb_eq in Hdot, Hpar. congruence.
  - destruct (streq (config.NumberStyle (config.List cfg)) ")"); reflexivity.
Qed.

Lemma length_numberItems : forall cfg items i,
  length (formatter.numberItems cfg i items) = length items.
Proof.
  induction items as [|item rest IH]; intros i;
    cbn [formatter.numberItems length]; [reflexivity|].
  now rewrite IH.
Qed.

Lemma length_markItems : forall cfg ordered items,
  length (markItems cfg ordered items) = length items.
Proof.
  intros cfg ordered items.
  destruct ordered; unfold markItems.
  - apply length_numberItems.
  - apply length_map.
Qed.

(** The marked items of a list are well marked. *)
Lemma markItems_wellMarked : forall b cfg ordered items marker,
  wellMarked cfg
    (parser.mkList ordered
       (map (formatItem b cfg) (markItems cfg ordered items))
       (if ordered then marker else config.BulletStyle (config.List cfg))).
Proof.
  intros b cfg ordered items marker. unfold wellMarked.
  cbn [parser.List_Ordered parser.List_Items parser.List_Marker].
  destruct ordered.
  - rewrite length_map, length_markItems, map_map.
    cbn [formatItem parser.ListItem_Marker].
    unfold markItems. apply (numberItems_markers cfg items 0).
  - split; [reflexivity|]. unfold markItems. rewrite map_map.
    apply Forall_forall. intros item Hin.
    apply in_map_iff in Hin as ([text m children] & <- & _). reflexivity.
Qed.

Lemma listsItem_formatItem : forall b cfg item,
  listsItem (formatItem b cfg item)
  = flat_map (fun c => listsNode (formatChild cfg c))
             (parser.ListItem_Children item).
Proof.
  intros b cfg [text marker children].
  cbn [formatItem listsItem parser.ListItem_Children].
  induction children as [|c rest IH]; cbn [map flat_map]; [reflexivity|].
  now rewrite IH.
Qed.

Lemma listsItem_children : forall item,
  listsItem item = flat_map listsNode (parser.ListItem_Children item).
Proof. intros [text marker children]. reflexivity. Qed.

Lemma flat_map_Forall : forall (A B : Type) (P : B -> Prop) (f : A -> list B) l,
  (forall x, In x l -> Forall P (f x)) -> Forall P (flat_map f l).
Proof.
  intros A B P f. induction l as [|a l IH]; intros H; cbn [flat_map];
    [constructor|].
  apply Forall_app. split; [apply H; now left|].
  apply IH. intros x Hx. apply H. now right.
Qed.

Lemma flat_map_kinds : forall (A B C : Type) (g : B -> C) (f1 f2 : A -> list B) l1 l2,
  Forall2 (fun x y => map g (f1 x) = map g (f2 y)) l1 l2 ->
  map g (flat_map f1 l1) = map g (flat_map f2 l2).
Proof.
  intros A B C g f1 f2 l1 l2 H. induction H as [|x y l1 l2 Hxy _ IH];
    cbn [flat_map]; [reflexivity|].
  now rewrite !map_app, Hxy, IH.
Qed.

Lemma Forall2_same : forall (A : Type) (R : A -> A -> Prop) l,
  (forall x, In x l -> R x x) -> Forall2 R l l.
Proof.
  intros A R. induction l as [|a l IH]; intros H; constructor.
  - apply H. now left.
  - apply IH. intros x Hx. apply H. now right.
Qed.

(** Marking changes nothing but the markers. *)
Lemma markItems_marked : forall cfg ordered items,
  Forall2 (fun y item => exists m, y = formatter.setMarker m item)
          (markItems cfg ordered items) items.
Proof.
  intros cfg ordered items. unfold markItems. destruct ordered.
  - generalize 0. induction items as [|item rest IH]; intros i;
      cbn [formatter.numberItems]; constructor; [|apply IH].
    now eexists.
  - induction items as [|item rest IH]; cbn [map]; constructor; [|apply IH].
    now eexists.
Qed.

(** What the rule leaves below the items of a list, given what it leaves
    below the nested lists. *)
Lemma formatted_items_lists : forall (P : parser.List -> Prop) b cfg ordered items,
  (forall item l', In item items ->
                   In (parser.NList l') (parser.ListItem_Children item) ->
                   Forall P (listsList
                               (fst (formatter.ListFormatter_formatList l' cfg)))
                   /\ map kind (listsList
                                  (fst (formatter.ListFormatter_formatList l' cfg)))
                      = map kind (listsList l')) ->
  Forall P (flat_map listsItem
              (map (formatItem b cfg) (markItems cfg ordered items)))
  /\ map kind (flat_map listsItem
                 (map (formatItem b cfg) (markItems cfg ordered items)))
     = map kind (flat_map listsItem items).
Proof.
  intros P b cfg ordered items IH.
  assert (Hchild : forall item c,
             In item items -> In c (parser.ListItem_Children item) ->
             Forall P (listsNode (formatChild cfg c))
             /\ map kind (listsNode (formatChild cfg c))
                = map kind (listsNode c)).
  { intros item c Hitem Hc. destruct c; try (split; [constructor | reflexivity]).
    cbn [formatChild listsNode]. now apply (IH item). }
  assert (Hitem : forall item,
             In item items ->
             Forall P (listsItem (formatItem b cfg item))
             /\ map kind (listsItem (formatItem b cfg item))
                = map kind (listsItem item)).
  { intros item Hin. rewrite listsItem_formatItem, listsItem_children. split.
    - apply flat_map_Forall. intros c Hc. now apply (Hchild item).
    - apply flat_map_kinds. apply Forall2_same.
      intros c Hc. now apply (Hchild item). }
  pose proof (markItems_marked cfg ordered items) as Hm.
  induction Hm as [|y item marked items' (m & ->) _ IHr];
    cbn [map flat_map]; [split; [constructor | reflexivity]|].
  destruct (IHr (fun it l' H => IH it l' (or_intror H))
                (fun it c H => Hchild it c (or_intror H))
                (fun it H => Hitem it (or_intror H))) as [H1 H2].
  destruct (Hitem item (or_introl eq_refl)) as [H3 H4].
  assert (Hmarked : listsItem (formatItem b cfg (formatter.setMarker m item))
                    = listsItem (formatItem b cfg item)).
  { destruct item as [text marker children]. reflexivity. }
  rewrite Hmarked. split.
  - apply Forall_app. now split.
  - now rewrite !map_app, H2, H4.
Qed.

Lemma formatted_lists : forall l cfg,
  Forall (wellMarked cfg)
         (listsList (fst (formatter.ListFormatter_formatList l cfg)))
  /\ map kind (listsList (fst (formatter.ListFormatter_formatList l cfg)))
     = map kind (listsList l).
Proof.
  intros l cfg. revert l. apply nested_lists_ind.
  intros ordered items marker IH.
  rewrite ListFormatter_formatList_shape.
  cbn [fst parser.List_Ordered parser.List_Items parser.List_Marker listsList].
  destruct (formatted_items_lists (wellMarked cfg)
              (config.ConsistentIndentation (config.List cfg))
              cfg ordered items IH) as [H1 H2].
  split.
  - constructor; [apply markItems_wellMarked | exact H1].
  - cbn [map]. rewrite H2. f_equal.
    unfold kind. cbn [parser.List_Ordered parser.List_Items].
    now rewrite length_map, length_markItems.
Qed.

(** X4.  After the list rule every list at or below the node, at any
    depth of nesting, is where it was, is of the same kind and has the same
    number of items, and is marked afresh: an ordered list numbers its
    items 1, 2, ... with the configured token, whatever the numbers of the
    lists around it; an unordered list and its items carry the configured
    bullet. *)
Theorem list_rule_marks_every_list :
  forall (node : parser.Node) (cfg : config.Config),
    let node' := fst (formatter.ListFormatter_Format node cfg) in
    Forall (wellMarked cfg) (listsBelow node')
    /\ map kind (listsBelow node') = map kind (listsBelow node).
Proof.
  intros node cfg node'. subst node'.
  destruct node as [d|h|p|l|i|c|t|ty];
    try (split; [constructor | reflexivity]).
  - cbn [formatter.ListFormatter_Format].
    pose proof (formatted_lists l cfg) as H.
    destruct (formatter.ListFormatter_formatList l cfg) as [l1 err].
    exact H.
  - cbn [formatter.ListFormatter_Format].
    rewrite formatListItem_shape. cbn [fst listsBelow].
    rewrite listsItem_formatItem, listsItem_children. split.
    + apply flat_map_Forall. intros c Hc.
      destruct c; try constructor.
      cbn [formatChild listsNode]. apply formatted_lists.
    + apply flat_map_kinds. apply Forall2_same. intros c Hc.
      destruct c; try reflexivity.
      cbn [formatChild listsNode]. apply formatted_lists.
Qed.

Lemma formatItem_again : forall b cfg item,
  (forall c, In c (parser.ListItem_Children item) ->
             formatChild cfg (formatChild cfg c) = formatChild cfg c) ->
  formatItem b cfg (formatItem b cfg item) = formatItem b cfg item.
Proof.
  intros b cfg [text marker children] H.
  cbn [parser.ListItem_Children] in H.
  unfold formatItem.
  cbn [parser.ListItem_Text parser.ListItem_Marker parser.ListItem_Children].
  f_equal.
  - destruct b; [|reflexivity].
    destruct (trim_normalize_fixed text) as [HT HN]. now rewrite HT, HN.
  - rewrite map_map. apply map_ext_in. exact H.
Qed.

Lemma formatList_again : forall l cfg,
  formatter.ListFormatter_formatList
    (fst (formatter.ListFormatter_formatList l cfg)) cfg
  = formatter.ListFormatter_formatList l cfg.
Proof.
  intros l cfg. revert l. apply nested_lists_ind.
  intros ordered items marker IH.
  rewrite (ListFormatter_formatList_shape (parser.mkList ordered items marker)).
  cbn [fst parser.List_Ordered parser.List_Items parser.List_Marker].
  rewrite ListFormatter_formatList_shape.
  cbn [parser.List_Ordered parser.List_Items parser.List_Marker].
  f_equal. f_equal.
  - rewrite markItems_map, markItems_again, map_map.
    apply map_ext_in. intros y Hy.
    apply formatItem_again. intros c Hc.
    destruct (markItems_children _ _ _ _ Hy) as (item & Hitem & Hch).
    rewrite Hch in Hc.
    destruct c; try reflexivity.
    cbn [formatChild]. f_equal. now rewrite (IH item).
  - now destruct ordered.
Qed.

(** The item the rule leaves is a fixed point of the rule. *)
Lemma formatListItem_fixed : forall b cfg item,
  formatItem b cfg (formatItem b cfg item) = formatItem b cfg item.
Proof.
  intros b cfg item. apply formatItem_again. intros c Hc.
  destruct c; try reflexivity.
  cbn [formatChild]. f_equal. now rewrite formatList_again.
Qed.

(** X5.  Applying the list rule to a node it has already formatted
    changes nothing, at any depth of nesting: the markers it sets depend
    on the positions only, and the text of an item it has trimmed and
    collapsed is a fixed point of both. *)
Theorem list_rule_idempotent :
  forall (node : parser.Node) (cfg : config.Config),
    formatter.ListFormatter_Format
      (fst (formatter.ListFormatter_Format node cfg)) cfg
    = formatter.ListFormatter_Format node cfg.
Proof.
  intros node cfg. destruct node as [d|h|p|l|i|c|t|ty]; try reflexivity.
  - cbn [formatter.ListFormatter_Format].
    pose proof (formatList_again l cfg) as H.
    pose proof (ListFormatter_formatList_ok l cfg) as Hok.
    destruct (formatter.ListFormatter_formatList l cfg) as [l1 err].
    cbn [fst snd] in *. subst err.
    cbn [formatter.ListFormatter_Format]. now rewrite H.
  - cbn [formatter.ListFormatter_Format].
    rewrite formatListItem_shape. cbn [fst formatter.ListFormatter_Format].
    rewrite formatListItem_shape. do 2 f_equal.
    apply formatListItem_fixed.
Qed.

(** ** The engine with the built-in rules *)

Lemma formatByRule_type : forall cfg node,
  parser.Type_ (formatByRule cfg node) = parser.Type_ node.
Proof.
  intros cfg node. unfold formatByRule. rewrite New_formatters.
  destruct node as [d|h|p|l|i|c|t|ty];
    try (cbn; destruct (config.TrimTrailingSpaces (config.Whitespace cfg));
         reflexivity).
  - cbn [parser.Type_]. change (ruleFor parser.NodeList) with listRule.
    cbn [nth listRule formatter.Format formatter.ListFormatter
         formatter.ListFormatter_Format].
    now destruct (formatter.ListFormatter_formatList l cfg).
  - cbn [parser.Type_]. change (ruleFor parser.NodeListItem) with listRule.
    cbn [nth listRule formatter.Format formatter.ListFormatter
         formatter.ListFormatter_Format].
    now destruct (formatter.formatListItem _ i cfg).
  - cbn [parser.Type_]. unfold ruleFor.
    repeat match goal with
           | |- context [if ?b then _ else _] => destruct b
           end;
      cbn; try reflexivity;
      destruct (config.TrimTrailingSpaces (config.Whitespace cfg)); reflexivity.
Qed.

(** The pass of the engine that [formatMarkdownContent] builds, and of
    [formatter.New]: every node of the top level is formatted by the first
    rule that claims its type, and no rule fails. *)
Lemma Engine_Format_builtin : forall doc cfg,
  formatter.Engine_Format (formatter.RegisterDefaults formatter.New) doc cfg
  = (parser.mkDocument (map (formatByRule cfg) (parser.Document_Children doc)),
     None)
  /\ formatter.Engine_Format formatter.New doc cfg
     = (parser.mkDocument (map (formatByRule cfg) (parser.Document_Children doc)),
        None).
Proof.
  intros doc cfg. unfold formatter.Engine_Format. split.
  - unfold formatter.Engine_pass.
    rewrite (formatNodes_total _ cfg (fun n => ruleFor (parser.Type_ n))
               (formatByRule cfg)).
    + reflexivity.
    + intros node. rewrite applyFirst_registered_twice. apply applyFirst_New.
  - rewrite Engine_pass_New. reflexivity.
Qed.

(** X6.  The engine with the built-in rules never fails, keeps the number
    and the types of the nodes of the top level, and is not changed by
    registering the built-in rules a second time, as
    [formatMarkdownContent] does: the second copies are never reached. *)
Theorem builtin_engine_total :
  forall (doc : parser.Document) (cfg : config.Config),
    let r := formatter.Engine_Format
               (formatter.RegisterDefaults formatter.New) doc cfg in
    snd r = None
    /\ map parser.Type_ (parser.Document_Children (fst r))
       = map parser.Type_ (parser.Document_Children doc)
    /\ formatter.Engine_Format formatter.New doc cfg = r.
Proof.
  intros doc cfg r. subst r.
  destruct (Engine_Format_builtin doc cfg) as [-> ->].
  cbn [fst snd parser.Document_Children]. repeat split.
  rewrite map_map. apply map_ext. intros n. apply formatByRule_type.
Qed.

Lemma formatByRule_list : forall cfg l,
  formatByRule cfg (parser.NList l)
  = parser.NList (fst (formatter.ListFormatter_formatList l cfg)).
Proof.
  intros cfg l. unfold formatByRule. rewrite New_formatters.
  cbn [parser.Type_]. change (ruleFor parser.NodeList) with listRule.
  cbn [nth listRule formatter.Format formatter.ListFormatter
       formatter.ListFormatter_Format].
  now destruct (formatter.ListFormatter_formatList l cfg).
Qed.

Lemma formatByRule_item : forall cfg i,
  formatByRule cfg (parser.NListItem i)
  = parser.NListItem (formatItem true cfg i).
Proof.
  intros cfg i. unfold formatByRule. rewrite New_formatters.
  cbn [parser.Type_]. change (ruleFor parser.NodeListItem) with listRule.
  cbn [nth listRule formatter.Format formatter.ListFormatter
       formatter.ListFormatter_Format].
  now rewrite formatListItem_shape.
Qed.

Lemma formatByRule_foreign : forall cfg ty,
  formatByRule cfg (parser.NForeign ty) = parser.NForeign ty.
Proof.
  intros cfg ty. unfold formatByRule. rewrite New_formatters.
  cbn [parser.Type_]. unfold ruleFor.
  repeat match goal with
         | |- context [if ?b then _ else _] => destruct b
         end;
    cbn; try reflexivity;
    destruct (config.TrimTrailingSpaces (config.Whitespace cfg)); reflexivity.
Qed.

(** What its rule leaves of a node that is not a text node is a fixed
    point of that rule. *)
Lemma formatByRule_again : forall cfg node,
  parser.Type_ node <> parser.NodeText ->
  formatByRule cfg (formatByRule cfg node) = formatByRule cfg node.
Proof.
  intros cfg node Hty. destruct node as [d|h|p|l|i|c|t|ty].
  - reflexivity.
  - change (fst (formatter.HeadingFormatter_Format
                   (fst (formatter.HeadingFormatter_Format
                           (parser.NHeading h) cfg)) cfg)
            = fst (formatter.HeadingFormatter_Format (parser.NHeading h) cfg)).
    now rewrite heading_fixed.
  - change (fst (formatter.ParagraphFormatter_Format
                   (fst (formatter.ParagraphFormatter_Format
                           (parser.NParagraph p) cfg)) cfg)
            = fst (formatter.ParagraphFormatter_Format
                     (parser.NParagraph p) cfg)).
    cbn [formatter.ParagraphFormatter_Format fst parser.Paragraph_Text].
    do 2 f_equal.
    apply (paragraph_text_fixed (parser.Paragraph_Text p)
             (config.LineWidth cfg)).
  - rewrite !formatByRule_list. now rewrite formatList_again.
  - rewrite !formatByRule_item. now rewrite formatListItem_fixed.
  - change (fst (formatter.CodeBlockFormatter_Format
                   (fst (formatter.CodeBlockFormatter_Format
                           (parser.NCodeBlock c) cfg)) cfg)
            = fst (formatter.CodeBlockFormatter_Format
                     (parser.NCodeBlock c) cfg)).
    cbn [formatter.CodeBlockFormatter_Format fst parser.CodeBlock_Language
         parser.CodeBlock_Content parser.CodeBlock_Fenced
         parser.CodeBlock_Fence].
    destruct (streq (config.FenceStyle (config.Code cfg)) "```");
      [reflexivity|].
    destruct (streq (config.FenceStyle (config.Code cfg)) "~~~"); reflexivity.
  - now contradiction Hty.
  - now rewrite !formatByRule_foreign.
Qed.

(** X7.  A second pass of the engine over a document without a text node
    at the top level changes nothing: every built-in rule but the inline
    rule, which claims the text nodes, leaves a fixed point of itself. *)
Theorem builtin_engine_idempotent :
  forall (doc : parser.Document) (cfg : config.Config),
    Forall (fun n => parser.Type_ n <> parser.NodeText)
           (parser.Document_Children doc) ->
    let e := formatter.RegisterDefaults formatter.New in
    formatter.Engine_Format e (fst (formatter.Engine_Format e doc cfg)) cfg
    = formatter.Engine_Format e doc cfg.
Proof.
  intros doc cfg Hall e. subst e.
  destruct (Engine_Format_builtin doc cfg) as [-> _].
  cbn [fst].
  destruct (Engine_Format_builtin
              (parser.mkDocument
                 (map (formatByRule cfg) (parser.Document_Children doc)))
              cfg) as [-> _].
  cbn [parser.Document_Children]. do 2 f_equal.
  rewrite map_map. apply map_ext_in. intros n Hn.
  apply formatByRule_again. rewrite Forall_forall in Hall. now apply Hall.
Qed.

Lemma builtin_engine_idempotent_witness :
  Forall (fun n => parser.Type_ n <> parser.NodeText)
         (parser.Document_Children document_plain)
  /\ formatter.Engine_Format (formatter.RegisterDefaults formatter.New)
       (fst (formatter.Engine_Format
               (formatter.RegisterDefaults formatter.New)
               document_plain config.Default))
       config.Default
     = formatter.Engine_Format (formatter.RegisterDefaults formatter.New)
         document_plain config.Default.
Proof.
  assert (H : Forall (fun n => parser.Type_ n <> parser.NodeText)
                     (parser.Document_Children document_plain))
    by (repeat constructor; discriminate).
  split; [exact H|].
  exact (builtin_engine_idempotent document_plain config.Default H).
Defined.

(** ** The pipeline of [formatMarkdownContent] *)

Lemma Render_no_error : forall doc cfg r text e r',
  renderer.Render doc cfg r <> Returned ((text, Some e), r').
Proof.
  intros doc cfg r text e r' H. unfold renderer.Render, renderer.bind in H.
  assert (Hdoc : noErr (renderer.renderDocument doc 0)).
  { apply noErr_forRange. apply Forall_forall. intros x _.
    apply renderNode_noErr. }
  specialize (Hdoc {| renderer.output := ""; renderer.config_ := Some cfg |}).
  destruct (renderer.renderDocument doc 0 _) as [[[e0|] r0]|msg];
    [contradiction | discriminate | discriminate].
Qed.

Lemma Render_returns : forall doc cfg r,
  documentWritable doc = true ->
  exists text r', renderer.Render doc cfg r = Returned ((text, None), r').
Proof.
  intros doc cfg r Hw. unfold renderer.Render, renderer.bind.
  assert (Hdoc : succeeds (renderer.renderDocument doc 0)).
  { apply succeeds_forRange. apply Forall_forall. intros x Hx.
    apply renderNode_succeeds. unfold documentWritable in Hw.
    rewrite forallb_forall in Hw. now apply Hw. }
  destruct (Hdoc {| renderer.output := ""; renderer.config_ := Some cfg |} cfg
              eq_refl) as (r0 & -> & _).
  eexists _, _. reflexivity.
Qed.

Lemma forallb_map_ext : forall (A B : Type) (f : B -> bool) (g : A -> bool)
                               (h : A -> B) l,
  (forall x, In x l -> f (h x) = g x) -> forallb f (map h l) = forallb g l.
Proof.
  intros A B f g h. induction l as [|a l IH]; intros H; cbn [map forallb];
    [reflexivity|].
  rewrite H by now left. f_equal. apply IH. intros x Hx. apply H. now right.
Qed.

Lemma itemWritable_children : forall item,
  itemWritable item = forallb nodeWritable (parser.ListItem_Children item).
Proof. intros [text marker children]. reflexivity. Qed.

(** The list rule leaves what can be written below a list as it is. *)
Lemma listWritable_formatList : forall l cfg,
  listWritable (fst (formatter.ListFormatter_formatList l cfg)) = listWritable l.
Proof.
  intros l cfg. revert l. apply nested_lists_ind.
  intros ordered items marker IH.
  rewrite ListFormatter_formatList_shape.
  cbn [fst parser.List_Ordered parser.List_Items listWritable].
  pose proof (markItems_marked cfg ordered items) as Hm.
  induction Hm as [|y item marked items' (m & ->) _ IHr];
    cbn [map forallb]; [reflexivity|].
  rewrite IHr by (intros it l' H; apply (IH it l'); now right).
  f_equal. destruct item as [text mk children].
  cbn [formatter.setMarker formatItem itemWritable parser.ListItem_Children
       parser.ListItem_Text parser.ListItem_Marker].
  apply forallb_map_ext. intros c Hc. destruct c; try reflexivity.
  cbn [formatChild nodeWritable].
  apply (IH (parser.mkListItem text mk children)); [now left | exact Hc].
Qed.

Lemma itemWritable_formatItem : forall b cfg item,
  itemWritable (formatItem b cfg item) = itemWritable item.
Proof.
  intros b cfg [text marker children].
  cbn [formatItem itemWritable parser.ListItem_Children].
  apply forallb_map_ext. intros c Hc. destruct c; try reflexivity.
  cbn [formatChild nodeWritable]. apply listWritable_formatList.
Qed.

(** With the levels normalised, what the engine leaves of a node can be
    written when what lies below the node can. *)
Lemma nodeWritable_formatByRule : forall cfg node,
  config.NormalizeLevels (config.Heading cfg) = true ->
  belowWritable node = true ->
  nodeWritable (formatByRule cfg node) = true.
Proof.
  intros cfg node Hnorm Hw. destruct node as [d|h|p|l|i|c|t|ty].
  - reflexivity.
  - change (formatByRule cfg (parser.NHeading h))
      with (fst (formatter.HeadingFormatter_Format (parser.NHeading h) cfg)).
    cbn [formatter.HeadingFormatter_Format fst nodeWritable].
    unfold headingWritable. cbn [parser.Heading_Level parser.Heading_Style].
    rewrite Hnorm. apply Bool.orb_true_iff. right.
    unfold formatter.MaxHeadingLevel, formatter.MinHeadingLevel.
    destruct (Z.gtb_spec (parser.Heading_Level h) 6).
    + reflexivity.
    + destruct (Z.ltb_spec (parser.Heading_Level h) 1); [reflexivity|].
      apply Z.leb_le. lia.
  - change (formatByRule cfg (parser.NParagraph p))
      with (fst (formatter.ParagraphFormatter_Format (parser.NParagraph p) cfg)).
    reflexivity.
  - rewrite formatByRule_list. cbn [nodeWritable belowWritable] in *.
    now rewrite listWritable_formatList.
  - rewrite formatByRule_item. cbn [nodeWritable belowWritable] in *.
    now rewrite itemWritable_formatItem.
  - change (formatByRule cfg (parser.NCodeBlock c))
      with (fst (formatter.CodeBlockFormatter_Format (parser.NCodeBlock c) cfg)).
    reflexivity.
  - change (formatByRule cfg (parser.NText t))
      with (fst (formatter.InlineFormatter_Format (parser.NText t) cfg)).
    reflexivity.
  - now rewrite formatByRule_foreign.
Qed.



(** X9.  An error of [formatMarkdownContent] is an error of the parser:
    the message is the parser's behind the words [failed to parse
    markdown], and the text is empty.  No error comes from the engine or
    from the renderer. *)
Theorem pipeline_error_is_parse_error :
  forall (p : Parser) (content : gostring) (cfg : config.Config)
         (formatted : gostring) (err : error),
    formatMarkdownContent p content cfg = Returned (formatted, Some err) ->
    formatted = ""
    /\ exists e, snd (Parse p content) = Some e
                 /\ err = "failed to parse markdown: " ++ e.
Proof.
  intros p content cfg formatted err H.
  unfold formatMarkdownContent, formatMarkdownContentWith in H.
  destruct (Parse p content) as [doc [e|]].
  - injection H as <- <-. split; [reflexivity|]. now exists e.
  - exfalso. destruct (Engine_Format_builtin doc cfg) as [Heq _].
    rewrite Heq in H.
    pose proof (Render_no_error
                  (parser.mkDocument
                     (map (formatByRule cfg) (parser.Document_Children doc)))
                  cfg renderer.New) as Hno.
    destruct (renderer.Render _ cfg renderer.New) as [[[text [e|]] r']|msg].
    + now apply (Hno text e r').
    + discriminate H.
    + discriminate H.
Qed.

Lemma pipeline_error_is_parse_error_witness :
  formatMarkdownContent (parserRefusing "bad input") "# Title" config.Default
  = Returned ("", Some "failed to parse markdown: bad input")
  /\ ("" : gostring) = ""
  /\ exists e, snd (Parse (parserRefusing "bad input") "# Title") = Some e
               /\ ("failed to parse markdown: bad input" : gostring)
                  = "failed to parse markdown: " ++ e.
Proof.
  split; [reflexivity|].
  apply (pipeline_error_is_parse_error (parserRefusing "bad input") "# Title"
           config.Default "" "failed to parse markdown: bad input").
  reflexivity.
Defined.

(** ** [normalizeBlankLines] on a text that is within the limit *)

Lemma blankPrefix_le_longest : forall lines,
  blankPrefix lines <= longestBlankRun lines.
Proof.
  intros [|line rest]; [cbn; lia|]. cbn [longestBlankRun]. lia.
Qed.

Lemma collapse_within : forall K lines c,
  blankPrefix lines <= K - c -> longestBlankRun lines <= K ->
  collapse K lines c = lines.
Proof.
  induction lines as [|line rest IH]; intros c Hp Hl; [reflexivity|].
  cbn [collapse]. cbn [longestBlankRun] in Hl. cbn [blankPrefix] in Hp, Hl.
  pose proof (blankPrefix_nonneg rest) as H0.
  pose proof (blankPrefix_le_longest rest) as H1.
  destruct (isBlank line).
  - destruct (Z.leb_spec (c + 1) K); [|lia].
    f_equal. apply IH; lia.
  - f_equal. apply IH; lia.
Qed.

Lemma normalizeBlankLines_within : forall text K,
  0 <= K -> longestBlankRun (textLines text) <= K ->
  renderer.normalizeBlankLines text K = text.
Proof.
  intros text K HK Hrun. unfold renderer.normalizeBlankLines.
  destruct (Z.ltb_spec K 0); [lia|].
  rewrite blankLoop_collapse. cbn [app].
  destruct text as [|c r].
  - cbn [strings.Split collapse]. change (isBlank []) with true. cbv iota.
    destruct (0 + 1 <=? K); reflexivity.
  - unfold textLines in Hrun. rewrite collapse_within.
    + apply Join_Split.
    + pose proof (blankPrefix_le_longest (strings.Split (c :: r) NL)). lia.
    + exact Hrun.
Qed.

Lemma normalizeBlankLines_bound : forall text K,
  0 <= K ->
  longestBlankRun (textLines (renderer.normalizeBlankLines text K)) <= K.
Proof.
  intros text K HK. unfold renderer.normalizeBlankLines.
  destruct (Z.ltb_spec K 0); [lia|].
  rewrite blankLoop_collapse. cbn [app].
  destruct (textLines_Join (collapse K (strings.Split text NL) 0)) as [->| ->].
  - apply collapse_Forall, Split_lines_no_sep.
  - apply collapse_longestBlankRun; lia.
  - cbn. lia.
Qed.

(** X10.  [normalizeBlankLines] leaves a text alone whose runs of blank
    lines are within the limit, and what it returns is such a text: a
    second call changes nothing. *)
Theorem normalizeBlankLines_fixed_point :
  forall (text : gostring) (K : Z),
    (0 <= K -> longestBlankRun (textLines text) <= K ->
     renderer.normalizeBlankLines text K = text)
    /\ renderer.normalizeBlankLines (renderer.normalizeBlankLines text K) K
       = renderer.normalizeBlankLines text K.
Proof.
  intros text K. split; [apply normalizeBlankLines_within|].
  destruct (Z.ltb_spec K 0) as [Hneg|Hpos].
  - unfold renderer.normalizeBlankLines.
    destruct (Z.ltb_spec K 0); [reflexivity | lia].
  - apply normalizeBlankLines_within; [assumption|].
    now apply normalizeBlankLines_bound.
Qed.

Lemma normalizeBlankLines_fixed_point_witness :
  (0 <= 2
   /\ longestBlankRun (textLines ("a" ++ [NL; NL; NL] ++ "b")) <= 2
   /\ renderer.normalizeBlankLines ("a" ++ [NL; NL; NL] ++ "b") 2
      = "a" ++ [NL; NL; NL] ++ "b")
  /\ renderer.normalizeBlankLines
       (renderer.normalizeBlankLines buffer_with_runs 1) 1
     = renderer.normalizeBlankLines buffer_with_runs 1.
Proof.
  split.
  - assert (H0 : 0 <= 2) by lia.
    assert (H1 : longestBlankRun (textLines ("a" ++ [NL; NL; NL] ++ "b")) <= 2)
      by (vm_compute; discriminate).
    split; [exact H0|]. split; [exact H1|].
    exact (proj1 (normalizeBlankLines_fixed_point
                    ("a" ++ [NL; NL; NL] ++ "b") 2) H0 H1).
  - exact (proj2 (normalizeBlankLines_fixed_point buffer_with_runs 1)).
Defined.

Lemma collapse_filter : forall K lines c,
  filter (fun l => negb (isBlank l)) (collapse K lines c)
  = filter (fun l => negb (isBlank l)) lines.
Proof.
  induction lines as [|line rest IH]; intros c; cbn [collapse filter];
    [reflexivity|].
  destruct (isBlank line) eqn:Hb; cbn [negb].
  - destruct (c + 1 <=? K); [cbn [filter]; rewrite Hb; cbn [negb]|]; apply IH.
  - cbn [filter]. rewrite Hb. cbn [negb]. f_equal. apply IH.
Qed.

(** X11.  [normalizeBlankLines] deletes blank lines and nothing else: the
    lines of the text that are not blank are the same before and after,
    in the same order. *)
Theorem normalizeBlankLines_keeps_lines :
  forall (text : gostring) (K : Z),
    filter (fun l => negb (isBlank l))
           (strings.Split (renderer.normalizeBlankLines text K) NL)
    = filter (fun l => negb (isBlank l)) (strings.Split text NL).
Proof.
  intros text K. unfold renderer.normalizeBlankLines.
  destruct (K <? 0); [reflexivity|].
  rewrite blankLoop_collapse. cbn [app].
  rewrite <- (collapse_filter K (strings.Split text NL) 0).
  destruct (collapse K (strings.Split text NL) 0) as [|l ls] eqn:Hc.
  - reflexivity.
  - rewrite Split_Join; [reflexivity | discriminate|].
    rewrite <- Hc. apply collapse_Forall, Split_lines_no_sep.
Qed.

(** ** The last byte of what [Render] returns *)

Lemma HasSuffix_snoc : forall (s : gostring) (c : ascii),
  strings.HasSuffix (s ++ [c]) [c] = true.
Proof.
  intros s c. unfold strings.HasSuffix. rewrite length_app. cbn [length].
  replace (length s + 1 - 1)%nat with (length s) by lia.
  rewrite skipn_app, Nat.sub_diag, skipn_all. cbn [app skipn streq].
  rewrite Ascii.eqb_refl. cbn [andb].
  apply Nat.leb_le. lia.
Qed.

Lemma HasSuffix_byte : forall (s : gostring) (c : ascii),
  strings.HasSuffix s [c] = true -> exists body, s = body ++ [c].
Proof.
  intros s c H. unfold strings.HasSuffix in H.
  apply andb_prop in H as [H1 H2]. cbn [length] in *.
  apply Nat.leb_le in H2.
  exists (firstn (length s - 1) s).
  rewrite <- (firstn_skipn (length s - 1) s) at 1. f_equal.
  destruct (skipn (length s - 1) s) as [|d [|d2 r]]; cbn [streq] in H1.
  - discriminate.
  - rewrite Bool.andb_true_r in H1. apply Ascii.eqb_eq in H1. now subst.
  - rewrite Bool.andb_false_r in H1. discriminate.
Qed.

(** X12.  With [EnsureFinalNewline] set, the text [Render] returns ends
    with a newline, and [Render] appends at most that one byte to the text
    [normalizeBlankLines] returns; without it [Render] appends nothing. *)
Theorem Render_final_newline :
  forall (doc : parser.Document) (cfg : config.Config)
         (r r' : renderer.MarkdownRenderer) (text : gostring),
    renderer.Render doc cfg r = Returned ((text, None), r') ->
    let body := renderer.normalizeBlankLines (renderer.output r')
                  (config.MaxBlankLines (config.Whitespace cfg)) in
    (text = body \/ text = body ++ [NL])
    /\ (config.EnsureFinalNewline (config.Whitespace cfg) = true ->
        exists t, text = t ++ [NL])
    /\ (config.EnsureFinalNewline (config.Whitespace cfg) = false ->
        text = body).
Proof.
  intros doc cfg r r' text H body. subst body.
  unfold renderer.Render, renderer.bind in H.
  destruct (renderer.renderDocument doc 0 _) as [[[e|] r0]|msg];
    [discriminate | | discriminate].
  unfold renderer.ret in H. injection H as Htext Hr. subst r0.
  destruct (config.EnsureFinalNewline (config.Whitespace cfg)); cbn [andb] in Htext.
  - destruct (strings.HasSuffix _ [NL]) eqn:Hs; cbn [negb] in Htext; subst text.
    + split; [now left|]. split; [|discriminate].
      intros _. now apply HasSuffix_byte.
    + split; [now right|]. split; [|discriminate].
      intros _. now eexists.
  - subst text. split; [now left|]. split; [discriminate | reflexivity].
Qed.

Lemma Render_final_newline_witness :
  exists text r',
    renderer.Render document_plain config.Default renderer.New
    = Returned ((text, None), r')
    /\ config.EnsureFinalNewline (config.Whitespace config.Default) = true
    /\ exists t, text = t ++ [NL].
Proof.
  destruct (renderer.Render document_plain config.Default renderer.New)
    as [[[text [e|]] r']|msg] eqn:H;
    try (vm_compute in H; discriminate H).
  exists text, r'. split; [reflexivity|]. split; [reflexivity|].
  exact (proj1 (proj2 (Render_final_newline document_plain config.Default
                         renderer.New r' text H)) eq_refl).
Defined.

(** ** The command: what it writes *)

Lemma handleFileOutput_writes : forall os filePath formatted changed args
                                       path' content',
  In (WriteFileCall path' content')
     (fst (handleFileOutput os filePath formatted changed args)) ->
  write args = true /\ changed = true
  /\ path' = filePath /\ content' = formatted.
Proof.
  intros os filePath formatted changed args path' content' H.
  unfold handleFileOutput in H.
  destruct (write args).
  - unfold handleWriteMode in H. destruct changed.
    + destruct (WriteFile os filePath formatted);
        [|destruct (verbose args && negb (quiet args))];
        cbn [fst In] in H;
        repeat match goal with
               | H : _ \/ _ |- _ => destruct H as [H|H]
               | H : False |- _ => destruct H
               end;
        try discriminate; injection H as <- <-; now repeat split.
    + destruct (verbose args && negb (quiet args)); cbn [fst In] in H;
        repeat match goal with
               | H : _ \/ _ |- _ => destruct H as [H|H]
               | H : False |- _ => destruct H
               end; discriminate.
  - exfalso.
    destruct (check args);
      [unfold handleCheckMode in H;
       destruct (changed && verbose args && negb (quiet args))|].
    3: destruct (list_ args);
      [unfold handleListMode in H; destruct changed|].
    5: destruct (diff args);
      [unfold handleDiffMode in H; destruct changed
      |unfold handleStdoutMode in H].
    all: cbn [fst In] in H;
      repeat match goal with
             | H : _ \/ _ |- _ => destruct H as [H|H]
             | H : False |- _ => destruct H
             end; discriminate.
Qed.

(** X13.  [processFile] calls [os.WriteFile] only when the command runs
    in write mode, only on the path of the file it read, only with the
    text [formatMarkdownContent] returned for what it read, and only when
    [hasContentChanged] holds of the two: nothing is written in the check,
    list, diff and standard-output modes, nor after an error. *)
Theorem processFile_write_safety :
  forall (os : FileSystem) (p : Parser) (path : gostring)
         (cfg : config.Config) (args : ProcessingArgs)
         (res : bool * option error) (effects : list Effect)
         (path' content' : gostring),
    processFile os p path cfg args = Returned (res, effects) ->
    In (WriteFileCall path' content') effects ->
    write args = true
    /\ path' = path
    /\ exists content,
        ReadFile os path = (content, None)
        /\ formatMarkdownContent p content cfg = Returned (content', None)
        /\ hasContentChanged content content' = true.
Proof.
  intros os p path cfg args res effects path' content' H Hin.
  unfold processFile in H.
  destruct (ReadFile os path) as [content [e|]] eqn:Hread.
  { injection H as _ <-. destruct Hin. }
  destruct (formatMarkdownContent p content cfg)
    as [[formatted [e|]]|msg] eqn:Hfmt.
  { injection H as _ <-. destruct Hin. }
  2: discriminate H.
  assert (Hdone : In (WriteFileCall path' content')
                     (fst (handleFileOutput os path formatted
                             (hasContentChanged content formatted) args))).
  { destruct (handleFileOutput os path formatted _ args) as [done [e|]];
      injection H as _ <-; apply in_app_or in Hin as [Hin|Hin];
      try exact Hin;
      destruct (verbose args && negb (quiet args)
                && hasContentChanged content formatted);
      cbn [In] in Hin;
      repeat match goal with
             | H : _ \/ _ |- _ => destruct H as [H|H]
             | H : False |- _ => destruct H
             end; discriminate. }
  apply handleFileOutput_writes in Hdone as (Hw & Hch & -> & ->).
  split; [assumption|]. split; [reflexivity|].
  exists content. now repeat split.
Qed.

Lemma processFile_write_safety_witness :
  processFile (oneFile "a  b") basicParser "doc.md" config.Default writeArgs
  = Returned ((true, None), [WriteFileCall "doc.md" ("a b" ++ [NL; NL])])
  /\ write writeArgs = true
  /\ ("doc.md" : gostring) = "doc.md"
  /\ exists content,
      ReadFile (oneFile "a  b") "doc.md" = (content, None)
      /\ formatMarkdownContent basicParser content config.Default
         = Returned ("a b" ++ [NL; NL], None)
      /\ hasContentChanged content ("a b" ++ [NL; NL]) = true.
Proof.
  assert (H : processFile (oneFile "a  b") basicParser "doc.md"
                config.Default writeArgs
              = Returned ((true, None),
                          [WriteFileCall "doc.md" ("a b" ++ [NL; NL])]))
    by (vm_compute; reflexivity).
  split; [exact H|].
  exact (processFile_write_safety (oneFile "a  b") basicParser "doc.md"
           config.Default writeArgs (true, None)
           [WriteFileCall "doc.md" ("a b" ++ [NL; NL])]
           "doc.md" ("a b" ++ [NL; NL]) H (or_introl eq_refl)).
Defined.

(** ** [hasContentChanged] *)

Lemma streq_eq : forall a b : gostring, streq a b = true <-> a = b.
Proof.
  induction a as [|x a IH]; intros [|y b]; cbn [streq]; split; intros H;
    try reflexivity; try discriminate.
  - apply andb_prop in H as [H1 H2]. apply Ascii.eqb_eq in H1.
    apply IH in H2. now subst.
  - injection H as -> ->. rewrite Ascii.eqb_refl. now apply IH.
Qed.

Lemma dropSpaces_snoc : forall sp s skip,
  strings.asciiSpace sp = true ->
  strings.dropSpaces strings.spaceWidth (s ++ [sp]) skip
  = match strings.dropSpaces strings.spaceWidth s skip with
    | [] => []
    | x => x ++ [sp]
    end.
Proof.
  intros sp s skip Hsp. revert skip.
  induction s as [|c r IH]; intros skip.
  - cbn [app strings.dropSpaces]. destruct skip as [|k]; [|reflexivity].
    cbn [strings.spaceWidth]. now rewrite Hsp.
  - change ((c :: r) ++ [sp]) with (c :: (r ++ [sp])).
    cbn [strings.dropSpaces]. destruct skip as [|k]; [|apply IH].
    change (c :: (r ++ [sp])) with ((c :: r) ++ [sp]).
    rewrite spaceWidth_app_ascii;
      [|discriminate | cbn; now apply asciiSpace_asciiByte].
    destruct (strings.spaceWidth (c :: r)); [reflexivity | apply IH].
Qed.

(** A white-space byte at the end of a text is trimmed away. *)
Lemma TrimSpace_snoc : forall sp s,
  strings.asciiSpace sp = true ->
  strings.TrimSpace (s ++ [sp]) = strings.TrimSpace s.
Proof.
  intros sp s Hsp. unfold strings.TrimSpace. rewrite dropSpaces_snoc by assumption.
  destruct (strings.dropSpaces strings.spaceWidth s 0) as [|c d]; [reflexivity|].
  rewrite rev_app_distr. cbn [rev app].
  cbn [strings.dropSpaces strings.spaceWidthRev]. now rewrite Hsp.
Qed.

(** X14.  [hasContentChanged] compares the two texts up to the white
    space at their ends: it answers [false] exactly when the trimmed texts
    are equal, so trimming either text, or adding a white-space byte such
    as the final newline to the formatted text, does not change its
    answer. *)
Theorem hasContentChanged_outer_space :
  forall (original formatted : gostring),
    (hasContentChanged original formatted = false
     <-> strings.TrimSpace original = strings.TrimSpace formatted)
    /\ hasContentChanged (strings.TrimSpace original)
                         (strings.TrimSpace formatted)
       = hasContentChanged original formatted
    /\ (forall sp, strings.asciiSpace sp = true ->
                   hasContentChanged original (formatted ++ [sp])
                   = hasContentChanged original formatted).
Proof.
  intros original formatted. unfold hasContentChanged. repeat split.
  - intros H. apply streq_eq. now apply Bool.negb_false_iff.
  - intros H. apply Bool.negb_false_iff. now apply streq_eq.
  - now rewrite !TrimSpace_again.
  - intros sp Hsp. now rewrite TrimSpace_snoc.
Qed.

Lemma hasContentChanged_outer_space_witness :
  strings.asciiSpace NL = true
  /\ hasContentChanged "a b" ("a b" ++ [NL])
     = hasContentChanged "a b" "a b".
Proof.
  split; [reflexivity|].
  apply (proj2 (proj2 (hasContentChanged_outer_space "a b" "a b")) NL).
  reflexivity.
Defined.

(** ** [Register] inserts behind the rules of the same priority *)

Lemma bubble_split : forall f l,
  exists lo hi,
    l = lo ++ hi
    /\ formatter.bubble f l = lo ++ f :: hi
    /\ Forall (fun g => formatter.Priority g < formatter.Priority f) lo
    /\ match hi with
       | [] => True
       | g :: _ => formatter.Priority f <= formatter.Priority g
       end.
Proof.
  intros f. induction l as [|g rest IH]; cbn [formatter.bubble].
  - exists [], []. repeat split. constructor.
  - destruct (Z.gtb_spec (formatter.Priority f) (formatter.Priority g)).
    + destruct IH as (lo & hi & -> & -> & Hlo & Hhi).
      exists (g :: lo), hi. repeat split; [|assumption].
      constructor; [lia | assumption].
    + exists [], (g :: rest). repeat split; [constructor | assumption].
Qed.

Lemma StronglySorted_app : forall (A : Type) (R : A -> A -> Prop) a b,
  StronglySorted R (a ++ b)
  <-> StronglySorted R a /\ StronglySorted R b
      /\ forall x y, In x a -> In y b -> R x y.
Proof.
  intros A R. induction a as [|c a IH]; intros b; cbn [app].
  - split.
    + intros H. repeat split; [constructor | assumption | intros x y []].
    + now intros (_ & H & _).
  - split.
    + intros H. inversion H as [|? ? Hs Hall]; subst.
      apply IH in Hs as (Ha & Hb & Hab).
      rewrite Forall_forall in Hall. repeat split.
      * constructor; [assumption|]. apply Forall_forall.
        intros x Hx. apply Hall, in_or_app. now left.
      * assumption.
      * intros x y [<-|Hx] Hy; [apply Hall, in_or_app; now right|].
        now apply Hab.
    + intros (Ha & Hb & Hab). inversion Ha as [|? ? Hs Hall]; subst.
      constructor.
      * apply IH. repeat split; [assumption | assumption|].
        intros x y Hx Hy. apply Hab; [now right | assumption].
      * apply Forall_forall. intros x Hx. apply in_app_or in Hx as [Hx|Hx].
        -- rewrite Forall_forall in Hall. now apply Hall.
        -- apply Hab; [now left | assumption].
Qed.

(** X15.  [Register] puts the new rule behind every rule it does not
    strictly outrank from the end of the list: the rules behind it have a
    strictly lower priority, the rule right before it has not, and the
    rules already registered keep their order.  On a list in priority
    order, highest first, the result is in priority order again, and the
    new rule stands behind all the rules of its own priority: ties go by
    the order of registration. *)
Theorem Register_inserts_stably :
  forall (e : formatter.Engine) (f : formatter.NodeFormatter),
  exists before after,
    formatter.formatters e = before ++ after
    /\ formatter.formatters (formatter.Register e f) = before ++ f :: after
    /\ Forall (fun g => formatter.Priority g < formatter.Priority f) after
    /\ (forall b' g, before = b' ++ [g] ->
                     formatter.Priority f <= formatter.Priority g)
    /\ (StronglySorted
          (fun a b => formatter.Priority b <= formatter.Priority a)
          (formatter.formatters e) ->
        Forall (fun g => formatter.Priority f <= formatter.Priority g) before
        /\ StronglySorted
             (fun a b => formatter.Priority b <= formatter.Priority a)
             (formatter.formatters (formatter.Register e f))).
Proof.
  intros e f. unfold formatter.Register. cbn [formatter.formatters].
  destruct (bubble_split f (rev (formatter.formatters e)))
    as (lo & hi & Hl & -> & Hlo & Hhi).
  apply (f_equal (@rev formatter.NodeFormatter)) in Hl.
  rewrite rev_involutive, rev_app_distr in Hl.
  exists (rev hi), (rev lo).
  assert (Hlast : forall b' g, rev hi = b' ++ [g] ->
                               formatter.Priority f <= formatter.Priority g).
  { intros b' g Hb. apply (f_equal (@rev formatter.NodeFormatter)) in Hb.
    rewrite rev_involutive, rev_app_distr in Hb. cbn [rev app] in Hb.
    subst hi. exact Hhi. }
  repeat split.
  - exact Hl.
  - rewrite rev_app_distr. cbn [rev]. now rewrite <- app_assoc.
  - apply Forall_forall. intros g Hg. apply in_rev in Hg.
    rewrite Forall_forall in Hlo. now apply Hlo.
  - exact Hlast.
  - rewrite Hl in H. apply StronglySorted_app in H as (Hb & _ & _).
    apply Forall_forall. intros g Hg.
    destruct (exists_last (l := rev hi)) as (b' & g0 & Hb').
    { intros H0. rewrite H0 in Hg. destruct Hg. }
    pose proof (Hlast b' g0 Hb') as Hg0.
    rewrite Hb' in Hg, Hb. apply in_app_or in Hg as [Hg|[<-|[]]]; [|lia].
    apply StronglySorted_app in Hb as (_ & _ & Hb).
    specialize (Hb g g0 Hg (or_introl eq_refl)). cbn beta in Hb. lia.
  - rewrite Hl in H. apply StronglySorted_app in H as (Hb & Ha & Hba).
    assert (Hbf : forall g, In g (rev hi) ->
                            formatter.Priority f <= formatter.Priority g).
    { intros g Hg.
      destruct (exists_last (l := rev hi)) as (b' & g0 & Hb').
      { intros H0. rewrite H0 in Hg. destruct Hg. }
      pose proof (Hlast b' g0 Hb') as Hg0.
      rewrite Hb' in Hg, Hb. apply in_app_or in Hg as [Hg|[<-|[]]]; [|lia].
      apply StronglySorted_app in Hb as (_ & _ & Hb).
      specialize (Hb g g0 Hg (or_introl eq_refl)). cbn beta in Hb. lia. }
    rewrite rev_app_distr. cbn [rev]. rewrite <- app_assoc. cbn [app].
    apply StronglySorted_app. repeat split.
    + assumption.
    + constructor; [assumption|]. apply Forall_forall. intros g Hg.
      apply in_rev in Hg. rewrite Forall_forall in Hlo.
      specialize (Hlo g Hg). cbn beta in Hlo. lia.
    + intros x y Hx [<-|Hy]; [now apply Hbf | now apply Hba].
Qed.

Lemma Register_inserts_stably_witness :
  StronglySorted (fun a b => formatter.Priority b <= formatter.Priority a)
                 (formatter.formatters formatter.New)
  /\ StronglySorted
       (fun a b => formatter.Priority b <= formatter.Priority a)
       (formatter.formatters
          (formatter.Register formatter.New formatter.NewHeadingFormatter)).
Proof.
  assert (H : StronglySorted
                (fun a b => formatter.Priority b <= formatter.Priority a)
                (formatter.formatters formatter.New)).
  { rewrite New_formatters.
    repeat (constructor; [|repeat constructor; cbn; lia]). constructor. }
  split; [exact H|].
  destruct (Register_inserts_stably formatter.New formatter.NewHeadingFormatter)
    as (before & after & _ & _ & _ & _ & Hsorted).
  exact (proj2 (Hsorted H)).
Defined.

(** ** The engine and the content of a code block *)

(** X16.  A pass of the engine leaves the content, the language and the
    fenced flag of every code block of the top level as they are, also
    with [TrimTrailingSpaces] set: the code rule claims the block before
    the white-space rule, whose branch for code blocks is never reached,
    and the code rule writes the fence only. *)
Theorem engine_keeps_code_content :
  forall (doc : parser.Document) (cfg : config.Config) (k : nat)
         (c : parser.CodeBlock),
    nth_error (parser.Document_Children doc) k = Some (parser.NCodeBlock c) ->
    exists c',
      nth_error
        (parser.Document_Children
           (fst (formatter.Engine_Format
                   (formatter.RegisterDefaults formatter.New) doc cfg))) k
      = Some (parser.NCodeBlock c')
      /\ parser.CodeBlock_Content c' = parser.CodeBlock_Content c
      /\ parser.CodeBlock_Language c' = parser.CodeBlock_Language c
      /\ parser.CodeBlock_Fenced c' = parser.CodeBlock_Fenced c
      /\ (parser.CodeBlock_Fence c' = config.FenceStyle (config.Code cfg)
          \/ parser.CodeBlock_Fence c' = parser.CodeBlock_Fence c).
Proof.
  intros doc cfg k c Hk.
  destruct (Engine_Format_builtin doc cfg) as [-> _].
  cbn [fst parser.Document_Children].
  rewrite nth_error_map, Hk. cbn [option_map].
  change (formatByRule cfg (parser.NCodeBlock c))
    with (fst (formatter.CodeBlockFormatter_Format (parser.NCodeBlock c) cfg)).
  cbn [formatter.CodeBlockFormatter_Format fst].
  eexists. split; [reflexivity|].
  cbn [parser.CodeBlock_Content parser.CodeBlock_Language
       parser.CodeBlock_Fenced parser.CodeBlock_Fence].
  repeat split.
  destruct (streq (config.FenceStyle (config.Code cfg)) "```") eqn:H1.
  - left. apply streq_eq in H1. now rewrite H1.
  - destruct (streq (config.FenceStyle (config.Code cfg)) "~~~") eqn:H2.
    + left. apply streq_eq in H2. now rewrite H2.
    + now right.
Qed.

Lemma engine_keeps_code_content_witness :
  config.TrimTrailingSpaces (config.Whitespace config.Default) = true
  /\ exists c',
      nth_error
        (parser.Document_Children
           (fst (formatter.Engine_Format
                   (formatter.RegisterDefaults formatter.New)
                   document_plain config.Default))) 3
      = Some (parser.NCodeBlock c')
      /\ parser.CodeBlock_Content c' = "x := 1  " ++ [NL]
      /\ parser.CodeBlock_Language c' = "go"
      /\ parser.CodeBlock_Fenced c' = true
      /\ (parser.CodeBlock_Fence c' = "```"
          \/ parser.CodeBlock_Fence c' = "~~~").
Proof.
  split; [reflexivity|].
  exact (engine_keeps_code_content document_plain config.Default 3
           {| parser.CodeBlock_Language := "go";
              parser.CodeBlock_Content := "x := 1  " ++ [NL];
              parser.CodeBlock_Fenced := true;
              parser.CodeBlock_Fence := "~~~" |} eq_refl).
Defined.

(** ** A configuration that [Validate] accepts *)

Lemma contains_In : forall slice item,
  config.contains slice item = true <-> In item slice.
Proof.
  induction slice as [|s rest IH]; intros item; cbn [config.contains In].
  - split; [discriminate | intros []].
  - destruct (streq s item) eqn:Hs.
    + apply streq_eq in Hs. split; [now left | reflexivity].
    + rewrite IH. split; [now right|].
      intros [H|H]; [|assumption].
      apply streq_eq in H. congruence.
Qed.

(** X17.  Under a configuration that [Validate] accepts the rules take
    none of their fallback branches: the code rule writes the configured
    fence, the heading rule writes [setext] for a level of at most 2 under
    the setext style and [atx] otherwise, and an ordered list is numbered
    with the configured token; the line width is positive, so that the
    paragraph rule reflows, and the maximum of blank lines is not
    negative, so that [normalizeBlankLines] collapses. *)
Theorem valid_config_styles :
  forall cfg : config.Config,
    config.Validate cfg = None ->
    (config.LineWidth cfg >? 0) = true
    /\ (config.MaxBlankLines (config.Whitespace cfg) <? 0) = false
    /\ (forall c,
           exists c',
             formatter.CodeBlockFormatter_Format (parser.NCodeBlock c) cfg
             = (parser.NCodeBlock c', None)
             /\ parser.CodeBlock_Fence c' = config.FenceStyle (config.Code cfg))
    /\ (forall h,
           exists h',
             formatter.HeadingFormatter_Format (parser.NHeading h) cfg
             = (parser.NHeading h', None)
             /\ parser.Heading_Style h'
                = if streq (config.Heading_Style (config.Heading cfg)) "setext"
                     && (parser.Heading_Level h <=? 2)
                  then "setext" else "atx")
    /\ (forall l,
           map parser.ListItem_Marker
               (parser.List_Items (formatter.formatOrderedList l cfg))
           = map (fun k => itoa (Z.of_nat k + 1)
                           ++ config.NumberStyle (config.List cfg))
                 (seq 0 (length (parser.List_Items l)))).
Proof.
  intros cfg H. unfold config.Validate in H.
  destruct (Z.ltb_spec (config.LineWidth cfg) 1) as [|Hw]; [discriminate|].
  assert (Hstyle : config.Heading_Style (config.Heading cfg) = "atx"
                   \/ config.Heading_Style (config.Heading cfg) = "setext").
  { destruct (streq (config.Heading_Style (config.Heading cfg)) "atx") eqn:Hatx;
      [left; now apply streq_eq|].
    destruct (streq (config.Heading_Style (config.Heading cfg)) "setext")
      eqn:Hset; [right; now apply streq_eq | discriminate]. }
  destruct (negb (streq (config.Heading_Style (config.Heading cfg)) "atx")
            && negb (streq (config.Heading_Style (config.Heading cfg))
                           "setext")); [discriminate|].
  destruct (config.contains _ (config.BulletStyle (config.List cfg)));
    cbn [negb] in H; [|discriminate].
  destruct (config.contains _ (config.NumberStyle (config.List cfg)))
    eqn:Hnum; cbn [negb] in H; [|discriminate].
  destruct (config.contains _ (config.FenceStyle (config.Code cfg)))
    eqn:Hfence; cbn [negb] in H; [|discriminate].
  destruct (config.MaxBlankLines (config.Whitespace cfg) <? 0) eqn:Hmax;
    [discriminate|].
  apply contains_In in Hnum, Hfence.
  split; [apply Z.gtb_lt; lia|].
  split; [reflexivity|].
  split.
  { intros c. cbn [formatter.CodeBlockFormatter_Format].
    eexists. split; [reflexivity|].
    cbn [parser.CodeBlock_Fence].
    destruct Hfence as [<-|[<-|[]]]; reflexivity. }
  split.
  { intros h. cbn [formatter.HeadingFormatter_Format].
    eexists. split; [reflexivity|].
    cbn [parser.Heading_Style].
    unfold formatter.SetextMaxLevel.
    destruct Hstyle as [->| ->];
      destruct (parser.Heading_Level h <=? 2); reflexivity. }
  intros l. unfold formatter.formatOrderedList. cbn [parser.List_Items].
  etransitivity;
    [exact (numberItems_markers cfg (parser.List_Items l) 0)|].
  apply map_ext. intros k. unfold markerAt, numberToken.
  destruct Hnum as [<-|[<-|[]]]; reflexivity.
Qed.

Lemma valid_config_styles_witness :
  config.Validate config.Default = None
  /\ forall l,
      map parser.ListItem_Marker
          (parser.List_Items (formatter.formatOrderedList l config.Default))
      = map (fun k => itoa (Z.of_nat k + 1)
                      ++ config.NumberStyle (config.List config.Default))
            (seq 0 (length (parser.List_Items l))).
Proof.
  split; [reflexivity|].
  apply (valid_config_styles config.Default). reflexivity.
Defined.
